(** * SkiaColor-Extract: the quantizer and the palette classifier

    A shallow embedding of [src/utils/colorUtils.ts] ([rgbToHex],
    [rgbToHsl], [colorDistanceSq], [quantizeColors]) and of the role
    selection of [SkiaService.processImage] in
    [src/services/skiaService.ts], with the properties of the
    specification stated over it.  [getLuminance] has no part in the
    pipeline and is left out.  Of the rest of [skiaService.ts] the
    embedding has the size of the surface [processImage] draws on and
    the loading of CanvasKit by [SkiaService.init]; the calls into
    CanvasKit themselves are outside of it.

    Numbers.  A JavaScript [number] is rendered by [num]: an exact rational
    or [NaN].  Every quantity of the program is a byte, a sum of bytes, a
    ratio of such sums or a polynomial in those, so rationals render the
    arithmetic of the source without the rounding of IEEE doubles.
    [undefined], which the source only ever obtains by reading a typed
    array out of range and only ever consumes through arithmetic or
    comparison, is rendered by [NaN] as well (ToNumber of [undefined] is
    [NaN]).  The literal [Infinity] occurs once, as the initial [minDist],
    and has its own type [bound].

    Typed arrays.  [Uint8Array] is a [list Z] of bytes, [Float64Array] a
    [list num], and [Int32Array] a [list Z] whose stores wrap around
    ([wrap32]).  A store outside the range of a typed array is dropped, a
    read outside yields [undefined].

    Errors.  A call returns [Ok] with its value or [Throw] with the
    exception it ends with.

    Randomness.  [Math.random()] is an explicit argument [rnd]: [rnd i] is
    the value returned by the call number [i] (counted from 0); its values
    are in [0, 1).

    Promises and time.  The promise [init] returns is rendered by what it
    settles to, and time by the number of firings of the interval; whether
    the script of CanvasKit is there at a firing, and whether
    [CanvasKitInit] succeeds, are explicit arguments. *)

From Stdlib Require Import Floats.
From Stdlib Require Import ZArith QArith Qround Qminmax Lia Lqa.
From Stdlib Require Import String Ascii HexString Sorted.
From stdpp Require Import base list.

Local Open Scope Z_scope.
Local Open Scope Q_scope.

(** ** JavaScript numbers *)

Inductive num : Type :=
| Fin (q : Q)
| NaN.

Definition lift2 (f : Q -> Q -> Q) (x y : num) : num :=
  match x, y with
  | Fin a, Fin b => Fin (f a b)
  | _, _ => NaN
  end.

Definition nadd : num -> num -> num := lift2 Qplus.
Definition nsub : num -> num -> num := lift2 Qminus.
Definition nmul : num -> num -> num := lift2 Qmult.

(** No division of the program has a zero divisor on data derived from
    bytes (see [rgbToHsl_Fin] and the guards [clusterCounts[c] > 0] and
    [dominant.population || 1]), so the infinities of IEEE division are
    not part of [num]. *)
Definition ndiv (x y : num) : num :=
  match x, y with
  | Fin a, Fin b => if Qeq_bool b 0 then NaN else Fin (a / b)
  | _, _ => NaN
  end.

(** Comparisons: every comparison with [NaN] is false, and so is
    [NaN === NaN]. *)
Definition Qlt_bool (a b : Q) : bool := negb (Qle_bool b a).

Definition nlt (x y : num) : bool :=
  match x, y with
  | Fin a, Fin b => Qlt_bool a b
  | _, _ => false
  end.

Definition ngt (x y : num) : bool := nlt y x.

Definition nseq (x y : num) : bool :=
  match x, y with
  | Fin a, Fin b => Qeq_bool a b
  | _, _ => false
  end.

Declare Scope num_scope.
Delimit Scope num_scope with num.
Bind Scope num_scope with num.
Infix "+" := nadd : num_scope.
Infix "-" := nsub : num_scope.
Infix "*" := nmul : num_scope.
Infix "/" := ndiv : num_scope.
Infix "<?" := nlt (at level 70) : num_scope.
Infix ">?" := ngt (at level 70) : num_scope.
Infix "===" := nseq (at level 70) : num_scope.
Notation "x !== y" := (negb (nseq x y)) (at level 70) : num_scope.

(** [Math.max(a, b, c)] and [Math.min(a, b, c)]: [NaN] as soon as one
    argument is. *)
Definition Math_max (x y z : num) : num :=
  match x, y, z with
  | Fin a, Fin b, Fin c => Fin (Qmax (Qmax a b) c)
  | _, _, _ => NaN
  end.

Definition Math_min (x y z : num) : num :=
  match x, y, z with
  | Fin a, Fin b, Fin c => Fin (Qmin (Qmin a b) c)
  | _, _, _ => NaN
  end.

(** [Math.round]: the nearest integer, halves towards plus infinity. *)
Definition Math_round (x : num) : num :=
  match x with
  | Fin a => Fin (inject_Z (Qfloor (a + (1 # 2))))
  | NaN => NaN
  end.

(** [n.toString(16)] for the values [Math.round] returns: an integer
    (lowercase digits, a leading minus sign when negative) or [NaN]. *)
Definition toString16 (x : num) : string :=
  match x with
  | Fin a =>
      match Qfloor a with
      | Z0 => "0"
      | Zpos p => HexString.Raw.of_pos p ""
      | Zneg p => String "-" (HexString.Raw.of_pos p "")
      end
  | NaN => "NaN"
  end%string.

(** ** Data model ([types.ts]) *)

Record RGB : Type := mkRGB { r : num; g : num; b : num }.
Record HSL : Type := mkHSL { h : num; s : num; l : num }.

Record PaletteColor : Type := mkPaletteColor {
  rgb : RGB;
  hsl : HSL;
  hex : string;
  population : Z;
  score : Z;
  isVibrant : bool;
  isDark : bool;
  isLight : bool
}.

Record Palette : Type := mkPalette {
  dominant : PaletteColor;
  vibrant : option PaletteColor;
  muted : option PaletteColor;
  darkVibrant : option PaletteColor;
  lightVibrant : option PaletteColor;
  allColors : list PaletteColor
}.

(** ** ColorSpaceConverter *)

Definition toHex (n : num) : string :=
  let hex := toString16 (Math_round n) in
  if Nat.eqb (String.length hex) 1 then String "0" hex else hex.

Definition rgbToHex (c : RGB) : string :=
  String "#" (toHex (r c) ++ toHex (g c) ++ toHex (b c))%string.

Definition rgbToHsl (c : RGB) : HSL :=
  let r := (r c / Fin 255)%num in
  let g := (g c / Fin 255)%num in
  let b := (b c / Fin 255)%num in
  let max := Math_max r g b in
  let min := Math_min r g b in
  let l := ((max + min) / Fin 2)%num in
  if (max !== min)%num then
    let d := (max - min)%num in
    let s := (if l >? Fin 0.5 then d / (Fin 2 - max - min)
              else d / (max + min))%num in
    let h := (if max === r then (g - b) / d + (if g <? b then Fin 6 else Fin 0)
              else if max === g then (b - r) / d + Fin 2
              else if max === b then (r - g) / d + Fin 4
              else Fin 0)%num in
    let h := (h / Fin 6)%num in
    mkHSL (h * Fin 360)%num s l
  else
    mkHSL (Fin 0 * Fin 360)%num (Fin 0) l.

Definition colorDistanceSq (c1 c2 : RGB) : num :=
  let sq (x : num) : num := (x * x)%num in
  (sq (r c1 - r c2) + sq (g c1 - g c2) + sq (b c1 - b c2))%num.

(** ** PixelQuantizer *)

(** Errors a call can end with instead of a value. *)
Inductive error : Type :=
| RangeError   (* typed-array constructor given a negative length *)
| TypeError.   (* property read on [undefined] *)

Inductive result (A : Type) : Type :=
| Ok (a : A)
| Throw (e : error).
Arguments Ok {A} a.
Arguments Throw {A} e.

(** [pixels[idx]] on the [Uint8Array]: [undefined] out of range. *)
Definition readByte (pixels : list Z) (idx : nat) : num :=
  match pixels !! idx with
  | Some v => Fin (inject_Z v)
  | None => NaN
  end.

(** The same read at an index computed in floating point, which a
    misbehaving random source could make negative. *)
Definition readByteZ (pixels : list Z) (idx : Z) : num :=
  if (idx <? 0)%Z then NaN else readByte pixels (Z.to_nat idx).

Definition pixelCount (pixels : list Z) : Q :=
  inject_Z (Z.of_nat (length pixels)) / 4.

(** The values [i] of a loop [for (let i = 0; i < pixelCount; i++)]. *)
Definition pixelIndices (pixels : list Z) : list nat :=
  seq 0 (Z.to_nat (Qceiling (pixelCount pixels))).

(** One turn of the sampling loop: the centroid pushed at step [i]. *)
Definition sampleCentroid (pixels : list Z) (rnd : nat -> Q) (i : nat) : RGB :=
  let idx := (Qfloor (rnd i * pixelCount pixels) * 4)%Z in
  mkRGB (readByteZ pixels idx)
        (readByteZ pixels (idx + 1))
        (readByteZ pixels (idx + 2)).

Definition initCentroids (pixels : list Z) (k : Z) (rnd : nat -> Q) : list RGB :=
  map (sampleCentroid pixels rnd) (seq 0 (Z.to_nat k)).

(** ToInt32, the conversion of a store into an [Int32Array]. *)
Definition wrap32 (z : Z) : Z :=
  ((z + 2147483648) mod 4294967296 - 2147483648)%Z.

(** [minDist]: [Infinity] until a first distance is recorded. *)
Inductive bound : Type :=
| Infinity
| Dist (q : Q).

(** [dist < minDist] for a distance that is a number. *)
Definition below (d : Q) (minDist : bound) : bool :=
  match minDist with
  | Infinity => true
  | Dist m => Qlt_bool d m
  end.

(** The scan [for (let c = 0; c < k; c++)] over the centroids from index
    [c] on ([centroids] has exactly [k] entries); returns the final
    [clusterIndex].  A [NaN] distance is below nothing. *)
Fixpoint scanCentroids (p : RGB) (centroids : list RGB) (c : nat)
    (minDist : bound) (clusterIndex : nat) : nat :=
  match centroids with
  | [] => clusterIndex
  | centroid :: rest =>
      match colorDistanceSq p centroid with
      | Fin dist =>
          if below dist minDist then scanCentroids p rest (S c) (Dist dist) c
          else scanCentroids p rest (S c) minDist clusterIndex
      | NaN => scanCentroids p rest (S c) minDist clusterIndex
      end
  end.

Definition nearestCentroid (p : RGB) (centroids : list RGB) : nat :=
  scanCentroids p centroids 0 Infinity 0.

(** The working state of [quantizeColors]: [centroids] ([k] entries),
    the [Float64Array] [clusterSums] ([k * 3] entries) and the
    [Int32Array] [clusterCounts] ([k] entries).  The [Uint8Array]
    [assignments] is written and never read, and is left out. *)
Record clusters : Type := mkClusters {
  centroids : list RGB;
  clusterSums : list num;
  clusterCounts : list Z
}.

(** [a[i] += v] on a [Float64Array]; [alter] leaves the list alone when [i]
    is out of range, as the dropped store does. *)
Definition addAt (a : list num) (i : nat) (v : num) : list num :=
  alter (fun x => (x + v)%num) i a.

(** [a[i]++] on an [Int32Array]. *)
Definition incrAt (a : list Z) (i : nat) : list Z :=
  alter (fun x => wrap32 (x + 1)) i a.

(** Body of the E-step loop for pixel [i], on the two accumulators. *)
Definition assignPixel (pixels : list Z) (centroids : list RGB)
    (acc : list num * list Z) (i : nat) : list num * list Z :=
  let idx := (i * 4)%nat in
  if (readByte pixels (idx + 3) <? Fin 128)%num then acc
  else
    let p := mkRGB (readByte pixels idx) (readByte pixels (idx + 1))
                   (readByte pixels (idx + 2)) in
    let clusterIndex := nearestCentroid p centroids in
    let '(clusterSums, clusterCounts) := acc in
    let clusterSums := addAt clusterSums (clusterIndex * 3) (r p) in
    let clusterSums := addAt clusterSums (clusterIndex * 3 + 1) (g p) in
    let clusterSums := addAt clusterSums (clusterIndex * 3 + 2) (b p) in
    (clusterSums, incrAt clusterCounts clusterIndex).

(** [a.fill(0)] *)
Definition fill0 {A} (zero : A) (a : list A) : list A :=
  replicate (length a) zero.

(** A read of the [Float64Array]. *)
Definition sumAt (clusterSums : list num) (i : nat) : num :=
  default NaN (clusterSums !! i).

(** The M-step.  [clusterCounts] and [centroids] both have [k] entries, so
    [clusterCounts[c]] is the entry zipped with [centroids[c]]. *)
Definition updateCentroids (centroids : list RGB) (clusterSums : list num)
    (clusterCounts : list Z) : list RGB :=
  imap (fun c '(centroid, count) =>
          if (count >? 0)%Z then
            let n := Fin (inject_Z count) in
            mkRGB (sumAt clusterSums (c * 3) / n)%num
                  (sumAt clusterSums (c * 3 + 1) / n)%num
                  (sumAt clusterSums (c * 3 + 2) / n)%num
          else centroid)
       (zip centroids clusterCounts).

(** One turn of the loop over [iter]. *)
Definition iteration (pixels : list Z) (st : clusters) : clusters :=
  let '(sums, counts) :=
    fold_left (assignPixel pixels (centroids st)) (pixelIndices pixels)
              (fill0 (Fin 0) (clusterSums st), fill0 0%Z (clusterCounts st)) in
  mkClusters (updateCentroids (centroids st) sums counts) sums counts.

Definition maxIterations : nat := 5.

(** The callback of [centroids.map]: [None] is [null]. *)
Definition toPaletteColor (c : RGB) (count : Z) : option PaletteColor :=
  if (count =? 0)%Z then None
  else
    let hsl := rgbToHsl c in
    let isVibrant := (s hsl >? Fin 0.5)%num && (l hsl >? Fin 0.3)%num
                     && (l hsl <? Fin 0.8)%num in
    let isDark := (l hsl <? Fin 0.4)%num in
    let isLight := (l hsl >? Fin 0.7)%num in
    Some (mkPaletteColor
            (mkRGB (Math_round (r c)) (Math_round (g c)) (Math_round (b c)))
            hsl (rgbToHex c) count count isVibrant isDark isLight).

(** [centroids.map(...).filter(c => c !== null)]: the surviving clusters
    in the order of their centroid indices. *)
Definition materialize (st : clusters) : list PaletteColor :=
  omap (fun '(c, count) => toPaletteColor c count)
       (zip (centroids st) (clusterCounts st)).

(** [.sort((a, b) => b.population - a.population)].  [Array.prototype.sort]
    is stable; with a comparator that is a total preorder its result is
    the one of insertion sort. *)
Definition byPopulation (a b : PaletteColor) : Z := (population b - population a)%Z.

Fixpoint insertSorted (x : PaletteColor) (xs : list PaletteColor) : list PaletteColor :=
  match xs with
  | [] => [x]
  | y :: ys => if (byPopulation x y <=? 0)%Z then x :: y :: ys
               else y :: insertSorted x ys
  end.

Definition sort (xs : list PaletteColor) : list PaletteColor :=
  foldr insertSorted [] xs.

(** The state before the first iteration.  The typed-array constructors
    throw a [RangeError] on a negative length. *)
Definition initClusters (pixels : list Z) (k : Z) (rnd : nat -> Q) : result clusters :=
  let centroids := initCentroids pixels k rnd in
  if (k * 3 <? 0)%Z then Throw RangeError      (* new Float64Array(k * 3) *)
  else if (k <? 0)%Z then Throw RangeError     (* new Int32Array(k) *)
  else Ok (mkClusters centroids
                      (replicate (Z.to_nat (k * 3)) (Fin 0))
                      (replicate (Z.to_nat k) 0%Z)).

Definition kMeans (pixels : list Z) (st : clusters) : clusters :=
  Nat.iter maxIterations (iteration pixels) st.

Definition quantizeColors (pixels : list Z) (k : Z) (rnd : nat -> Q)
    : result (list PaletteColor) :=
  match initClusters pixels k rnd with
  | Throw e => Throw e
  | Ok st => Ok (sort (materialize (kMeans pixels st)))
  end.

(** ** PaletteClassifier (step 6 of [processImage]) *)

(** The variables the [forEach] callback assigns. *)
Record roles : Type := mkRoles {
  bestVibrant : option PaletteColor;
  maxVibrantScore : num;
  darkVibrantR : option PaletteColor;
  lightVibrantR : option PaletteColor;
  mutedR : option PaletteColor
}.

(** [!role || c.population > role.population] *)
Definition morePopulous (c : PaletteColor) (role : option PaletteColor) : bool :=
  match role with
  | None => true
  | Some x => (population c >? population x)%Z
  end.

Definition fromZ (z : Z) : num := Fin (inject_Z z).

(** [c.population / (dominant.population || 1)] *)
Definition popRatio (dominant c : PaletteColor) : num :=
  (fromZ (population c)
   / fromZ (if (population dominant =? 0)%Z then 1 else population dominant))%num.

Definition vibrantScore (dominant c : PaletteColor) : num :=
  (s (hsl c) * (Fin 1 + popRatio dominant c * Fin 0.5))%num.

(** The callback of [colors.forEach]. *)
Definition visit (dominant : PaletteColor) (st : roles) (c : PaletteColor) : roles :=
  let sat := s (hsl c) in
  let lum := l (hsl c) in
  let '(bestVibrant, maxVibrantScore) :=
    if (sat >? Fin 0.3)%num && (lum >? Fin 0.3)%num && (lum <? Fin 0.8)%num then
      let score := vibrantScore dominant c in
      if (score >? maxVibrantScore st)%num then (Some c, score)
      else (bestVibrant st, maxVibrantScore st)
    else (bestVibrant st, maxVibrantScore st) in
  let darkVibrant :=
    if (lum <? Fin 0.4)%num && (sat >? Fin 0.2)%num then
      if morePopulous c (darkVibrantR st) then Some c else darkVibrantR st
    else darkVibrantR st in
  let lightVibrant :=
    if (lum >? Fin 0.7)%num && (sat >? Fin 0.2)%num then
      if morePopulous c (lightVibrantR st) then Some c else lightVibrantR st
    else lightVibrantR st in
  let muted :=
    if (sat <? Fin 0.3)%num && (lum >? Fin 0.2)%num && (lum <? Fin 0.8)%num then
      if morePopulous c (mutedR st) then Some c else mutedR st
    else mutedR st in
  mkRoles bestVibrant maxVibrantScore darkVibrant lightVibrant muted.

Definition noRoles : roles := mkRoles None (Fin (-1)) None None None.

(** The fallback [dominant.isVibrant ? dominant : (colors[1] || dominant)]. *)
Definition vibrantFallback (colors : list PaletteColor) (dominant : PaletteColor)
    : PaletteColor :=
  if isVibrant dominant then dominant else default dominant (colors !! 1%nat).

(** Role selection.  On the empty sequence [colors[0]] is [undefined],
    [forEach] visits nothing, [bestVibrant] is still [null] and the read
    [dominant.isVibrant] throws a [TypeError]. *)
Definition classify (colors : list PaletteColor) : result Palette :=
  match colors with
  | [] => Throw TypeError
  | dominant :: _ =>
      let st := fold_left (visit dominant) colors noRoles in
      let bestVibrant :=
        match bestVibrant st with
        | Some c => c
        | None => vibrantFallback colors dominant
        end in
      Ok (mkPalette dominant (Some bestVibrant) (mutedR st) (darkVibrantR st)
                    (lightVibrantR st) colors)
  end.

(** [processImage] from step 5 on: [pixelData], read from the Skia surface
    by the steps before, is the argument. *)
Definition processImage (pixelData : list Z) (rnd : nat -> Q) : result Palette :=
  match quantizeColors pixelData 8 rnd with
  | Throw e => Throw e
  | Ok colors => classify colors
  end.

(** ** The surface (step 3 of [processImage]) *)

(** [Math.min(a, b)] *)
Definition Math_min2 (x y : num) : num :=
  match x, y with
  | Fin a, Fin b => Fin (Qmin a b)
  | _, _ => NaN
  end.

Definition targetSize : num := Fin 128.

(** Step 3 of [processImage]: the size [w], [h] of the surface the image
    is drawn on, from [image.width()] and [image.height()], which are
    positive for a decoded image. *)
Definition surfaceSize (width height : num) : num * num :=
  let scale := Math_min2 (targetSize / width) (targetSize / height) in
  (Math_round (width * scale), Math_round (height * scale)).

(** ** Loading CanvasKit ([SkiaService.init]) *)

Inductive loadError : Type :=
| ScriptMissing   (* "CanvasKit script failed to load." *)
| KitFailure.     (* the rejection of [CanvasKitInit] *)

(** What a promise settles to. *)
Inductive settled : Type :=
| Resolved
| Rejected (e : loadError).

(** The fields of the service that [init] reads and writes; a promise is
    rendered by what it settles to. *)
Record SkiaService : Type := mkSkiaService {
  isLoaded : bool;
  loadPromise : option settled
}.

Definition newService : SkiaService := mkSkiaService false None.

(** [kitLoads]: the promise of [CanvasKitInit] resolves. *)
Definition initCanvasKit (kitLoads : bool) (svc : SkiaService) : SkiaService * settled :=
  if kitLoads then (mkSkiaService true (loadPromise svc), Resolved)
  else (svc, Rejected KitFailure).

(** The callback of [setInterval], fired [fuel] times at most, [checks]
    being the counter before the next firing.  [scriptDefined n] is the
    test [typeof CanvasKitInit !== 'undefined'] at the firing number [n].
    [None]: the interval is still set after [fuel] firings. *)
Fixpoint poll (scriptDefined : nat -> bool) (kitLoads : bool) (svc : SkiaService)
    (checks fuel : nat) : option (SkiaService * settled) :=
  match fuel with
  | O => None
  | S fuel =>
      let checks := S checks in
      if scriptDefined checks then Some (initCanvasKit kitLoads svc)
      else if (50 <? checks)%nat then Some (svc, Rejected ScriptMissing)
      else poll scriptDefined kitLoads svc checks fuel
  end.

(** [init]; [scriptDefined 0] is the test at the call.  The result is the
    service afterwards and what the returned promise settles to. *)
Definition init (scriptDefined : nat -> bool) (kitLoads : bool) (fuel : nat)
    (svc : SkiaService) : option (SkiaService * settled) :=
  if isLoaded svc then Some (svc, Resolved)
  else
    match loadPromise svc with
    | Some p => Some (svc, p)
    | None =>
        let outcome :=
          if scriptDefined 0%nat then Some (initCanvasKit kitLoads svc)
          else poll scriptDefined kitLoads svc 0 fuel in
        match outcome with
        | Some (svc', p) => Some (mkSkiaService (isLoaded svc') (Some p), p)
        | None => None
        end
    end.

(** * Vocabulary of the properties *)

Definition int32 (z : Z) : Prop := (-2147483648 <= z < 2147483648)%Z.

(** The test [pixels[idx + 3] < 128] for pixel [i]. *)
Definition skipped (pixels : list Z) (i : nat) : bool :=
  (readByte pixels (i * 4 + 3) <? Fin 128)%num.

(** The number of pixels of [ixs] that the E-step does not skip. *)
Definition visited (pixels : list Z) (ixs : list nat) : Z :=
  Z.of_nat (length (filter (fun i => skipped pixels i = false) ixs)).

Fixpoint sumZ (xs : list Z) : Z :=
  match xs with
  | [] => 0
  | x :: xs => x + sumZ xs
  end%Z.

(** [centroids] and [clusterCounts] have the same number of entries. *)
Definition shaped (st : clusters) : Prop :=
  length (centroids st) = length (clusterCounts st).

Definition populations (xs : list PaletteColor) : list Z := map population xs.

(** The flag [isVibrant] as [quantizeColors] sets it. *)
Definition vibrantFlag (x : PaletteColor) : bool :=
  (s (hsl x) >? Fin 0.5)%num && (l (hsl x) >? Fin 0.3)%num
  && (l (hsl x) <? Fin 0.8)%num.

Definition survivors (ps : list (RGB * Z)) : list PaletteColor :=
  omap (fun '(c, count) => toPaletteColor c count) ps.

(** Descending by population. *)
Definition descending (xs : list PaletteColor) : Prop :=
  StronglySorted (fun a b => (population a >= population b)%Z) xs.

(** The entries of population [p], in their order of appearance. *)
Definition withPopulation (p : Z) (xs : list PaletteColor) : list PaletteColor :=
  filter (fun x => population x = p) xs.

(** The number of pixels whose alpha channel is at least 128. *)
Fixpoint opaquePixels (pixels : list Z) : Z :=
  match pixels with
  | _ :: _ :: _ :: a :: rest =>
      ((if 128 <=? a then 1 else 0) + opaquePixels rest)%Z
  | _ => 0%Z
  end.

(** Every pixel has an alpha channel below 128 (and no byte is left over). *)
Fixpoint allTransparent (pixels : list Z) : bool :=
  match pixels with
  | [] => true
  | _ :: _ :: _ :: a :: rest => (a <? 128)%Z && allTransparent rest
  | _ => false
  end.

(** The channels scaled to [0, 1], their largest and their smallest. *)
Definition unitChannel (x : Q) : Q := x / 255.

Definition maxChannel (r g b : Q) : Q :=
  Qmax (Qmax (unitChannel r) (unitChannel g)) (unitChannel b).

Definition minChannel (r g b : Q) : Q :=
  Qmin (Qmin (unitChannel r) (unitChannel g)) (unitChannel b).

(** The arithmetic of [rgbToHsl] on channels that are numbers, the
    divisions being those of the field of rationals. *)
Definition hslCode (r g b : Q) : Q * Q * Q :=
  let r := r / 255 in
  let g := g / 255 in
  let b := b / 255 in
  let max := Qmax (Qmax r g) b in
  let min := Qmin (Qmin r g) b in
  let l := (max + min) / 2 in
  if negb (Qeq_bool max min) then
    let d := max - min in
    let s := if Qlt_bool 0.5 l then d / (2 - max - min) else d / (max + min) in
    let h := if Qeq_bool max r then (g - b) / d + (if Qlt_bool g b then 6 else 0)
             else if Qeq_bool max g then (b - r) / d + 2
             else if Qeq_bool max b then (r - g) / d + 4
             else 0 in
    (h / 6 * 360, s, l)
  else (0 * 360, 0, l).

(** [rgbToHsl] in the words of the specification: lightness, the
    achromatic case, the two formulas of the saturation, the hue from the
    channel that is the largest (red, then green, then blue), 6 added to a
    negative result before the scaling to degrees. *)
Definition hslSpec (r g b : Q) : Q * Q * Q :=
  let r := r / 255 in
  let g := g / 255 in
  let b := b / 255 in
  let max := Qmax (Qmax r g) b in
  let min := Qmin (Qmin r g) b in
  let lightness := (max + min) / 2 in
  if Qeq_bool max min then (0, 0, lightness)
  else
    let delta := max - min in
    let saturation :=
      if Qlt_bool 0.5 lightness then delta / (2 - max - min)
      else delta / (max + min) in
    let sextant :=
      if Qeq_bool max r then (g - b) / delta
      else if Qeq_bool max g then (b - r) / delta + 2
      else (r - g) / delta + 4 in
    let wrapped := if Qlt_bool sextant 0 then sextant + 6 else sextant in
    (wrapped * 60, saturation, lightness).

(** The eligibility test of the vibrant role as the callback writes it. *)
Definition vibrantTest (c : PaletteColor) : bool :=
  (s (hsl c) >? Fin 0.3)%num && (l (hsl c) >? Fin 0.3)%num
  && (l (hsl c) <? Fin 0.8)%num.

(** The part of [visit] that concerns [bestVibrant] and [maxVibrantScore]. *)
Definition visitVibrant (dominant : PaletteColor)
    (st : option PaletteColor * num) (c : PaletteColor) : option PaletteColor * num :=
  if vibrantTest c then
    if (vibrantScore dominant c >? snd st)%num then (Some c, vibrantScore dominant c)
    else st
  else st.

(** Numbers as rationals, for statements about colors whose fields are
    numbers; [NaN] reads as 0, which fails every test below as [NaN] does. *)
Definition toQ (x : num) : Q :=
  match x with
  | Fin q => q
  | NaN => 0
  end.

(** A buffer of [n] fully opaque pixels of the color [(r, g, b)]. *)
Fixpoint solid (n : nat) (r g b : Z) : list Z :=
  match n with
  | O => []
  | S n => r :: g :: b :: 255%Z :: solid n r g b
  end.

(** [hex] as the data model words it: two lowercase digits per channel. *)
Definition hexDigit (d : Z) : ascii :=
  nth (Z.to_nat d) (list_ascii_of_string "0123456789abcdef") "?"%char.

Definition hexByte (v : Z) : string :=
  String (hexDigit (v / 16)) (String (hexDigit (v mod 16)) EmptyString).

Definition hexEncoding (r g b : Z) : string :=
  String "#" (hexByte r ++ hexByte g ++ hexByte b)%string.

(** The pixel and the centroids of a solid image. *)
Definition colorOf (r g b : Z) : RGB := mkRGB (fromZ r) (fromZ g) (fromZ b).

Definition hasColor (r g b : Z) (c : RGB) : Prop :=
  exists qr qg qb,
    c = mkRGB (Fin qr) (Fin qg) (Fin qb) /\
    qr == inject_Z r /\ qg == inject_Z g /\ qb == inject_Z b.

(** What the E-step does with a pixel of the color [p] nearest to the
    centroid [c]. *)
Definition addPixel (p : RGB) (c : nat) (acc : list num * list Z) : list num * list Z :=
  (addAt (addAt (addAt (fst acc) (c * 3) (r p)) (c * 3 + 1) (g p)) (c * 3 + 2) (b p),
   incrAt (snd acc) c).

(** The state of a run on a solid image: every centroid has its color, and
    the arrays have their sizes; [cs] are the centroids after the first. *)
Definition solidState (r g b : Z) (cs : list RGB) (st : clusters) : Prop :=
  exists c0,
    centroids st = c0 :: cs /\ Forall (hasColor r g b) (c0 :: cs) /\
    length (clusterSums st) = (3 * S (length cs))%nat /\
    length (clusterCounts st) = S (length cs).

(** A pixel buffer as the data model has it: bytes, four per pixel. *)
Definition pixelBuffer (pixels : list Z) : Prop :=
  Forall (fun v => 0 <= v <= 255)%Z pixels /\ (length pixels mod 4 = 0)%nat.

(** A number that is a channel value: a rational in [0, 255]. *)
Definition channel (x : num) : Prop := exists q, x = Fin q /\ 0 <= q <= 255.

(** The accumulators while no count has wrapped: every count is in
    [0, m], and each sum is at most 255 times the count of its cluster. *)
Definition accBounded (m : Z) (acc : list num * list Z) : Prop :=
  forall c n, snd acc !! c = Some n ->
    (0 <= n <= m)%Z /\
    forall j, (j < 3)%nat ->
      exists q, fst acc !! (c * 3 + j)%nat = Some (Fin q) /\
                0 <= q <= 255 * inject_Z n.

(** What the scan knows after the centroids [seen]: nothing but [NaN]
    distances so far, or the first centroid of [seen] at the least distance. *)
Definition scanned (p : RGB) (seen : list RGB) (minDist : bound)
    (clusterIndex : nat) : Prop :=
  match minDist with
  | Infinity =>
      clusterIndex = 0%nat /\
      Forall (fun c => colorDistanceSq p c = NaN) seen
  | Dist m =>
      (exists c, seen !! clusterIndex = Some c /\ colorDistanceSq p c = Fin m) /\
      forall j c d, seen !! j = Some c -> colorDistanceSq p c = Fin d ->
                    m <= d /\ ((j < clusterIndex)%nat -> m < d)
  end.

(** The pixel [i] of the buffer, as the E-step reads it. *)
Definition pixelAt (pixels : list Z) (i : nat) : RGB :=
  mkRGB (readByte pixels (i * 4)) (readByte pixels (i * 4 + 1))
        (readByte pixels (i * 4 + 2)).

(** The colors of the opaque pixels of a buffer, in the order of the buffer. *)
Fixpoint opaqueColors (pixels : list Z) : list (Z * Z * Z) :=
  match pixels with
  | r :: g :: b :: a :: rest =>
      if (a <? 128)%Z then opaqueColors rest else (r, g, b) :: opaqueColors rest
  | _ => []
  end.

(** What the E-step does with an opaque pixel of the color [c]. *)
Definition addColor (cs : list RGB) (acc : list num * list Z) (c : Z * Z * Z)
    : list num * list Z :=
  let '(r, g, b) := c in
  addPixel (colorOf r g b) (nearestCentroid (colorOf r g b) cs) acc.

(** The tests of the three roles chosen by population. *)
Definition darkTest (c : PaletteColor) : bool :=
  (l (hsl c) <? Fin 0.4)%num && (s (hsl c) >? Fin 0.2)%num.

Definition lightTest (c : PaletteColor) : bool :=
  (l (hsl c) >? Fin 0.7)%num && (s (hsl c) >? Fin 0.2)%num.

Definition mutedTest (c : PaletteColor) : bool :=
  (s (hsl c) <? Fin 0.3)%num && (l (hsl c) >? Fin 0.2)%num
  && (l (hsl c) <? Fin 0.8)%num.

(** The part of [visit] that concerns one of these roles. *)
Definition visitRole (test : PaletteColor -> bool) (role : option PaletteColor)
    (c : PaletteColor) : option PaletteColor :=
  if test c then
    if morePopulous c role then Some c else role
  else role.

(** [role] is the first of the colors of [colors] that pass [test] with
    the largest population, or [None] when no color passes. *)
Definition mostPopulous (test : PaletteColor -> bool) (colors : list PaletteColor)
    (role : option PaletteColor) : Prop :=
  match role with
  | None => Forall (fun x => test x = false) colors
  | Some v =>
      exists before after,
        colors = before ++ v :: after /\ test v = true /\
        Forall (fun x => test x = true -> (population x < population v)%Z) before /\
        Forall (fun x => test x = true -> (population x <= population v)%Z) after
  end.

(** The value of a lowercase hexadecimal digit. *)
Definition hexValue (a : ascii) : Z :=
  let n := Z.of_nat (nat_of_ascii a) in
  if (n <=? 57)%Z then (n - 48)%Z else (n - 87)%Z.

(** A color a style sheet can take: integer channels in [0, 255], the
    [hex] their encoding, the hue in [0, 360), the saturation and the
    lightness in [0, 1]. *)
Definition validColor (c : PaletteColor) : Prop :=
  exists r g b : Z,
    (0 <= r <= 255)%Z /\ (0 <= g <= 255)%Z /\ (0 <= b <= 255)%Z /\
    rgb c = colorOf r g b /\ hex c = hexEncoding r g b /\
    exists hue sat lum,
      hsl c = mkHSL (Fin hue) (Fin sat) (Fin lum) /\
      0 <= hue < 360 /\ 0 <= sat <= 1 /\ 0 <= lum <= 1.

(** * The program on doubles *)

(** The functions whose results depend on the rounding of the arithmetic,
    once more, a [number] being a double of the processor ([float]) and
    every operation the one of IEEE 754 binary64. *)

#[local] Set Warnings "-inexact-float".

Module Binary64.
Local Open Scope float_scope.

(** An integer of at most 63 bits as a number. *)
Definition ofZ (z : Z) : float :=
  match z with
  | Zneg p => - of_uint63 (Uint63.of_Z (Zpos p))
  | _ => of_uint63 (Uint63.of_Z z)
  end.

(** [Math.max(a, b)] and [Math.min(a, b)]: the larger and the smaller,
    [+0] being above [-0], and [NaN] as soon as one argument is (nothing
    then is below, above or equal). *)
Definition Math_max2 (x y : float) : float :=
  if x <? y then y
  else if y <? x then x
  else if x =? y then (if x =? 0 then x + y else x)
  else nan.

Definition Math_min2 (x y : float) : float :=
  if x <? y then x
  else if y <? x then y
  else if x =? y then (if x =? 0 then - (- x + - y) else x)
  else nan.

Definition Math_max (x y z : float) : float := Math_max2 (Math_max2 x y) z.
Definition Math_min (x y z : float) : float := Math_min2 (Math_min2 x y) z.

Record RGB : Type := mkRGB { r : float; g : float; b : float }.
Record HSL : Type := mkHSL { h : float; s : float; l : float }.

Definition rgbToHsl (c : RGB) : HSL :=
  let r := r c / 255 in
  let g := g c / 255 in
  let b := b c / 255 in
  let max := Math_max r g b in
  let min := Math_min r g b in
  let l := (max + min) / 2 in
  if negb (max =? min) then
    let d := max - min in
    let s := if 0.5 <? l then d / (2 - max - min) else d / (max + min) in
    let h := if max =? r then (g - b) / d + (if g <? b then 6 else 0)
             else if max =? g then (b - r) / d + 2
             else if max =? b then (r - g) / d + 4
             else 0 in
    let h := h / 6 in
    mkHSL (h * 360) s l
  else
    mkHSL (0 * 360) 0 l.

Record PaletteColor : Type := mkPaletteColor {
  rgb : RGB;
  hsl : HSL;
  hex : string;
  population : float;
  score : float;
  isVibrant : bool;
  isDark : bool;
  isLight : bool
}.

Record Palette : Type := mkPalette {
  dominant : PaletteColor;
  vibrant : option PaletteColor;
  muted : option PaletteColor;
  darkVibrant : option PaletteColor;
  lightVibrant : option PaletteColor;
  allColors : list PaletteColor
}.

(** The variables the [forEach] callback assigns. *)
Record roles : Type := mkRoles {
  bestVibrant : option PaletteColor;
  maxVibrantScore : float;
  darkVibrantR : option PaletteColor;
  lightVibrantR : option PaletteColor;
  mutedR : option PaletteColor
}.

(** [x || y] on numbers: [NaN], [0] and [-0] are falsy. *)
Definition orElse (x y : float) : float :=
  if is_nan x || (x =? 0) then y else x.

(** [!role || c.population > role.population] *)
Definition morePopulous (c : PaletteColor) (role : option PaletteColor) : bool :=
  match role with
  | None => true
  | Some x => population x <? population c
  end.

(** [c.population / (dominant.population || 1)] *)
Definition popRatio (dominant c : PaletteColor) : float :=
  population c / orElse (population dominant) 1.

Definition vibrantScore (dominant c : PaletteColor) : float :=
  s (hsl c) * (1 + popRatio dominant c * 0.5).

(** The callback of [colors.forEach]. *)
Definition visit (dominant : PaletteColor) (st : roles) (c : PaletteColor) : roles :=
  let sat := s (hsl c) in
  let lum := l (hsl c) in
  let '(bestVibrant, maxVibrantScore) :=
    if (0.3 <? sat) && (0.3 <? lum) && (lum <? 0.8) then
      let score := vibrantScore dominant c in
      if maxVibrantScore st <? score then (Some c, score)
      else (bestVibrant st, maxVibrantScore st)
    else (bestVibrant st, maxVibrantScore st) in
  let darkVibrant :=
    if (lum <? 0.4) && (0.2 <? sat) then
      if morePopulous c (darkVibrantR st) then Some c else darkVibrantR st
    else darkVibrantR st in
  let lightVibrant :=
    if (0.7 <? lum) && (0.2 <? sat) then
      if morePopulous c (lightVibrantR st) then Some c else lightVibrantR st
    else lightVibrantR st in
  let muted :=
    if (sat <? 0.3) && (0.2 <? lum) && (lum <? 0.8) then
      if morePopulous c (mutedR st) then Some c else mutedR st
    else mutedR st in
  mkRoles bestVibrant maxVibrantScore darkVibrant lightVibrant muted.

Definition noRoles : roles := mkRoles None (-1) None None None.

(** The fallback [dominant.isVibrant ? dominant : (colors[1] || dominant)]. *)
Definition vibrantFallback (colors : list PaletteColor) (dominant : PaletteColor)
    : PaletteColor :=
  if isVibrant dominant then dominant else default dominant (colors !! 1%nat).

Definition classify (colors : list PaletteColor) : result Palette :=
  match colors with
  | [] => Throw TypeError
  | dominant :: _ =>
      let st := fold_left (visit dominant) colors noRoles in
      let bestVibrant :=
        match bestVibrant st with
        | Some c => c
        | None => vibrantFallback colors dominant
        end in
      Ok (mkPalette dominant (Some bestVibrant) (mutedR st) (darkVibrantR st)
                    (lightVibrantR st) colors)
  end.

(** ** Vocabulary of the properties on doubles *)

(** The color of three integer channels. *)
Definition colorOf (r g b : Z) : RGB := mkRGB (ofZ r) (ofZ g) (ofZ b).

(** The largest and the smallest of the channels scaled to [0, 1]. *)
Definition maxChannel (c : RGB) : float := Math_max (r c / 255) (g c / 255) (b c / 255).
Definition minChannel (c : RGB) : float := Math_min (r c / 255) (g c / 255) (b c / 255).

(** [rgbToHsl] in the words of the specification, each operation being the
    one of doubles and the scaling to degrees the one of the code. *)
Definition hslSpec (c : RGB) : HSL :=
  let r := r c / 255 in
  let g := g c / 255 in
  let b := b c / 255 in
  let max := Math_max r g b in
  let min := Math_min r g b in
  let lightness := (max + min) / 2 in
  if max =? min then mkHSL 0 0 lightness
  else
    let delta := max - min in
    let saturation :=
      if 0.5 <? lightness then delta / (2 - max - min)
      else delta / (max + min) in
    let sextant :=
      if max =? r then (g - b) / delta
      else if max =? g then (b - r) / delta + 2
      else (r - g) / delta + 4 in
    let wrapped := if sextant <? 0 then sextant + 6 else sextant in
    mkHSL (wrapped / 6 * 360) saturation lightness.

(** The hue of the code and the hue of the specification when the largest
    scaled channel [max] and the smallest [min] differ. *)
Definition hueCode (r g b max min : float) : float :=
  let d := max - min in
  (if max =? r then (g - b) / d + (if g <? b then 6 else 0)
   else if max =? g then (b - r) / d + 2
   else if max =? b then (r - g) / d + 4
   else 0) / 6 * 360.

Definition hueSpec (r g b max min : float) : float :=
  let delta := max - min in
  let sextant :=
    if max =? r then (g - b) / delta
    else if max =? g then (b - r) / delta + 2
    else (r - g) / delta + 4 in
  (if sextant <? 0 then sextant + 6 else sextant) / 6 * 360.

(** What is checked of a color of bytes, given with its scaled channels:
    the ranges, the achromatic case, the agreement of the two hues, and the
    sector of the hue. *)
Definition hslCheck (p q t : float * float) : bool :=
  let '(r0, r) := p in
  let '(g0, g) := q in
  let '(b0, b) := t in
  let max := Math_max r g b in
  let min := Math_min r g b in
  let l := (max + min) / 2 in
  (0 <=? l) && (l <=? 1)
  && (if max =? min then negb (r0 <? g0) && negb (r0 <? b0)
      else
        let d := max - min in
        let s := if 0.5 <? l then d / (2 - max - min) else d / (max + min) in
        let hue := hueCode r g b max min in
        (0 <=? hue) && (hue <? 360) && (0 <? s) && (s <=? 1)
        && Leibniz.eqb hue (hueSpec r g b max min)
        && (if (g0 <=? r0) && (b0 <=? r0)
            then (hue <=? 60) || (300 <=? hue) else true)
        && (if (r0 <? g0) && (b0 <=? g0) then (60 <=? hue) && (hue <=? 180) else true)
        && (if (r0 <? b0) && (g0 <? b0) then (180 <=? hue) && (hue <=? 300) else true)).

(** The integers from 0 to 255, and the same as doubles with their
    scaled values. *)
Definition byteValues : list Z := map Z.of_nat (seq 0 256).
Definition byteNumbers : list (float * float) :=
  map (fun k => (ofZ k, ofZ k / 255)) byteValues.

(** The test of the vibrant role as the callback writes it. *)
Definition vibrantTest (c : PaletteColor) : bool :=
  (0.3 <? s (hsl c)) && (0.3 <? l (hsl c)) && (l (hsl c) <? 0.8).

(** The part of [visit] that concerns [bestVibrant] and [maxVibrantScore]. *)
Definition visitVibrant (dominant : PaletteColor)
    (st : option PaletteColor * float) (c : PaletteColor)
    : option PaletteColor * float :=
  if vibrantTest c then
    if snd st <? vibrantScore dominant c then (Some c, vibrantScore dominant c)
    else st
  else st.

(** Eligibility for the vibrant role in the words of the specification:
    [0.3 < saturation <= 1] and [0.3 < lightness < 0.8]. *)
Definition vibrantEligible (c : PaletteColor) : Prop :=
  (0.3 <? s (hsl c)) = true /\ (s (hsl c) <=? 1) = true /\
  (0.3 <? l (hsl c)) = true /\ (l (hsl c) <? 0.8) = true.

(** A color of the data model: its population is a number from 1 on (not
    [Infinity]) and its saturation is not above 1. *)
Definition modelColor (c : PaletteColor) : Prop :=
  (1 <=? population c) = true /\ (population c <? infinity) = true /\
  (1 <? s (hsl c)) = false.

(** What [bestVibrant] and [maxVibrantScore] hold once the colors [seen]
    have been visited; the scores are the doubles the callback computes. *)
Definition vibrantInv (dominant : PaletteColor) (seen : list PaletteColor)
    (st : option PaletteColor * float) : Prop :=
  let score := vibrantScore dominant in
  match fst st with
  | None => snd st = -1 /\ Forall (fun x => ~ vibrantEligible x) seen
  | Some v =>
      snd st = score v /\
      exists before after,
        seen = before ++ v :: after /\ vibrantEligible v /\
        Forall (fun x => vibrantEligible x -> (score x <? score v) = true) before /\
        Forall (fun x => vibrantEligible x -> (score x <=? score v) = true) after
  end.

(** Two clusters of one pixel each, as [quantizeColors] returns them for
    the pixels (125, 50, 50) and (110, 44, 44): their saturations differ
    in the last place and their scores are the same double. *)
Definition exampleFirst : PaletteColor :=
  mkPaletteColor (colorOf 125 50 50) (rgbToHsl (colorOf 125 50 50)) "#7d3232"
                 1 1 false true false.
Definition exampleSecond : PaletteColor :=
  mkPaletteColor (colorOf 110 44 44) (rgbToHsl (colorOf 110 44 44)) "#6e2c2c"
                 1 1 false true false.

End Binary64.

(** Doubles through their specification ([Prim2SF]): a number is not
    [NaN]; [signedAs sx x] is a zero, an infinity or a finite number of the
    sign [sx]; [positive64 x] is a finite number above zero. *)
Definition number (x : float) : Prop := Prim2SF x <> S754_nan.

Definition signedAs (sx : bool) (x : spec_float) : Prop :=
  match x with
  | S754_zero s | S754_infinity s | S754_finite s _ _ => s = sx
  | S754_nan => False
  end.

Definition positive64 (x : spec_float) : Prop :=
  match x with
  | S754_finite false _ _ => True
  | _ => False
  end.

(** * Properties *)

(** ** Typed arrays and loop bounds *)

Lemma wrap32_int32 (z : Z) : int32 (wrap32 z).
Proof.
  unfold int32, wrap32.
  pose proof (Z.mod_pos_bound (z + 2147483648) 4294967296). lia.
Qed.

Lemma wrap32_id (z : Z) : int32 z -> wrap32 z = z.
Proof.
  unfold int32, wrap32. intros Hz.
  rewrite Z.mod_small by lia. lia.
Qed.

Lemma wrap32_le (z : Z) : (-2147483648 <= z)%Z -> (wrap32 z <= z)%Z.
Proof.
  unfold wrap32. intros Hz.
  pose proof (Z.mod_le (z + 2147483648) 4294967296). lia.
Qed.

Lemma wrap32_succ (z : Z) : wrap32 (wrap32 z + 1) = wrap32 (z + 1).
Proof.
  unfold wrap32.
  replace ((z + 2147483648) mod 4294967296 - 2147483648 + 1 + 2147483648)%Z
    with ((z + 2147483648) mod 4294967296 + 1)%Z by lia.
  replace (z + 1 + 2147483648)%Z with ((z + 2147483648) + 1)%Z by lia.
  rewrite Zplus_mod_idemp_l. reflexivity.
Qed.

(** The number of turns of a loop [for (i = 0; i < pixelCount; i++)]. *)
Lemma numPixels (pixels : list Z) :
  Z.to_nat (Qceiling (pixelCount pixels)) = ((length pixels + 3) / 4)%nat.
Proof.
  unfold pixelCount, Qceiling, Qfloor, Qdiv, Qmult, Qinv, Qopp, inject_Z.
  simpl. set (n := length pixels).
  replace (Z.pos (1 * 4)) with 4%Z by reflexivity.
  rewrite Z.mul_1_r.
  assert (H : (- (- Z.of_nat n / 4) = Z.of_nat ((n + 3) / 4))%Z).
  { rewrite Nat2Z.inj_div, Nat2Z.inj_add. simpl (Z.of_nat 3). simpl (Z.of_nat 4).
    pose proof (Z.div_mod (Z.of_nat n) 4 ltac:(lia)) as E1.
    pose proof (Z.mod_pos_bound (Z.of_nat n) 4 ltac:(lia)) as B1.
    pose proof (Z.div_mod (- Z.of_nat n) 4 ltac:(lia)) as E2.
    pose proof (Z.mod_pos_bound (- Z.of_nat n) 4 ltac:(lia)) as B2.
    pose proof (Z.div_mod (Z.of_nat n + 3) 4 ltac:(lia)) as E3.
    pose proof (Z.mod_pos_bound (Z.of_nat n + 3) 4 ltac:(lia)) as B3.
    lia. }
  rewrite H. apply Nat2Z.id.
Qed.

Lemma pixelIndices_seq (pixels : list Z) :
  pixelIndices pixels = seq 0 ((length pixels + 3) / 4).
Proof. unfold pixelIndices. now rewrite numPixels. Qed.

Lemma length_initCentroids pixels k rnd :
  length (initCentroids pixels k rnd) = Z.to_nat k.
Proof. unfold initCentroids. now rewrite length_map, length_seq. Qed.

Lemma length_incrAt a i : length (incrAt a i) = length a.
Proof. apply length_alter. Qed.

Lemma length_addAt a i v : length (addAt a i v) = length a.
Proof. apply length_alter. Qed.

(** ** The E-step *)

Lemma assignPixel_skipped pixels cs acc i :
  skipped pixels i = true -> assignPixel pixels cs acc i = acc.
Proof. unfold skipped, assignPixel. now intros ->. Qed.

Lemma assignPixel_counts pixels cs acc i :
  skipped pixels i = false ->
  exists c, snd (assignPixel pixels cs acc i) = incrAt (snd acc) c.
Proof.
  unfold skipped, assignPixel. intros ->. destruct acc as [sums counts].
  eexists. reflexivity.
Qed.

Lemma length_assignPixel pixels cs acc i :
  length (fst (assignPixel pixels cs acc i)) = length (fst acc) /\
  length (snd (assignPixel pixels cs acc i)) = length (snd acc).
Proof.
  unfold assignPixel. destruct (_ <? _)%num; [easy|].
  destruct acc as [sums counts]. simpl.
  now rewrite !length_addAt, length_incrAt.
Qed.

Lemma length_eStep pixels cs ixs acc :
  length (fst (fold_left (assignPixel pixels cs) ixs acc)) = length (fst acc) /\
  length (snd (fold_left (assignPixel pixels cs) ixs acc)) = length (snd acc).
Proof.
  revert acc. induction ixs as [|i ixs IH]; intros acc; simpl; [easy|].
  destruct (IH (assignPixel pixels cs acc i)) as [-> ->].
  apply length_assignPixel.
Qed.

Lemma sumZ_incrAt counts c :
  Forall int32 counts ->
  Forall int32 (incrAt counts c) /\ (sumZ (incrAt counts c) <= sumZ counts + 1)%Z.
Proof.
  unfold incrAt. revert c. induction counts as [|x xs IH]; intros c Hall; simpl.
  - split; [constructor | lia].
  - inversion Hall as [|? ? Hx Hxs]; subst. destruct c as [|c]; simpl.
    + split; [constructor; [apply wrap32_int32 | easy]|].
      unfold int32 in Hx.
      assert (H : (wrap32 (x + 1) <= x + 1)%Z) by (apply wrap32_le; lia). lia.
    + destruct (IH c Hxs) as [H1 H2]. split; [now constructor |].
      unfold alter in H2. lia.
Qed.

(** Whatever the centroids are, the counts of an E-step stay 32-bit
    integers and add up to at most the number of pixels visited. *)
Lemma eStep_sum pixels cs ixs acc m :
  Forall int32 (snd acc) -> (sumZ (snd acc) <= m)%Z ->
  let acc' := fold_left (assignPixel pixels cs) ixs acc in
  Forall int32 (snd acc') /\ (sumZ (snd acc') <= m + visited pixels ixs)%Z.
Proof.
  revert acc m. induction ixs as [|i ixs IH]; intros acc m Hall Hsum; simpl.
  - unfold visited. simpl. split; [easy | lia].
  - unfold visited. rewrite filter_cons.
    destruct (skipped pixels i) eqn:Hs.
    + rewrite assignPixel_skipped by easy.
      destruct (decide (true = false)); [discriminate|].
      now apply IH.
    + destruct (decide (false = false)); [|easy].
      destruct (assignPixel_counts pixels cs acc i Hs) as [c Hc].
      destruct (sumZ_incrAt (snd acc) c Hall) as [H1 H2].
      destruct (IH (assignPixel pixels cs acc i) (m + 1)%Z) as [H3 H4].
      * now rewrite Hc.
      * rewrite Hc. lia.
      * split; [easy|]. unfold visited in H4. simpl length.
        rewrite Nat2Z.inj_succ. lia.
Qed.

(** ** Iterations *)

Lemma length_fill0 {A} (z : A) (a : list A) : length (fill0 z a) = length a.
Proof. unfold fill0. apply length_replicate. Qed.

Lemma length_updateCentroids cs sums counts :
  length (updateCentroids cs sums counts) = (length cs `min` length counts)%nat.
Proof. unfold updateCentroids. now rewrite length_imap, length_zip. Qed.

Lemma iteration_fold pixels st :
  iteration pixels st =
  let acc := fold_left (assignPixel pixels (centroids st)) (pixelIndices pixels)
               (fill0 (Fin 0) (clusterSums st), fill0 0%Z (clusterCounts st)) in
  mkClusters (updateCentroids (centroids st) (fst acc) (snd acc)) (fst acc) (snd acc).
Proof. unfold iteration. now destruct (fold_left _ _ _). Qed.

Lemma iteration_shaped pixels st :
  shaped st ->
  shaped (iteration pixels st) /\
  length (centroids (iteration pixels st)) = length (centroids st).
Proof.
  unfold shaped. intros Hs. rewrite iteration_fold. simpl.
  rewrite length_updateCentroids.
  destruct (length_eStep pixels (centroids st) (pixelIndices pixels)
              (fill0 (Fin 0) (clusterSums st), fill0 0%Z (clusterCounts st)))
    as [_ ->].
  simpl. rewrite length_fill0. lia.
Qed.

Lemma iter_shaped pixels st n :
  shaped st ->
  shaped (Nat.iter n (iteration pixels) st) /\
  length (centroids (Nat.iter n (iteration pixels) st)) = length (centroids st).
Proof.
  intros Hs. induction n as [|n [IH1 IH2]]; simpl; [easy|].
  destruct (iteration_shaped pixels _ IH1) as [H1 H2]. split; [easy | congruence].
Qed.

Lemma kMeans_last pixels st :
  kMeans pixels st = iteration pixels (Nat.iter 4 (iteration pixels) st).
Proof. reflexivity. Qed.

Lemma Forall_int32_zeros n : Forall int32 (replicate n 0%Z).
Proof. apply Forall_replicate. unfold int32. lia. Qed.

Lemma sumZ_zeros n : sumZ (replicate n 0%Z) = 0%Z.
Proof. induction n; simpl; lia. Qed.

(** The counts left by an iteration add up to at most the number of
    pixels that are not skipped. *)
Lemma iteration_sum pixels st :
  (sumZ (clusterCounts (iteration pixels st))
   <= visited pixels (pixelIndices pixels))%Z.
Proof.
  rewrite iteration_fold. simpl.
  destruct (eStep_sum pixels (centroids st) (pixelIndices pixels)
              (fill0 (Fin 0) (clusterSums st), fill0 0%Z (clusterCounts st)) 0)
    as [_ H].
  - apply Forall_int32_zeros.
  - simpl. unfold fill0. rewrite sumZ_zeros. lia.
  - simpl in H. lia.
Qed.

Lemma initClusters_Ok pixels k rnd :
  (0 <= k)%Z ->
  exists st, initClusters pixels k rnd = Ok st /\ shaped st /\
             centroids st = initCentroids pixels k rnd /\
             clusterSums st = replicate (Z.to_nat (k * 3)) (Fin 0) /\
             clusterCounts st = replicate (Z.to_nat k) 0%Z.
Proof.
  intros Hk. unfold initClusters.
  destruct (Z.ltb_spec (k * 3) 0); [lia|].
  destruct (Z.ltb_spec k 0); [lia|].
  eexists. split; [reflexivity|]. unfold shaped. simpl.
  now rewrite length_initCentroids, length_replicate.
Qed.

Lemma initClusters_negative pixels k rnd :
  (k < 0)%Z -> initClusters pixels k rnd = Throw RangeError.
Proof.
  intros Hk. unfold initClusters.
  destruct (Z.ltb_spec (k * 3) 0); [easy | lia].
Qed.

Lemma quantizeColors_Ok pixels k rnd :
  (0 <= k)%Z ->
  exists st, initClusters pixels k rnd = Ok st /\ shaped st /\
             length (centroids st) = Z.to_nat k /\
             quantizeColors pixels k rnd = Ok (sort (materialize (kMeans pixels st))).
Proof.
  intros Hk. destruct (initClusters_Ok pixels k rnd Hk) as (st & E & Hs & Hc & _).
  exists st. unfold quantizeColors. rewrite E, Hc, length_initCentroids. easy.
Qed.

(** ** Materialisation *)

Lemma toPaletteColor_Some c count x :
  toPaletteColor c count = Some x ->
  count <> 0%Z /\ population x = count /\ hsl x = rgbToHsl c /\
  hex x = rgbToHex c /\
  isVibrant x = ((s (hsl x) >? Fin 0.5)%num && (l (hsl x) >? Fin 0.3)%num
                 && (l (hsl x) <? Fin 0.8)%num).
Proof.
  unfold toPaletteColor. destruct (Z.eqb_spec count 0); [discriminate|].
  intros [= <-]. simpl. easy.
Qed.

Lemma toPaletteColor_zero c : toPaletteColor c 0 = None.
Proof. reflexivity. Qed.

Lemma survivors_cons c n ps :
  survivors ((c, n) :: ps) =
  match toPaletteColor c n with
  | Some x => x :: survivors ps
  | None => survivors ps
  end.
Proof. reflexivity. Qed.

Lemma survivors_spec ps :
  (length (survivors ps) <= length ps)%nat /\
  Forall (fun x => population x <> 0%Z /\ population x ∈ ps.*2 /\
                   isVibrant x = vibrantFlag x) (survivors ps) /\
  sumZ (populations (survivors ps)) = sumZ ps.*2.
Proof.
  induction ps as [|[c n] ps (H1 & H2 & H3)].
  - split; [easy | split; [constructor | easy]].
  - rewrite survivors_cons.
    assert (H2' : Forall (fun x => population x <> 0%Z /\
                                   population x ∈ ((c, n) :: ps).*2 /\
                                   isVibrant x = vibrantFlag x) (survivors ps)).
    { eapply Forall_impl; [exact H2|]. intros x (Ha & Hb & Hc).
      split; [easy | split; [now right | easy]]. }
    destruct (toPaletteColor c n) as [x|] eqn:E.
    + destruct (toPaletteColor_Some _ _ _ E) as (Hn & Hp & _ & _ & Hv).
      split; [simpl; lia | split].
      * constructor; [|easy]. rewrite Hp.
        split; [easy | split; [now left | easy]].
      * cbn [populations map fmap list_fmap sumZ fst snd].
        fold (populations (survivors ps)). now rewrite Hp, H3.
    + split; [simpl; lia | split; [easy|]].
      unfold toPaletteColor in E. destruct (Z.eqb_spec n 0); [|discriminate].
      subst n. cbn [fmap list_fmap sumZ snd]. now rewrite H3.
Qed.

Lemma materialize_survivors st :
  materialize st = survivors (zip (centroids st) (clusterCounts st)).
Proof. reflexivity. Qed.

(** ** Sorting *)

Lemma insertSorted_perm x xs : insertSorted x xs ≡ₚ x :: xs.
Proof.
  induction xs as [|y ys IH]; simpl; [easy|].
  destruct (_ <=? _)%Z; [easy|]. rewrite IH. apply Permutation_swap.
Qed.

Lemma sort_perm xs : sort xs ≡ₚ xs.
Proof.
  induction xs as [|x xs IH]; simpl; [easy|].
  rewrite insertSorted_perm. now rewrite IH.
Qed.

Lemma sumZ_perm xs ys : xs ≡ₚ ys -> sumZ xs = sumZ ys.
Proof. induction 1; simpl; lia. Qed.

Lemma insertSorted_descending x xs :
  descending xs -> descending (insertSorted x xs).
Proof.
  unfold descending. induction 1 as [|y ys Hys IH Hy]; simpl.
  - repeat constructor.
  - unfold byPopulation. destruct (Z.leb_spec (population y - population x) 0).
    + constructor; [now constructor|].
      constructor; [lia|]. eapply Forall_impl; [exact Hy|]. simpl. intros; lia.
    + constructor; [easy|].
      rewrite insertSorted_perm. constructor; [lia | easy].
Qed.

Lemma sort_descending xs : descending (sort xs).
Proof.
  induction xs as [|x xs IH]; simpl; [constructor|].
  now apply insertSorted_descending.
Qed.

Lemma insertSorted_stable p x xs :
  descending xs ->
  withPopulation p (insertSorted x xs) = withPopulation p (x :: xs).
Proof.
  unfold descending, withPopulation.
  induction 1 as [|y ys Hys IH Hy]; simpl; [easy|].
  unfold byPopulation. destruct (Z.leb_spec (population y - population x) 0); [easy|].
  rewrite !filter_cons in *.
  destruct (decide (population y = p)) as [Ey|Ny];
    destruct (decide (population x = p)) as [Ex|Nx]; try lia; now rewrite IH.
Qed.

Lemma sort_stable p xs : withPopulation p (sort xs) = withPopulation p xs.
Proof.
  induction xs as [|x xs IH]; simpl; [easy|].
  rewrite insertSorted_stable by apply sort_descending.
  unfold withPopulation in *. rewrite !filter_cons, IH. easy.
Qed.

(** ** Pixel buffers, four bytes at a time *)

Lemma list4_ind (P : list Z -> Prop) :
  P [] -> (forall a, P [a]) -> (forall a b, P [a; b]) ->
  (forall a b c, P [a; b; c]) ->
  (forall a b c d rest, P rest -> P (a :: b :: c :: d :: rest)) ->
  forall pixels, P pixels.
Proof.
  intros H0 H1 H2 H3 H4 pixels.
  assert (H : forall n l, (length l <= n)%nat -> P l).
  { induction n as [|n IH]; intros [|a [|b [|c [|d rest]]]] Hl; simpl in Hl;
      try easy; try lia.
    apply H4, IH. lia. }
  now apply (H (length pixels)).
Qed.

Lemma Qlt_bool_inject (a c : Z) : Qlt_bool (inject_Z a) (inject_Z c) = (a <? c)%Z.
Proof.
  unfold Qlt_bool, Qle_bool, inject_Z. simpl. rewrite !Z.mul_1_r.
  rewrite Z.ltb_antisym. reflexivity.
Qed.

Lemma skipped_head a c d e rest :
  skipped (a :: c :: d :: e :: rest) 0 = (e <? 128)%Z.
Proof. unfold skipped, readByte. simpl. apply (Qlt_bool_inject e 128). Qed.

Lemma skipped_shift a c d e rest i :
  skipped (a :: c :: d :: e :: rest) (S i) = skipped rest i.
Proof. reflexivity. Qed.

Lemma visited_cons pixels i ixs :
  visited pixels (i :: ixs) =
  ((if skipped pixels i then 0 else 1) + visited pixels ixs)%Z.
Proof.
  unfold visited. rewrite filter_cons.
  destruct (skipped pixels i); simpl.
  - destruct (decide (true = false)); [discriminate | lia].
  - destruct (decide (false = false)); [|easy]. simpl length. lia.
Qed.

Lemma visited_shift a c d e rest ixs :
  visited (a :: c :: d :: e :: rest) (map S ixs) = visited rest ixs.
Proof.
  induction ixs as [|i ixs IH]; [easy|].
  cbn [map]. now rewrite !visited_cons, skipped_shift, IH.
Qed.

Lemma pixelIndices_cons4 a c d e rest :
  pixelIndices (a :: c :: d :: e :: rest) = 0%nat :: map S (pixelIndices rest).
Proof.
  rewrite !pixelIndices_seq. cbn [length].
  replace (S (S (S (S (length rest)))) + 3)%nat with (1 * 4 + (length rest + 3))%nat by lia.
  rewrite Nat.div_add_l by lia. simpl. now rewrite seq_shift.
Qed.

Lemma visited_opaque pixels :
  (length pixels mod 4 = 0)%nat ->
  visited pixels (pixelIndices pixels) = opaquePixels pixels.
Proof.
  induction pixels as [| | | |a c d e rest IH] using list4_ind; try easy.
  intros Hl. rewrite pixelIndices_cons4, visited_cons, visited_shift, skipped_head.
  rewrite IH.
  - cbn [opaquePixels]. rewrite Z.ltb_antisym. now destruct (128 <=? e)%Z.
  - cbn [length] in Hl.
    replace (S (S (S (S (length rest))))) with (length rest + 1 * 4)%nat in Hl by lia.
    now rewrite Nat.Div0.mod_add in Hl.
Qed.

Lemma allTransparent_skipped pixels :
  allTransparent pixels = true ->
  Forall (fun i => skipped pixels i = true) (pixelIndices pixels).
Proof.
  induction pixels as [| | | |a c d e rest IH] using list4_ind; try easy.
  cbn [allTransparent]. intros [He Hr]%andb_prop.
  rewrite pixelIndices_cons4. constructor.
  - now rewrite skipped_head.
  - rewrite Forall_map.
    eapply Forall_impl; [apply IH, Hr|].
      intros i Hi. now rewrite skipped_shift.
Qed.

Lemma eStep_all_skipped pixels cs ixs acc :
  Forall (fun i => skipped pixels i = true) ixs ->
  fold_left (assignPixel pixels cs) ixs acc = acc.
Proof.
  induction 1 as [|i ixs Hi _ IH]; simpl; [easy|].
  now rewrite assignPixel_skipped.
Qed.

Lemma survivors_zeros cs n : survivors (zip cs (replicate n 0%Z)) = [].
Proof.
  revert n. induction cs as [|c cs IH]; intros [|n]; try easy.
  cbn [replicate zip_with]. rewrite survivors_cons, toPaletteColor_zero. apply IH.
Qed.

(** ** Counts that do not wrap *)

Lemma incrAt_range counts c m :
  (m + 1 < 2147483648)%Z ->
  Forall (fun x => 0 <= x <= m)%Z counts ->
  Forall (fun x => 0 <= x <= m + 1)%Z (incrAt counts c).
Proof.
  intros Hm Hall. unfold incrAt. apply Forall_alter.
  - eapply Forall_impl; [exact Hall|]. simpl. intros; lia.
  - intros x Hx _. pose proof (Forall_lookup_1 _ _ _ _ Hall Hx) as Hb.
    simpl in Hb. rewrite wrap32_id by (unfold int32; lia). lia.
Qed.

Lemma eStep_range pixels cs ixs acc m :
  (m + Z.of_nat (length ixs) < 2147483648)%Z ->
  Forall (fun x => 0 <= x <= m)%Z (snd acc) ->
  Forall (fun x => 0 <= x <= m + Z.of_nat (length ixs))%Z
         (snd (fold_left (assignPixel pixels cs) ixs acc)).
Proof.
  revert acc m. induction ixs as [|i ixs IH]; intros acc m Hm Hall.
  - simpl. eapply Forall_impl; [exact Hall|]. simpl. intros; lia.
  - cbn [fold_left length] in *. rewrite Nat2Z.inj_succ in *.
    replace (m + Z.succ (Z.of_nat (length ixs)))%Z
      with ((m + 1) + Z.of_nat (length ixs))%Z by lia.
    apply IH; [lia|].
    destruct (skipped pixels i) eqn:Hs.
    + rewrite assignPixel_skipped by easy.
      eapply Forall_impl; [exact Hall|]. simpl. intros; lia.
    + destruct (assignPixel_counts pixels cs acc i Hs) as [c ->].
      apply incrAt_range; [lia | easy].
Qed.

Lemma iteration_range pixels st :
  (Z.of_nat (length pixels) <= 4 * 2147483647)%Z ->
  Forall (fun x => 0 <= x)%Z (clusterCounts (iteration pixels st)).
Proof.
  intros Hl. rewrite iteration_fold. simpl.
  pose proof (eStep_range pixels (centroids st) (pixelIndices pixels)
                (fill0 (Fin 0) (clusterSums st), fill0 0%Z (clusterCounts st)) 0) as H.
  eapply Forall_impl; [apply H|].
  - rewrite pixelIndices_seq, length_seq, Nat2Z.inj_div, Nat2Z.inj_add.
    simpl (Z.of_nat 3). simpl (Z.of_nat 4).
    assert ((Z.of_nat (length pixels) + 3) / 4 < 2147483648)%Z; [|lia].
    apply Z.div_lt_upper_bound; lia.
  - simpl. unfold fill0. apply Forall_replicate. lia.
  - simpl. intros; lia.
Qed.

(** ** The sequence returned by [quantizeColors] *)

(** C1 (as amended): for every pixel buffer of fewer than 2^31 pixels
    (at most 4 * (2^31 - 1) bytes), every [k >= 0] and every random
    source, [quantizeColors] returns a sequence of at most [k] entries,
    each of population at least 1. *)
Theorem quantizeColors_size_population pixels k rnd :
  (0 <= k)%Z ->
  (Z.of_nat (length pixels) <= 4 * 2147483647)%Z ->
  exists colors,
    quantizeColors pixels k rnd = Ok colors /\
    (Z.of_nat (length colors) <= k)%Z /\
    Forall (fun c => 1 <= population c)%Z colors.
Proof.
  intros Hk Hl.
  destruct (quantizeColors_Ok pixels k rnd Hk) as (st & _ & Hs & Hc & ->).
  eexists. split; [reflexivity|].
  destruct (iter_shaped pixels st maxIterations Hs) as [Hs' Hc'].
  fold (kMeans pixels st) in Hs', Hc'.
  destruct (survivors_spec (zip (centroids (kMeans pixels st))
                                (clusterCounts (kMeans pixels st))))
    as (H1 & H2 & _).
  rewrite <- materialize_survivors in H1, H2. split.
  - rewrite (Permutation_length (sort_perm _)).
    rewrite length_zip, Hc', Hc in H1. lia.
  - rewrite (sort_perm _). eapply Forall_impl; [exact H2|].
    intros x (Hx & Hin & _). simpl.
    rewrite snd_zip in Hin by (unfold shaped in Hs'; lia).
    pose proof (iteration_range pixels (Nat.iter 4 (iteration pixels) st) Hl) as Hr.
    rewrite <- kMeans_last in Hr. rewrite Forall_forall in Hr.
    specialize (Hr _ Hin). lia.
Qed.

Lemma quantizeColors_size_population_witness :
  (0 <= 2)%Z /\
  (Z.of_nat (length [255; 0; 0; 255; 0; 0; 255; 200]%Z) <= 4 * 2147483647)%Z /\
  exists colors,
    quantizeColors [255; 0; 0; 255; 0; 0; 255; 200]%Z 2 (fun _ => 0) = Ok colors /\
    (Z.of_nat (length colors) <= 2)%Z /\
    Forall (fun c => 1 <= population c)%Z colors.
Proof.
  split; [lia|]. split; [simpl; lia|].
  apply (quantizeColors_size_population
           [255; 0; 0; 255; 0; 0; 255; 200]%Z 2 (fun _ => 0)); simpl; lia.
Defined.

(** C3 (as amended): for every pixel buffer, [quantizeColors] returns the
    empty sequence when [k = 0]; when [k] is negative the construction
    of the accumulators throws a [RangeError] and nothing is returned. *)
Theorem quantizeColors_nonpositive_k pixels k rnd :
  (k <= 0)%Z ->
  quantizeColors pixels k rnd =
  if (k =? 0)%Z then Ok [] else Throw RangeError.
Proof.
  intros Hk. destruct (Z.eqb_spec k 0) as [->|Hn].
  - destruct (quantizeColors_Ok pixels 0 rnd ltac:(lia)) as (st & _ & Hs & Hc & ->).
    destruct (iter_shaped pixels st maxIterations Hs) as [_ Hc'].
    fold (kMeans pixels st) in Hc'. rewrite Hc in Hc'.
    rewrite materialize_survivors.
    destruct (centroids (kMeans pixels st)); [reflexivity | discriminate].
  - unfold quantizeColors. now rewrite initClusters_negative by lia.
Qed.

Lemma quantizeColors_nonpositive_k_witness :
  (0 <= 0)%Z /\ quantizeColors [10; 20; 30; 255]%Z 0 (fun _ => 0) = Ok [].
Proof.
  split; [lia|].
  apply (quantizeColors_nonpositive_k [10; 20; 30; 255]%Z 0 (fun _ => 0)). lia.
Defined.

(** C3 as stated fails: with [k = -1] the call ends in a [RangeError]
    instead of returning the empty sequence. *)
Lemma quantizeColors_negative_k_throws :
  (-1 <= 0)%Z /\
  quantizeColors [10; 20; 30; 255]%Z (-1) (fun _ => 0) = Throw RangeError /\
  quantizeColors [10; 20; 30; 255]%Z (-1) (fun _ => 0) <> Ok [].
Proof. split; [lia|]. split; [reflexivity | discriminate]. Qed.

Lemma iteration_all_skipped pixels st :
  allTransparent pixels = true ->
  clusterCounts (iteration pixels st)
  = replicate (length (clusterCounts st)) 0%Z.
Proof.
  intros Ht. rewrite iteration_fold.
  rewrite eStep_all_skipped by now apply allTransparent_skipped.
  reflexivity.
Qed.

(** C4: when every pixel has an alpha channel below 128 (the empty buffer
    included) [quantizeColors] returns the empty sequence, for every
    [k >= 0] and every random source; and the role selection, given the
    empty sequence, returns no [Palette]: it ends with the [TypeError]
    thrown by the read of [dominant.isVibrant], and so does the pipeline
    on such a buffer. *)
Theorem transparent_buffer_no_palette pixels k rnd :
  (0 <= k)%Z ->
  allTransparent pixels = true ->
  quantizeColors pixels k rnd = Ok [] /\
  classify [] = Throw TypeError /\
  (forall palette, classify [] <> Ok palette) /\
  processImage pixels rnd = Throw TypeError.
Proof.
  intros Hk Ht.
  assert (H : forall k', (0 <= k')%Z -> quantizeColors pixels k' rnd = Ok []).
  { intros k' Hk'.
    destruct (quantizeColors_Ok pixels k' rnd Hk') as (st & _ & _ & _ & ->).
    rewrite materialize_survivors, kMeans_last, iteration_all_skipped by easy.
    now rewrite survivors_zeros. }
  split; [now apply H|]. split; [reflexivity|]. split; [discriminate|].
  unfold processImage. now rewrite H by lia.
Qed.

Lemma transparent_buffer_no_palette_witness :
  (0 <= 8)%Z /\
  allTransparent [255; 0; 0; 0; 9; 9; 9; 127]%Z = true /\
  quantizeColors [255; 0; 0; 0; 9; 9; 9; 127]%Z 8 (fun _ => 1 # 2) = Ok [] /\
  classify [] = Throw TypeError /\
  (forall palette, classify [] <> Ok palette) /\
  processImage [255; 0; 0; 0; 9; 9; 9; 127]%Z (fun _ => 1 # 2) = Throw TypeError.
Proof.
  split; [lia|]. split; [reflexivity|].
  apply (transparent_buffer_no_palette [255; 0; 0; 0; 9; 9; 9; 127]%Z 8
           (fun _ => 1 # 2)); [lia | reflexivity].
Defined.

(** C5: for every pixel buffer, every [k >= 0] and every random source,
    the sequence returned by [quantizeColors] is in descending order of
    population, and for each population [p] its entries of population [p]
    are those of the clustering pass, listed by centroid index, in the
    same order. *)
Theorem quantizeColors_sorted_stable pixels k rnd :
  (0 <= k)%Z ->
  exists st colors,
    initClusters pixels k rnd = Ok st /\
    quantizeColors pixels k rnd = Ok colors /\
    descending colors /\
    colors ≡ₚ materialize (kMeans pixels st) /\
    forall p, withPopulation p colors
              = withPopulation p (materialize (kMeans pixels st)).
Proof.
  intros Hk.
  destruct (quantizeColors_Ok pixels k rnd Hk) as (st & E & _ & _ & ->).
  exists st. eexists. split; [exact E|]. split; [reflexivity|].
  split; [apply sort_descending|]. split; [apply sort_perm|].
  intros p. apply sort_stable.
Qed.

Lemma quantizeColors_sorted_stable_witness :
  (0 <= 3)%Z /\
  exists st colors,
    initClusters [0; 0; 255; 255; 255; 0; 0; 255]%Z 3 (fun i => inject_Z (Z.of_nat i) / 2)
    = Ok st /\
    quantizeColors [0; 0; 255; 255; 255; 0; 0; 255]%Z 3 (fun i => inject_Z (Z.of_nat i) / 2)
    = Ok colors /\
    descending colors /\
    colors ≡ₚ materialize (kMeans [0; 0; 255; 255; 255; 0; 0; 255]%Z st) /\
    forall p, withPopulation p colors
              = withPopulation p (materialize (kMeans [0; 0; 255; 255; 255; 0; 0; 255]%Z st)).
Proof.
  split; [lia|].
  apply (quantizeColors_sorted_stable [0; 0; 255; 255; 255; 0; 0; 255]%Z 3
           (fun i => inject_Z (Z.of_nat i) / 2)). lia.
Defined.

(** C6: for every pixel buffer whose length is a multiple of 4, every
    [k >= 1] and every random source, the populations of the clusters
    returned by [quantizeColors] add up to at most the number of pixels
    whose alpha channel is at least 128. *)
Theorem quantizeColors_population_sum pixels k rnd :
  (length pixels mod 4 = 0)%nat ->
  (1 <= k)%Z ->
  exists colors,
    quantizeColors pixels k rnd = Ok colors /\
    (sumZ (populations colors) <= opaquePixels pixels)%Z.
Proof.
  intros Hl Hk.
  destruct (quantizeColors_Ok pixels k rnd ltac:(lia)) as (st & _ & Hs & _ & ->).
  eexists. split; [reflexivity|].
  destruct (iter_shaped pixels st maxIterations Hs) as [Hs' _].
  fold (kMeans pixels st) in Hs'. unfold shaped in Hs'.
  unfold populations. rewrite (sumZ_perm _ _ (Permutation_map _ (sort_perm _))).
  fold (populations (materialize (kMeans pixels st))).
  rewrite materialize_survivors.
  destruct (survivors_spec (zip (centroids (kMeans pixels st))
                                (clusterCounts (kMeans pixels st))))
    as (_ & _ & ->).
  rewrite snd_zip by lia. rewrite kMeans_last, <- (visited_opaque pixels Hl).
  apply iteration_sum.
Qed.

Lemma quantizeColors_population_sum_witness :
  (length [255; 0; 0; 255; 0; 0; 255; 128; 7; 7; 7; 127]%Z mod 4 = 0)%nat /\
  (1 <= 2)%Z /\
  exists colors,
    quantizeColors [255; 0; 0; 255; 0; 0; 255; 128; 7; 7; 7; 127]%Z 2
                   (fun i => inject_Z (Z.of_nat i) / 2) = Ok colors /\
    (sumZ (populations colors)
     <= opaquePixels [255; 0; 0; 255; 0; 0; 255; 128; 7; 7; 7; 127]%Z)%Z.
Proof.
  split; [reflexivity|]. split; [lia|].
  apply (quantizeColors_population_sum
           [255; 0; 0; 255; 0; 0; 255; 128; 7; 7; 7; 127]%Z 2
           (fun i => inject_Z (Z.of_nat i) / 2)); [reflexivity | lia].
Defined.

(** ** [rgbToHsl] on channels in [0, 255] *)

Lemma ndiv_Fin (a c : Q) : ~ c == 0 -> (Fin a / Fin c)%num = Fin (a / c).
Proof.
  intros Hc. unfold ndiv. destruct (Qeq_bool c 0) eqn:E; [|reflexivity].
  now apply Qeq_bool_iff in E.
Qed.

Lemma Qlt_bool_iff (a c : Q) : Qlt_bool a c = true <-> a < c.
Proof.
  unfold Qlt_bool. rewrite negb_true_iff, <- not_true_iff_false, Qle_bool_iff.
  split; [apply Qnot_le_lt | apply Qlt_not_le].
Qed.

Lemma Qlt_bool_false (a c : Q) : Qlt_bool a c = false <-> c <= a.
Proof.
  unfold Qlt_bool. now rewrite negb_false_iff, Qle_bool_iff.
Qed.

Lemma Qeq_bool_false (a c : Q) : Qeq_bool a c = false <-> ~ a == c.
Proof. now rewrite <- not_true_iff_false, Qeq_bool_iff. Qed.

Ltac reflect_tests :=
  repeat match goal with
  | H : Qeq_bool _ _ = true |- _ => apply Qeq_bool_iff in H
  | H : Qeq_bool _ _ = false |- _ => apply Qeq_bool_false in H
  | H : Qlt_bool _ _ = true |- _ => apply Qlt_bool_iff in H
  | H : Qlt_bool _ _ = false |- _ => apply Qlt_bool_false in H
  end.

(** Replaces a quotient [x / y] by a fresh [q] with [y * q == x]. *)
Ltac name_quotient x y :=
  let q := fresh "q" in
  let Hq := fresh "Hq" in
  assert (Hq : y * (x / y) == x) by (apply Qmult_div_r; lra);
  generalize dependent (x / y); intros q Hq.

Lemma rgbToHsl_mk (x y z : num) :
  rgbToHsl (mkRGB x y z) =
  let r := (x / Fin 255)%num in
  let g := (y / Fin 255)%num in
  let b := (z / Fin 255)%num in
  let max := Math_max r g b in
  let min := Math_min r g b in
  let l := ((max + min) / Fin 2)%num in
  if (max !== min)%num then
    let d := (max - min)%num in
    let s := (if l >? Fin 0.5 then d / (Fin 2 - max - min)
              else d / (max + min))%num in
    let h := (if max === r then (g - b) / d + (if g <? b then Fin 6 else Fin 0)
              else if max === g then (b - r) / d + Fin 2
              else if max === b then (r - g) / d + Fin 4
              else Fin 0)%num in
    let h := (h / Fin 6)%num in
    mkHSL (h * Fin 360)%num s l
  else
    mkHSL (Fin 0 * Fin 360)%num (Fin 0) l.
Proof. reflexivity. Qed.

Lemma rgbToHex_mk (x y z : num) :
  rgbToHex (mkRGB x y z) = String "#" (toHex x ++ toHex y ++ toHex z)%string.
Proof. reflexivity. Qed.

Ltac name_channels r g b :=
  unfold maxChannel, minChannel, unitChannel in *;
  set (r' := r / 255) in *; set (g' := g / 255) in *; set (b' := b / 255) in *;
  set (M := Qmax (Qmax r' g') b') in *; set (m := Qmin (Qmin r' g') b') in *.

Section Channels.
Variables r g b : Q.
Hypothesis Hr : 0 <= r <= 255.
Hypothesis Hg : 0 <= g <= 255.
Hypothesis Hb : 0 <= b <= 255.

Lemma unit_channels :
  0 <= unitChannel r <= 1 /\ 0 <= unitChannel g <= 1 /\ 0 <= unitChannel b <= 1.
Proof.
  unfold unitChannel.
  assert (E : forall x, x / 255 == x * (1 # 255)) by (intros; field).
  rewrite !E. lra.
Qed.

Lemma max_min_facts :
  (unitChannel r <= maxChannel r g b /\ unitChannel g <= maxChannel r g b /\
   unitChannel b <= maxChannel r g b) /\
  (maxChannel r g b == unitChannel r \/ maxChannel r g b == unitChannel g \/
   maxChannel r g b == unitChannel b) /\
  (minChannel r g b <= unitChannel r /\ minChannel r g b <= unitChannel g /\
   minChannel r g b <= unitChannel b) /\
  (minChannel r g b == unitChannel r \/ minChannel r g b == unitChannel g \/
   minChannel r g b == unitChannel b).
Proof.
  unfold maxChannel, minChannel.
  set (r' := unitChannel r). set (g' := unitChannel g). set (b' := unitChannel b).
  pose proof (Q.le_max_l (Qmax r' g') b'). pose proof (Q.le_max_r (Qmax r' g') b').
  pose proof (Q.le_max_l r' g'). pose proof (Q.le_max_r r' g').
  pose proof (Q.le_min_l (Qmin r' g') b'). pose proof (Q.le_min_r (Qmin r' g') b').
  pose proof (Q.le_min_l r' g'). pose proof (Q.le_min_r r' g').
  split; [repeat split; lra|]. split; [|split; [repeat split; lra|]].
  - destruct (Q.max_dec (Qmax r' g') b') as [E|E]; [|now right; right].
    destruct (Q.max_dec r' g') as [E'|E']; [left | right; left];
      (etransitivity; [exact E | exact E']).
  - destruct (Q.min_dec (Qmin r' g') b') as [E|E]; [|now right; right].
    destruct (Q.min_dec r' g') as [E'|E']; [left | right; left];
      (etransitivity; [exact E | exact E']).
Qed.

(** On channels in [0, 255] no division of [rgbToHsl] has a zero divisor,
    and its result is made of numbers. *)
Lemma rgbToHsl_Fin :
  rgbToHsl (mkRGB (Fin r) (Fin g) (Fin b)) =
  let '(h, s, l) := hslCode r g b in mkHSL (Fin h) (Fin s) (Fin l).
Proof.
  destruct unit_channels as (Br & Bg & Bb).
  destruct max_min_facts as ((M1 & M2 & M3) & HM & (m1 & m2 & m3) & Hm).
  rewrite rgbToHsl_mk. unfold hslCode. cbv zeta.
  rewrite !(ndiv_Fin _ 255) by easy.
  cbn [Math_max Math_min]. name_channels r g b.
  cbn [nadd nsub nmul lift2 nseq ngt nlt].
  rewrite !(ndiv_Fin _ 2) by easy.
  destruct (Qeq_bool M m) eqn:EMm; cbn [negb].
  - reflexivity.
  - apply Qeq_bool_false in EMm.
    assert (Hd : ~ M - m == 0) by lra.
    rewrite !(ndiv_Fin _ (M - m)) by easy.
    assert (Es : (if Qlt_bool 0.5 ((M + m) / 2) then Fin (M - m) / Fin (2 - M - m)
                  else Fin (M - m) / Fin (M + m))%num
                 = Fin (if Qlt_bool 0.5 ((M + m) / 2) then (M - m) / (2 - M - m)
                        else (M - m) / (M + m))).
    { destruct (Qlt_bool 0.5 ((M + m) / 2)) eqn:El.
      - apply Qlt_bool_iff in El. apply ndiv_Fin.
        assert ((M + m) / 2 == (M + m) * (1 # 2)) as E2 by field.
        rewrite E2 in El. lra.
      - apply ndiv_Fin. lra. }
    cbn [ngt nlt] in Es. rewrite Es.
    destruct (Qeq_bool M r'); [|destruct (Qeq_bool M g'); [|destruct (Qeq_bool M b')]];
      cbn [nadd lift2]; try destruct (Qlt_bool g' b');
      cbn [nadd lift2]; rewrite !(ndiv_Fin _ 6) by easy; reflexivity.
Qed.

Lemma hslCode_spec :
  let '(h, s, l) := hslCode r g b in
  0 <= h < 360 /\ 0 <= s <= 1 /\ 0 <= l <= 1 /\
  ((h == 0 /\ s == 0) <-> maxChannel r g b == minChannel r g b) /\
  let '(h', s', l') := hslSpec r g b in h == h' /\ s == s' /\ l == l'.
Proof.
  destruct unit_channels as (Br & Bg & Bb).
  destruct max_min_facts as ((M1 & M2 & M3) & HM & (m1 & m2 & m3) & Hm).
  unfold hslCode, hslSpec. name_channels r g b.
  assert (El2 : (M + m) / 2 == (M + m) * (1 # 2)) by field.
  generalize dependent ((M + m) / 2). intros l El2.
  destruct (Qeq_bool M m) eqn:EMm; cbn [negb]; reflect_tests.
  - repeat split; lra.
  - assert (Hd : 0 < M - m) by lra.
    assert (Hs : 0 < (if Qlt_bool 0.5 l then (M - m) / (2 - M - m)
                      else (M - m) / (M + m)) <= 1).
    { destruct (Qlt_bool 0.5 l) eqn:El; reflect_tests.
      - name_quotient (M - m) (2 - M - m). nra.
      - name_quotient (M - m) (M + m). nra. }
    generalize dependent (if Qlt_bool 0.5 l then (M - m) / (2 - M - m)
                          else (M - m) / (M + m)). intros s Hs.
    assert (E60 : forall x, x / 6 * 360 == x * 60) by (intros; field).
    name_quotient (g' - b') (M - m).
    name_quotient (b' - r') (M - m).
    name_quotient (r' - g') (M - m).
    assert (-1 <= q <= 1) by nra.
    assert (-1 <= q0 <= 1) by nra.
    assert (-1 <= q1 <= 1) by nra.
    destruct (Qeq_bool M r') eqn:EMr;
      [destruct (Qlt_bool g' b') eqn:Egb
      |destruct (Qeq_bool M g') eqn:EMg; [|destruct (Qeq_bool M b') eqn:EMb]];
      reflect_tests;
      match goal with
      | |- context [Qlt_bool ?x 0] => destruct (Qlt_bool x 0) eqn:Ew
      end;
      reflect_tests; rewrite ?E60;
      try (exfalso; destruct HM as [?|[?|?]]; easy);
      repeat split; intros; try lra; try nra.
Qed.
End Channels.

(** ** Role selection *)

Lemma visit_vibrant dominant st c :
  (bestVibrant (visit dominant st c), maxVibrantScore (visit dominant st c))
  = visitVibrant dominant (bestVibrant st, maxVibrantScore st) c.
Proof.
  unfold visit, visitVibrant, vibrantTest. cbn [snd].
  destruct (_ && _ && _); [|reflexivity].
  destruct (_ >? _)%num; reflexivity.
Qed.

Lemma fold_visit_vibrant dominant colors st :
  (bestVibrant (fold_left (visit dominant) colors st),
   maxVibrantScore (fold_left (visit dominant) colors st))
  = fold_left (visitVibrant dominant) colors (bestVibrant st, maxVibrantScore st).
Proof.
  revert st. induction colors as [|c colors IH]; intros st; [reflexivity|].
  cbn [fold_left]. now rewrite IH, visit_vibrant.
Qed.

Lemma ngt_toQ x q : 0 <= q -> ((x >? Fin q)%num = true <-> q < toQ x).
Proof.
  intros Hq. destruct x as [a|]; simpl.
  - apply Qlt_bool_iff.
  - split; [discriminate | lra].
Qed.

Lemma ngt_Fin x y : (x >? y)%num = true -> x = Fin (toQ x).
Proof. destruct x as [a|]; [reflexivity|]. now destruct y. Qed.

Lemma vibrantFallback_second dominant rest :
  vibrantFallback (dominant :: rest) dominant =
  if isVibrant dominant then dominant
  else match rest with
       | second :: _ => second
       | [] => dominant
       end.
Proof. unfold vibrantFallback. now destruct (isVibrant dominant), rest. Qed.

(** ** The fallback of the vibrant role *)

Lemma vibrantFlag_test c : vibrantFlag c = true -> vibrantTest c = true.
Proof.
  unfold vibrantFlag, vibrantTest.
  intros [[Hs Hl]%andb_true_iff Hu]%andb_true_iff.
  rewrite Hl, Hu, !andb_true_r.
  destruct (s (hsl c)) as [q|]; [|discriminate]. simpl in *.
  reflect_tests. apply Qlt_bool_iff. lra.
Qed.

Lemma visitVibrant_keeps dominant st c :
  fst st <> None -> fst (visitVibrant dominant st c) <> None.
Proof.
  unfold visitVibrant. destruct (vibrantTest c); [|easy].
  destruct (_ >? _)%num; easy.
Qed.

Lemma fold_visitVibrant_keeps dominant colors st :
  fst st <> None -> fst (fold_left (visitVibrant dominant) colors st) <> None.
Proof.
  revert st. induction colors as [|c colors IH]; intros st Hst; [easy|].
  cbn [fold_left]. now apply IH, visitVibrant_keeps.
Qed.

Lemma fold_visitVibrant_none dominant colors st :
  Forall (fun c => vibrantTest c = false) colors ->
  fold_left (visitVibrant dominant) colors st = st.
Proof.
  induction 1 as [|c colors Hc _ IH]; [easy|].
  cbn [fold_left]. unfold visitVibrant at 2. now rewrite Hc.
Qed.

(** A dominant color that passes the test is recorded by its own visit:
    its [popRatio] is 1. *)
Lemma visitVibrant_dominant dominant :
  population dominant <> 0%Z -> vibrantTest dominant = true ->
  fst (visitVibrant dominant (None, Fin (-1)) dominant) = Some dominant.
Proof.
  intros Hp Ht. unfold visitVibrant. rewrite Ht. cbn [snd].
  pose proof Ht as Hs. unfold vibrantTest in Hs.
  apply andb_true_iff in Hs as [[Hs _]%andb_true_iff _].
  pose proof (ngt_Fin _ _ Hs) as Es. apply ngt_toQ in Hs; [|lra].
  unfold vibrantScore, popRatio, fromZ. rewrite Es.
  destruct (Z.eqb_spec (population dominant) 0); [easy|].
  assert (Hn : ~ inject_Z (population dominant) == 0).
  { intros E. apply (Qeq_bool_neq _ _) in E; [easy|].
    unfold Qeq_bool, inject_Z. simpl. rewrite Z.mul_1_r. now apply Z.eqb_neq. }
  rewrite ndiv_Fin by exact Hn. cbn [nadd nmul lift2 ngt nlt].
  assert (E1 : inject_Z (population dominant) / inject_Z (population dominant) == 1)
    by now field.
  assert (E : Qlt_bool (-1) (toQ (s (hsl dominant))
              * (1 + inject_Z (population dominant) / inject_Z (population dominant) * 0.5))
              = true).
  { apply Qlt_bool_iff. rewrite E1. lra. }
  now rewrite E.
Qed.

Lemma quantizeColors_flags pixels k rnd colors :
  quantizeColors pixels k rnd = Ok colors ->
  Forall (fun x => population x <> 0%Z /\ isVibrant x = vibrantFlag x) colors.
Proof.
  unfold quantizeColors. destruct (initClusters pixels k rnd) as [st|]; [|discriminate].
  intros [= <-]. rewrite (sort_perm _), materialize_survivors.
  eapply Forall_impl; [apply survivors_spec|]. simpl. tauto.
Qed.

(** C10: on a non-empty sequence returned by [quantizeColors], when no
    entry passes the eligibility test of the vibrant role,
    [dominant.isVibrant] is false; more generally [dominant.isVibrant] is
    false whenever the loop leaves [bestVibrant] at [null], so the
    fallback never takes [dominant] for being vibrant: it is the second
    color when there is one and [dominant] otherwise. *)
Theorem vibrant_fallback_unreachable pixels k rnd dominant rest :
  quantizeColors pixels k rnd = Ok (dominant :: rest) ->
  let colors := dominant :: rest in
  let second := match rest with
                | second :: _ => second
                | [] => dominant
                end in
  (Forall (fun c => vibrantTest c = false) colors -> isVibrant dominant = false) /\
  (bestVibrant (fold_left (visit dominant) colors noRoles) = None ->
   isVibrant dominant = false /\ vibrantFallback colors dominant = second) /\
  (Forall (fun c => vibrantTest c = false) colors ->
   exists palette, classify colors = Ok palette /\ vibrant palette = Some second).
Proof.
  intros Hq colors second.
  pose proof (quantizeColors_flags _ _ _ _ Hq) as Hf.
  apply Forall_cons_1 in Hf as [[Hp Hflag] _].
  assert (Hnone : bestVibrant (fold_left (visit dominant) colors noRoles) = None ->
                  isVibrant dominant = false).
  { intros Hb. rewrite Hflag.
    destruct (vibrantFlag dominant) eqn:Ev; [|reflexivity]. exfalso.
    apply vibrantFlag_test in Ev.
    pose proof (fold_visit_vibrant dominant colors noRoles) as E.
    rewrite Hb in E. apply (f_equal fst) in E. cbn [fst] in E.
    symmetry in E. revert E. unfold colors. cbn [fold_left].
    apply fold_visitVibrant_keeps.
    cbn [bestVibrant maxVibrantScore noRoles].
    now rewrite visitVibrant_dominant. }
  assert (Hfall : isVibrant dominant = false -> vibrantFallback colors dominant = second).
  { intros Ev. unfold colors. now rewrite vibrantFallback_second, Ev. }
  assert (Hloop : Forall (fun c => vibrantTest c = false) colors ->
                  bestVibrant (fold_left (visit dominant) colors noRoles) = None).
  { intros Hall. pose proof (fold_visit_vibrant dominant colors noRoles) as E.
    rewrite fold_visitVibrant_none in E by exact Hall.
    now apply (f_equal fst) in E. }
  split; [|split].
  - intros Hall. apply Hnone, Hloop, Hall.
  - intros Hb. split; [now apply Hnone | now apply Hfall, Hnone].
  - intros Hall. unfold colors at 1. unfold classify. fold colors.
    rewrite (Hloop Hall). eexists. split; [reflexivity|]. cbn [vibrant].
    now rewrite Hfall by apply Hnone, Hloop, Hall.
Qed.

Lemma vibrant_fallback_unreachable_witness :
  exists dominant rest,
    quantizeColors [128; 128; 128; 255; 10; 10; 10; 255; 10; 10; 10; 255]%Z 2
                   (fun i => inject_Z (Z.of_nat i) / 2) = Ok (dominant :: rest) /\
    Forall (fun c => vibrantTest c = false) (dominant :: rest) /\
    isVibrant dominant = false /\
    exists palette second,
      rest !! 0%nat = Some second /\
      classify (dominant :: rest) = Ok palette /\ vibrant palette = Some second.
Proof.
  eexists. eexists.
  match goal with
  | |- ?A /\ _ => assert (E : A) by (vm_compute; reflexivity)
  end.
  split; [exact E|].
  destruct (vibrant_fallback_unreachable _ _ _ _ _ E) as (T1 & _ & T3).
  match goal with
  | |- ?A /\ _ => assert (Hall : A) by (repeat constructor)
  end.
  destruct (T3 Hall) as (palette & T4 & T5).
  split; [exact Hall|]. split; [exact (T1 Hall)|].
  exists palette. eexists. split; [reflexivity|]. split; [exact T4 | exact T5].
Defined.

(** ** The colors returned are colors of the data model *)

Lemma readByte_channel pixels idx :
  Forall (fun v => 0 <= v <= 255)%Z pixels -> (idx < length pixels)%nat ->
  channel (readByte pixels idx).
Proof.
  intros Hb Hi. unfold readByte.
  destruct (lookup_lt_is_Some_2 pixels idx Hi) as [v Hv]. rewrite Hv.
  pose proof (Forall_lookup_1 _ _ _ _ Hb Hv) as Hr. simpl in Hr.
  exists (inject_Z v). split; [reflexivity|].
  change 0 with (inject_Z 0). change 255 with (inject_Z 255).
  rewrite <- !Zle_Qle. lia.
Qed.

Lemma pixelIndices_in pixels i :
  (length pixels mod 4 = 0)%nat -> In i (pixelIndices pixels) ->
  (i * 4 + 3 < length pixels)%nat.
Proof.
  intros Hl. rewrite pixelIndices_seq, in_seq.
  pose proof (Nat.div_mod_eq (length pixels) 4) as E. rewrite Hl in E.
  set (d := (length pixels / 4)%nat) in *.
  replace (length pixels + 3)%nat with (3 + d * 4)%nat by lia.
  rewrite Nat.div_add by lia. change (3 / 4)%nat with 0%nat. lia.
Qed.

Lemma accBounded_weaken m m' acc :
  (m <= m')%Z -> accBounded m acc -> accBounded m' acc.
Proof.
  intros Hm H c n Hc. destruct (H c n Hc) as [Hn Hs]. split; [lia | exact Hs].
Qed.

Lemma addPixel_bounded p c m acc :
  channel (r p) -> channel (g p) -> channel (b p) ->
  (m + 1 < 2147483648)%Z ->
  accBounded m acc -> accBounded (m + 1) (addPixel p c acc).
Proof.
  intros (vr & Er & Hr) (vg & Eg & Hg) (vb & Eb & Hb) Hm Hacc c' n' Hc'.
  unfold addPixel in *. cbn [fst snd] in *. unfold incrAt, addAt in *.
  rewrite list_lookup_alter in Hc'. destruct (decide (c = c')) as [<-|Hne].
  - destruct (snd acc !! c) as [n|] eqn:En; [|discriminate].
    cbn in Hc'. injection Hc' as <-.
    destruct (Hacc c n En) as [Hn Hs].
    rewrite wrap32_id by (unfold int32; lia). split; [lia|].
    intros j Hj. destruct (Hs j Hj) as (q & Eq & Hq).
    rewrite inject_Z_plus. change (inject_Z 1) with 1.
    rewrite Er, Eg, Eb.
    destruct j as [|[|[|j]]]; [| | |lia];
      rewrite ?Nat.add_0_r in *;
      repeat (rewrite list_lookup_alter; case_decide; try lia);
      rewrite Eq; cbn; eexists; (split; [reflexivity|]); lra.
  - destruct (Hacc c' n' Hc') as [Hn Hs]. split; [lia|].
    intros j Hj. destruct (Hs j Hj) as (q & Eq & Hq). exists q. split; [|exact Hq].
    repeat (rewrite list_lookup_alter; case_decide; try lia). exact Eq.
Qed.

Lemma assignPixel_bounded pixels cs m acc i :
  pixelBuffer pixels -> In i (pixelIndices pixels) ->
  (m + 1 < 2147483648)%Z ->
  accBounded m acc -> accBounded (m + 1) (assignPixel pixels cs acc i).
Proof.
  intros [Hb Hl] Hi Hm Hacc. pose proof (pixelIndices_in pixels i Hl Hi) as Hlt.
  unfold assignPixel. destruct (_ <? _)%num.
  - apply (accBounded_weaken m); [lia | exact Hacc].
  - destruct acc as [sums counts].
    apply (addPixel_bounded
             (mkRGB (readByte pixels (i * 4)) (readByte pixels (i * 4 + 1))
                    (readByte pixels (i * 4 + 2)))
             (nearestCentroid _ cs) m (sums, counts));
      [apply readByte_channel; [easy | lia] ..| lia | exact Hacc].
Qed.

Lemma eStep_bounded pixels cs ixs m acc :
  pixelBuffer pixels -> Forall (fun i => In i (pixelIndices pixels)) ixs ->
  (m + Z.of_nat (length ixs) < 2147483648)%Z ->
  accBounded m acc ->
  accBounded (m + Z.of_nat (length ixs)) (fold_left (assignPixel pixels cs) ixs acc).
Proof.
  intros Hp Hixs. revert m acc.
  induction Hixs as [|i ixs Hi _ IH]; intros m acc Hm Hacc.
  - simpl. now rewrite Z.add_0_r.
  - cbn [fold_left length] in *. rewrite Nat2Z.inj_succ in *.
    replace (m + Z.succ (Z.of_nat (length ixs)))%Z
      with ((m + 1) + Z.of_nat (length ixs))%Z by lia.
    apply IH; [lia|]. apply assignPixel_bounded; [easy | easy | lia | easy].
Qed.

Lemma accBounded_zeros sums counts :
  length sums = (3 * length counts)%nat ->
  accBounded 0 (fill0 (Fin 0) sums, fill0 0%Z counts).
Proof.
  intros Hl c n Hc. cbn [fst snd] in *. unfold fill0 in *.
  apply lookup_replicate in Hc as [-> Hc]. split; [lia|].
  intros j Hj. exists 0. change (inject_Z 0) with 0.
  split; [|split; lra].
  apply lookup_replicate_2. lia.
Qed.

(** After the E-step of an iteration on fewer than 2^31 pixels, the
    centroid of every cluster that is not empty has channels in [0, 255]. *)
Lemma iteration_channels pixels st :
  pixelBuffer pixels ->
  (Z.of_nat (length pixels) <= 4 * 2147483647)%Z ->
  length (clusterSums st) = (3 * length (clusterCounts st))%nat ->
  let st' := iteration pixels st in
  length (clusterSums st') = (3 * length (clusterCounts st'))%nat /\
  forall c centroid n,
    centroids st' !! c = Some centroid -> clusterCounts st' !! c = Some n ->
    n <> 0%Z ->
    (1 <= n)%Z /\ channel (r centroid) /\ channel (g centroid) /\ channel (b centroid).
Proof.
  intros Hp Hl Hsized. cbv zeta. rewrite iteration_fold. cbv zeta.
  pose proof (eStep_bounded pixels (centroids st) (pixelIndices pixels) 0
                (fill0 (Fin 0) (clusterSums st), fill0 0%Z (clusterCounts st)) Hp)
    as Hacc.
  pose proof (length_eStep pixels (centroids st) (pixelIndices pixels)
                (fill0 (Fin 0) (clusterSums st), fill0 0%Z (clusterCounts st)))
    as [L1 L2].
  cbn [fst snd] in L1, L2. rewrite length_fill0 in L1. rewrite length_fill0 in L2.
  destruct (fold_left _ _ _) as [sums counts].
  cbn [fst snd centroids clusterSums clusterCounts] in *.
  split; [lia|].
  assert (Hlen : (0 + Z.of_nat (length (pixelIndices pixels)) < 2147483648)%Z).
  { rewrite pixelIndices_seq, length_seq, Nat2Z.inj_div, Nat2Z.inj_add.
    simpl (Z.of_nat 3). simpl (Z.of_nat 4).
    assert ((Z.of_nat (length pixels) + 3) / 4 < 2147483648)%Z; [|lia].
    apply Z.div_lt_upper_bound; lia. }
  specialize (Hacc (proj2 (List.Forall_forall _ _) (fun i H => H)) Hlen
                   (accBounded_zeros _ _ Hsized)).
  intros c centroid n Hc Hn Hnz.
  destruct (Hacc c n Hn) as [[Hn0 _] Hs]. split; [lia|].
  unfold updateCentroids in Hc. rewrite list_lookup_imap in Hc.
  rewrite lookup_zip_with, Hn in Hc.
  destruct (centroids st !! c) as [old|]; [|discriminate]. cbn in Hc.
  destruct (Z.gtb_spec n 0) as [_|]; [|lia]. injection Hc as <-.
  assert (Hq : 0 < inject_Z n).
  { change 0 with (inject_Z 0). rewrite <- Zlt_Qlt. lia. }
  assert (H : forall j, (j < 3)%nat ->
               channel (sumAt sums (c * 3 + j) / Fin (inject_Z n))%num).
  { intros j Hj. destruct (Hs j Hj) as (q & Eq & Hq'). cbn [fst] in Eq.
    unfold sumAt. rewrite Eq.
    cbn [default from_option id]. rewrite ndiv_Fin by lra.
    eexists. split; [reflexivity|]. split.
    - apply Qle_shift_div_l; [exact Hq | lra].
    - apply Qle_shift_div_r; [exact Hq | lra]. }
  pose proof (H 0%nat ltac:(lia)) as H0. rewrite Nat.add_0_r in H0.
  split; [exact H0|]. split; [apply (H 1%nat); lia | apply (H 2%nat); lia].
Qed.

Lemma survivors_Forall (P : PaletteColor -> Prop) cs counts :
  (forall c centroid n x,
      cs !! c = Some centroid -> counts !! c = Some n ->
      toPaletteColor centroid n = Some x -> P x) ->
  Forall P (survivors (zip cs counts)).
Proof.
  revert counts. induction cs as [|c0 cs IH]; intros [|n counts] H;
    try (constructor; fail).
  cbn [zip_with]. rewrite survivors_cons.
  assert (Ht : Forall P (survivors (zip cs counts))).
  { apply IH. intros c centroid n' x Hc Hn. apply (H (S c)); easy. }
  destruct (toPaletteColor c0 n) as [x|] eqn:E; [|exact Ht].
  constructor; [|exact Ht]. apply (H 0%nat c0 n); easy.
Qed.

(** ** Solid images *)

Section Solid.
Variables (r g b : Z).

Lemma length_solid n : length (solid n r g b) = (4 * n)%nat.
Proof. induction n as [|n IH]; simpl; lia. Qed.

Lemma pixelIndices_solid n : pixelIndices (solid n r g b) = seq 0 n.
Proof.
  rewrite pixelIndices_seq, length_solid. f_equal.
  replace (4 * n + 3)%nat with (3 + n * 4)%nat by lia.
  rewrite Nat.div_add by lia. reflexivity.
Qed.

Lemma readByte_solid n i :
  (i < n)%nat ->
  readByte (solid n r g b) (i * 4) = fromZ r /\
  readByte (solid n r g b) (i * 4 + 1) = fromZ g /\
  readByte (solid n r g b) (i * 4 + 2) = fromZ b /\
  readByte (solid n r g b) (i * 4 + 3) = fromZ 255.
Proof.
  revert i. induction n as [|n IH]; intros i Hi; [lia|].
  destruct i as [|i]; [easy|]. apply (IH i). lia.
Qed.

Lemma assignPixel_solid n cs acc i :
  (i < n)%nat ->
  assignPixel (solid n r g b) cs acc i
  = addPixel (colorOf r g b) (nearestCentroid (colorOf r g b) cs) acc.
Proof.
  intros Hi. destruct (readByte_solid n i Hi) as (Er & Eg & Eb & Ea).
  unfold assignPixel. rewrite Er, Eg, Eb, Ea. now destruct acc.
Qed.

Lemma eStep_solid n cs acc :
  fold_left (assignPixel (solid n r g b) cs) (pixelIndices (solid n r g b)) acc
  = Nat.iter n (addPixel (colorOf r g b) (nearestCentroid (colorOf r g b) cs)) acc.
Proof.
  rewrite pixelIndices_solid.
  assert (H : forall m, (m <= n)%nat -> forall acc,
              fold_left (assignPixel (solid n r g b) cs) (seq 0 m) acc
              = Nat.iter m (addPixel (colorOf r g b)
                              (nearestCentroid (colorOf r g b) cs)) acc).
  { induction m as [|m IH]; intros Hm acc'; [reflexivity|].
    rewrite seq_S, fold_left_app, Nat.iter_succ. cbn [fold_left plus].
    rewrite IH by lia. apply assignPixel_solid. lia. }
  now apply H.
Qed.
End Solid.

(** [n] pixels of one color added to cluster 0. *)
Lemma iter_addPixel_0 (r g b : Z) n qr qg qb sums x counts :
  exists qr' qg' qb',
    Nat.iter n (addPixel (colorOf r g b) 0)
             (Fin qr :: Fin qg :: Fin qb :: sums, wrap32 x :: counts)
    = (Fin qr' :: Fin qg' :: Fin qb' :: sums, wrap32 (x + Z.of_nat n) :: counts) /\
    qr' == qr + inject_Z (Z.of_nat n) * inject_Z r /\
    qg' == qg + inject_Z (Z.of_nat n) * inject_Z g /\
    qb' == qb + inject_Z (Z.of_nat n) * inject_Z b.
Proof.
  induction n as [|n (qr' & qg' & qb' & E & Hr & Hg & Hb)].
  - exists qr, qg, qb. simpl. rewrite Z.add_0_r.
    split; [reflexivity|]. repeat split; ring.
  - rewrite Nat.iter_succ, E.
    exists (qr' + inject_Z r), (qg' + inject_Z g), (qb' + inject_Z b). split.
    + unfold addPixel, addAt, incrAt. cbn. rewrite wrap32_succ.
      replace (x + Z.of_nat (S n))%Z with (x + Z.of_nat n + 1)%Z by lia.
      reflexivity.
    + rewrite Nat2Z.inj_succ. unfold Z.succ. rewrite !inject_Z_plus.
      rewrite Hr, Hg, Hb. repeat split; ring.
Qed.

(** The nearest centroid of the color of a solid image, when every
    centroid has that color: the first one. *)
Lemma colorDistanceSq_hasColor r g b c :
  hasColor r g b c ->
  exists d, colorDistanceSq (colorOf r g b) c = Fin d /\ d == 0.
Proof.
  intros (qr & qg & qb & -> & Hr & Hg & Hb).
  eexists. split; [reflexivity|]. rewrite Hr, Hg, Hb. ring.
Qed.

Lemma scanCentroids_settled r g b cs c m clusterIndex :
  Forall (hasColor r g b) cs -> m == 0 ->
  scanCentroids (colorOf r g b) cs c (Dist m) clusterIndex = clusterIndex.
Proof.
  intros Hall Hm. revert c. induction Hall as [|x cs Hx _ IH]; intros c; [reflexivity|].
  cbn [scanCentroids].
  destruct (colorDistanceSq_hasColor r g b x Hx) as (d & -> & Hd).
  assert (E : below d (Dist m) = false).
  { cbn [below]. apply Qlt_bool_false. lra. }
  rewrite E. apply IH.
Qed.

Lemma nearestCentroid_solid r g b cs :
  Forall (hasColor r g b) cs -> nearestCentroid (colorOf r g b) cs = 0%nat.
Proof.
  unfold nearestCentroid. intros [|x cs' Hx Hcs]; [reflexivity|].
  cbn [scanCentroids].
  destruct (colorDistanceSq_hasColor r g b x Hx) as (d & -> & Hd).
  cbn [below]. now apply scanCentroids_settled.
Qed.

Lemma nearestCentroid_single p c : nearestCentroid p [c] = 0%nat.
Proof.
  unfold nearestCentroid. cbn [scanCentroids].
  destruct (colorDistanceSq p c); reflexivity.
Qed.

(** The M-step leaves the centroids of empty clusters alone. *)
Lemma updateCentroids_zeros sums cs (f : nat -> nat) :
  imap (fun c '(centroid, count) =>
          if (count >? 0)%Z then
            let n := Fin (inject_Z count) in
            mkRGB (sumAt sums (f c * 3) / n)%num
                  (sumAt sums (f c * 3 + 1) / n)%num
                  (sumAt sums (f c * 3 + 2) / n)%num
          else centroid)
       (zip cs (replicate (length cs) 0%Z))
  = cs.
Proof.
  revert f. induction cs as [|c cs IH]; intros f; [reflexivity|].
  cbn [length replicate zip_with imap]. f_equal. apply (IH (f ∘ S)).
Qed.

Lemma replicate_3 {A} (x : A) m :
  replicate (3 * S m) x = x :: x :: x :: replicate (3 * m) x.
Proof. replace (3 * S m)%nat with (S (S (S (3 * m)))) by lia. reflexivity. Qed.

(** The E-step of a solid image whose color is nearest to centroid 0. *)
Lemma eStep_solid_first r g b n st m :
  nearestCentroid (colorOf r g b) (centroids st) = 0%nat ->
  length (clusterSums st) = (3 * S m)%nat ->
  length (clusterCounts st) = S m ->
  exists qr qg qb,
    fold_left (assignPixel (solid n r g b) (centroids st))
              (pixelIndices (solid n r g b))
              (fill0 (Fin 0) (clusterSums st), fill0 0%Z (clusterCounts st))
    = (Fin qr :: Fin qg :: Fin qb :: replicate (3 * m) (Fin 0),
       wrap32 (Z.of_nat n) :: replicate m 0%Z) /\
    qr == inject_Z (Z.of_nat n) * inject_Z r /\
    qg == inject_Z (Z.of_nat n) * inject_Z g /\
    qb == inject_Z (Z.of_nat n) * inject_Z b.
Proof.
  intros Hnear Hsums Hcounts. rewrite eStep_solid, Hnear. unfold fill0.
  rewrite Hsums, Hcounts, replicate_3. cbn [replicate].
  change (0%Z :: replicate m 0%Z) with (wrap32 0 :: replicate m 0%Z).
  destruct (iter_addPixel_0 r g b n 0 0 0 (replicate (3 * m) (Fin 0)) 0
              (replicate m 0%Z)) as (qr & qg & qb & E & Hr & Hg & Hb).
  exists qr, qg, qb. split; [exact E|]. rewrite Hr, Hg, Hb. repeat split; ring.
Qed.

(** One iteration on a solid image of [n] pixels, [0 < n < 2^31], from
    centroids that all have its color. *)
Lemma iteration_solid r g b n st c0 cs :
  (0 < n)%nat -> (Z.of_nat n < 2147483648)%Z ->
  centroids st = c0 :: cs -> Forall (hasColor r g b) (c0 :: cs) ->
  length (clusterSums st) = (3 * S (length cs))%nat ->
  length (clusterCounts st) = S (length cs) ->
  exists c0',
    hasColor r g b c0' /\
    centroids (iteration (solid n r g b) st) = c0' :: cs /\
    clusterCounts (iteration (solid n r g b) st)
    = Z.of_nat n :: replicate (length cs) 0%Z /\
    length (clusterSums (iteration (solid n r g b) st)) = (3 * S (length cs))%nat.
Proof.
  intros Hn Hn' Hc Hall Hsums Hcounts.
  destruct (eStep_solid_first r g b n st (length cs)) as (qr & qg & qb & E & Hr & Hg & Hb);
    [rewrite Hc; now apply nearestCentroid_solid | exact Hsums | exact Hcounts |].
  rewrite iteration_fold, E. cbn [fst snd centroids clusterCounts clusterSums].
  rewrite wrap32_id by (unfold int32; lia).
  assert (Hpos : (Z.of_nat n >? 0)%Z = true) by (apply Z.gtb_lt; lia).
  assert (Hnz : ~ inject_Z (Z.of_nat n) == 0).
  { change 0 with (inject_Z 0). rewrite inject_Z_injective. lia. }
  exists (mkRGB (Fin (qr / inject_Z (Z.of_nat n))) (Fin (qg / inject_Z (Z.of_nat n)))
                (Fin (qb / inject_Z (Z.of_nat n)))).
  split; [|split; [|split]].
  - eexists _, _, _. split; [reflexivity|].
    rewrite Hr, Hg, Hb. repeat split; now field.
  - rewrite Hc. unfold updateCentroids. cbn [zip_with imap]. rewrite Hpos.
    f_equal.
    + apply Qeq_bool_false in Hnz. unfold sumAt. cbn. now rewrite Hnz.
    + apply (updateCentroids_zeros _ cs S).
  - reflexivity.
  - cbn [length]. rewrite length_replicate. lia.
Qed.

(** *** The hexadecimal form of a byte *)

Lemma toHex_Qeq q v : q == inject_Z v -> toHex (Fin q) = toHex (fromZ v).
Proof.
  intros E. unfold toHex, Math_round, fromZ.
  now rewrite (Qfloor_comp (q + (1 # 2)) (inject_Z v + (1 # 2))) by now rewrite E.
Qed.

Lemma toHex_bytes :
  forallb (fun i => String.eqb (toHex (fromZ (Z.of_nat i))) (hexByte (Z.of_nat i)))
          (seq 0 256) = true.
Proof. vm_compute. reflexivity. Qed.

Lemma toHex_byte q v :
  q == inject_Z v -> (0 <= v <= 255)%Z -> toHex (Fin q) = hexByte v.
Proof.
  intros E Hv. rewrite (toHex_Qeq q v E).
  pose proof (proj1 (forallb_forall _ _) toHex_bytes (Z.to_nat v)) as H.
  cbv beta in H. rewrite Z2Nat.id in H by lia.
  apply String.eqb_eq, H, in_seq. lia.
Qed.

Lemma rgbToHex_hasColor r g b c :
  hasColor r g b c ->
  (0 <= r <= 255)%Z -> (0 <= g <= 255)%Z -> (0 <= b <= 255)%Z ->
  rgbToHex c = hexEncoding r g b.
Proof.
  intros (qr & qg & qb & -> & Er & Eg & Eb) Hr Hg Hb.
  rewrite rgbToHex_mk. unfold hexEncoding.
  now rewrite (toHex_byte qr r), (toHex_byte qg g), (toHex_byte qb b).
Qed.

(** *** Sampling a solid image *)

Lemma pixelCount_solid r g b n :
  pixelCount (solid n r g b) == inject_Z (Z.of_nat n).
Proof.
  unfold pixelCount. rewrite length_solid, Nat2Z.inj_mul, inject_Z_mult.
  change (inject_Z (Z.of_nat 4)) with 4. field.
Qed.

Lemma sampleCentroid_solid r g b n rnd i :
  (0 < n)%nat -> 0 <= rnd i < 1 ->
  sampleCentroid (solid n r g b) rnd i = colorOf r g b.
Proof.
  intros Hn [H0 H1]. unfold sampleCentroid.
  set (j := Qfloor (rnd i * pixelCount (solid n r g b))).
  assert (Hj : (0 <= j < Z.of_nat n)%Z).
  { unfold j. rewrite (Qfloor_comp _ _ (Qmult_comp _ _ (Qeq_refl (rnd i)) _ _
                                          (pixelCount_solid r g b n))).
    assert (Hn' : 0 < inject_Z (Z.of_nat n)).
    { change 0 with (inject_Z 0). rewrite <- Zlt_Qlt. lia. }
    split.
    - change 0%Z with (Qfloor 0). apply Qfloor_resp_le. nra.
    - rewrite Zlt_Qlt. eapply Qle_lt_trans; [apply Qfloor_le|]. nra. }
  unfold readByteZ.
  destruct (Z.ltb_spec (j * 4) 0); [lia|].
  destruct (Z.ltb_spec (j * 4 + 1) 0); [lia|].
  destruct (Z.ltb_spec (j * 4 + 2) 0); [lia|].
  replace (Z.to_nat (j * 4)) with (Z.to_nat j * 4)%nat by lia.
  replace (Z.to_nat (j * 4 + 1)) with (Z.to_nat j * 4 + 1)%nat by lia.
  replace (Z.to_nat (j * 4 + 2)) with (Z.to_nat j * 4 + 2)%nat by lia.
  destruct (readByte_solid r g b n (Z.to_nat j)) as (-> & -> & -> & _); [lia|].
  reflexivity.
Qed.

Lemma hasColor_colorOf r g b : hasColor r g b (colorOf r g b).
Proof. eexists _, _, _. split; [reflexivity|]. repeat split; reflexivity. Qed.

Lemma initCentroids_solid r g b n k rnd :
  (0 < n)%nat -> (forall i, 0 <= rnd i < 1) ->
  Forall (hasColor r g b) (initCentroids (solid n r g b) k rnd).
Proof.
  intros Hn Hrnd. unfold initCentroids. apply Forall_map, Forall_forall.
  intros i _. simpl. rewrite sampleCentroid_solid by easy. apply hasColor_colorOf.
Qed.

(** *** The iterations on a solid image *)

Lemma iteration_solidState r g b n cs st :
  (0 < n)%nat -> (Z.of_nat n < 2147483648)%Z ->
  solidState r g b cs st ->
  solidState r g b cs (iteration (solid n r g b) st) /\
  clusterCounts (iteration (solid n r g b) st)
  = Z.of_nat n :: replicate (length cs) 0%Z.
Proof.
  intros Hn Hn' (c0 & Hc & Hall & Hsums & Hcounts).
  destruct (iteration_solid r g b n st c0 cs Hn Hn' Hc Hall Hsums Hcounts)
    as (c0' & Hc0' & Ec & Ecounts & Esums).
  split; [|exact Ecounts].
  exists c0'. split; [exact Ec|]. split; [|split; [exact Esums|]].
  - constructor; [exact Hc0'|]. now apply Forall_cons_1 in Hall as [_ Hall].
  - rewrite Ecounts. cbn [length]. now rewrite length_replicate.
Qed.

Lemma iter_solidState r g b n cs st m :
  (0 < n)%nat -> (Z.of_nat n < 2147483648)%Z ->
  solidState r g b cs st ->
  solidState r g b cs (Nat.iter m (iteration (solid n r g b)) st).
Proof.
  intros Hn Hn' Hst. induction m as [|m IH]; [exact Hst|].
  rewrite Nat.iter_succ. now apply iteration_solidState.
Qed.

(** A solid image of [n] pixels, [0 < n < 2^31], gives one cluster: its
    population is [n] and its centroid has the color of the image. *)
Lemma quantizeColors_solid r g b n k rnd :
  (0 < n)%nat -> (Z.of_nat n < 2147483648)%Z -> (1 <= k)%Z ->
  (forall i, 0 <= rnd i < 1) ->
  exists c0 x,
    hasColor r g b c0 /\ toPaletteColor c0 (Z.of_nat n) = Some x /\
    quantizeColors (solid n r g b) k rnd = Ok [x].
Proof.
  intros Hn Hn' Hk Hrnd.
  destruct (initClusters_Ok (solid n r g b) k rnd ltac:(lia))
    as (st & E & _ & Hc & Hsums & Hcounts).
  pose proof (initCentroids_solid r g b n k rnd Hn Hrnd) as Hall.
  pose proof (length_initCentroids (solid n r g b) k rnd) as Hlen.
  rewrite <- Hc in Hall, Hlen.
  destruct (centroids st) as [|c0 cs] eqn:Ec; [cbn [length] in Hlen; lia|].
  cbn [length] in Hlen.
  assert (Hst : solidState r g b cs st).
  { exists c0. split; [exact Ec|]. split; [exact Hall|].
    rewrite Hsums, Hcounts, !length_replicate. lia. }
  destruct (iteration_solidState r g b n cs _ Hn Hn'
              (iter_solidState r g b n cs st 4 Hn Hn' Hst))
    as ((c0' & Ec' & Hall' & _ & _) & Ecounts).
  rewrite <- kMeans_last in Ec', Ecounts.
  apply Forall_cons_1 in Hall' as [Hc0' _].
  destruct (toPaletteColor c0' (Z.of_nat n)) as [x|] eqn:Ex.
  - exists c0', x. split; [exact Hc0'|]. split; [exact Ex|].
    unfold quantizeColors. rewrite E, materialize_survivors, Ec', Ecounts.
    cbn [zip_with]. now rewrite survivors_cons, Ex, survivors_zeros.
  - unfold toPaletteColor in Ex.
    destruct (Z.eqb_spec (Z.of_nat n) 0); [lia | discriminate].
Qed.

(** With a single centroid every pixel of a solid image is counted in
    cluster 0, and the count wraps around as the [Int32Array] does. *)
Lemma iteration_single r g b n st :
  length (centroids st) = 1%nat -> length (clusterSums st) = 3%nat ->
  length (clusterCounts st) = 1%nat ->
  let st' := iteration (solid n r g b) st in
  length (centroids st') = 1%nat /\ length (clusterSums st') = 3%nat /\
  clusterCounts st' = [wrap32 (Z.of_nat n)].
Proof.
  intros Hc Hsums Hcounts.
  destruct (centroids st) as [|c [|]] eqn:Ec; try discriminate.
  destruct (eStep_solid_first r g b n st 0) as (qr & qg & qb & E & _);
    [rewrite Ec; apply nearestCentroid_single | exact Hsums | exact Hcounts |].
  cbv zeta. rewrite iteration_fold, E.
  cbn [fst snd centroids clusterSums clusterCounts replicate Nat.mul].
  split; [|split]; [|reflexivity|reflexivity].
  now rewrite length_updateCentroids, Ec.
Qed.

Lemma quantizeColors_single r g b n rnd :
  wrap32 (Z.of_nat n) <> 0%Z ->
  exists x, quantizeColors (solid n r g b) 1 rnd = Ok [x] /\
            population x = wrap32 (Z.of_nat n).
Proof.
  intros Hw.
  destruct (initClusters_Ok (solid n r g b) 1 rnd ltac:(lia))
    as (st & E & _ & Hc & Hsums & Hcounts).
  assert (H : forall m, let st' := Nat.iter m (iteration (solid n r g b)) st in
                        length (centroids st') = 1%nat /\
                        length (clusterSums st') = 3%nat /\
                        length (clusterCounts st') = 1%nat).
  { induction m as [|m (H1 & H2 & H3)].
    - cbv zeta. change (Nat.iter 0 (iteration (solid n r g b)) st) with st.
      now rewrite Hc, Hsums, Hcounts, length_initCentroids, !length_replicate.
    - cbv zeta. rewrite Nat.iter_succ.
      destruct (iteration_single r g b n _ H1 H2 H3) as (H1' & H2' & H3').
      now rewrite H3'. }
  destruct (H 4%nat) as (H1 & H2 & H3).
  destruct (iteration_single r g b n _ H1 H2 H3) as (H1' & _ & H3').
  rewrite <- kMeans_last in H1', H3'.
  destruct (centroids (kMeans (solid n r g b) st)) as [|c [|]] eqn:Ec; try discriminate.
  destruct (toPaletteColor c (wrap32 (Z.of_nat n))) as [x|] eqn:Ex.
  - exists x. split; [|apply (toPaletteColor_Some _ _ _ Ex)].
    unfold quantizeColors. rewrite E, materialize_survivors, Ec, H3'.
    cbn [zip_with]. now rewrite survivors_cons, Ex.
  - unfold toPaletteColor in Ex.
    destruct (Z.eqb_spec (wrap32 (Z.of_nat n)) 0); [easy | discriminate].
Qed.

(** C2 (as amended): for every [n] with [1 <= n < 2^31], every [k >= 1],
    every color of bytes and every random source (values in [0, 1)),
    quantizing [n] opaque pixels of that color gives exactly one cluster;
    its population is [n] and its [hex] is the lowercase hexadecimal
    encoding of the color. *)
Theorem solid_image_one_cluster (n : nat) (r g b k : Z) (rnd : nat -> Q) :
  (1 <= n)%nat -> (Z.of_nat n < 2147483648)%Z -> (1 <= k)%Z ->
  (0 <= r <= 255)%Z -> (0 <= g <= 255)%Z -> (0 <= b <= 255)%Z ->
  (forall i, 0 <= rnd i < 1) ->
  exists c,
    quantizeColors (solid n r g b) k rnd = Ok [c] /\
    population c = Z.of_nat n /\
    hex c = hexEncoding r g b.
Proof.
  intros Hn Hn' Hk Hr Hg Hb Hrnd.
  destruct (quantizeColors_solid r g b n k rnd ltac:(lia) Hn' Hk Hrnd)
    as (c0 & x & Hc0 & Ex & E).
  exists x. split; [exact E|].
  destruct (toPaletteColor_Some _ _ _ Ex) as (_ & Hp & _ & Hh & _).
  split; [exact Hp|]. rewrite Hh. now apply rgbToHex_hasColor.
Qed.

Lemma solid_image_one_cluster_witness :
  exists c,
    quantizeColors (solid 100 255 0 0) 8 (fun _ => 1 # 2) = Ok [c] /\
    population c = 100%Z /\ hex c = "#ff0000"%string.
Proof.
  apply (solid_image_one_cluster 100 255 0 0 8 (fun _ => 1 # 2)); try lia.
  intros _. split; [discriminate | reflexivity].
Defined.

(** C1 as stated fails: on [2^31] opaque pixels of one color (a buffer of
    [2^33] bytes) and [k = 1] the count of the only cluster wraps around to
    [-2^31], and the entry returned has that population. *)
Lemma population_wraps_negative :
  (0 <= 1)%Z /\
  exists colors,
    quantizeColors (solid (Z.to_nat 2147483648) 255 0 0) 1 (fun _ => 0) = Ok colors /\
    ~ Forall (fun c => (1 <= population c)%Z) colors.
Proof.
  split; [lia|].
  assert (Hw : wrap32 (Z.of_nat (Z.to_nat 2147483648)) = (-2147483648)%Z).
  { rewrite Z2Nat.id by lia. reflexivity. }
  destruct (quantizeColors_single 255 0 0 (Z.to_nat 2147483648) (fun _ => 0))
    as (x & E & Hp).
  - rewrite Hw. discriminate.
  - exists [x]. split; [exact E|]. rewrite Forall_singleton, Hp, Hw. lia.
Qed.

(** C2 as stated fails: for [N = 2^31] and [k = 1] the population of the
    cluster is [-2^31], not [N]. *)
Lemma solid_population_wraps :
  (1 <= Z.to_nat 2147483648)%nat /\ (1 <= 1)%Z /\
  exists c,
    quantizeColors (solid (Z.to_nat 2147483648) 255 0 0) 1 (fun _ => 0) = Ok [c] /\
    population c <> Z.of_nat (Z.to_nat 2147483648).
Proof.
  split; [lia|]. split; [lia|].
  assert (Hn : Z.of_nat (Z.to_nat 2147483648) = 2147483648%Z) by (apply Z2Nat.id; lia).
  assert (Hw : wrap32 (Z.of_nat (Z.to_nat 2147483648)) = (-2147483648)%Z).
  { rewrite Hn. reflexivity. }
  destruct (quantizeColors_single 255 0 0 (Z.to_nat 2147483648) (fun _ => 0))
    as (x & E & Hp).
  - rewrite Hw. discriminate.
  - exists x. split; [exact E|]. rewrite Hp, Hw, Hn. discriminate.
Qed.

(** ** The distance and the scan for the nearest centroid *)

Lemma scanned_snoc_NaN p seen minDist ci c :
  scanned p seen minDist ci -> colorDistanceSq p c = NaN ->
  scanned p (seen ++ [c]) minDist ci.
Proof.
  intros H Hc. destruct minDist as [|m]; cbn [scanned] in *.
  - destruct H as [-> H]. split; [easy|]. apply Forall_app. split; [easy|].
    now constructor.
  - destruct H as [(c0 & Hc0 & Hd0) H]. split.
    + exists c0. split; [|easy]. now apply lookup_app_l_Some.
    + intros j cj d Hj Hd. apply lookup_app_Some in Hj as [Hj|[_ Hj]].
      * now apply (H j cj d).
      * apply list_lookup_singleton_Some in Hj as [_ <-]. congruence.
Qed.

Lemma scanCentroids_scanned p rest seen minDist ci :
  scanned p seen minDist ci ->
  exists minDist',
    scanned p (seen ++ rest) minDist'
            (scanCentroids p rest (length seen) minDist ci).
Proof.
  revert seen minDist ci. induction rest as [|c rest IH]; intros seen minDist ci H.
  - exists minDist. now rewrite app_nil_r.
  - cbn [scanCentroids].
    replace (seen ++ c :: rest) with ((seen ++ [c]) ++ rest) by now rewrite <- app_assoc.
    replace (S (length seen)) with (length (seen ++ [c]))
      by (rewrite length_app; simpl; lia).
    destruct (colorDistanceSq p c) as [d|] eqn:Ed.
    + destruct (below d minDist) eqn:Eb.
      * apply IH. cbn [scanned]. split.
        -- exists c. split; [|exact Ed]. now rewrite lookup_app_r, Nat.sub_diag.
        -- intros j cj dj Hj Hdj. apply lookup_app_Some in Hj as [Hj|[Hlen Hj]].
           ++ pose proof (lookup_lt_Some _ _ _ Hj) as Hlt.
              destruct minDist as [|m]; cbn [scanned below] in *.
              ** destruct H as [_ H]. rewrite Forall_forall in H.
                 pose proof (H cj (list_elem_of_lookup_2 _ _ _ Hj)). congruence.
              ** destruct H as [_ H]. apply Qlt_bool_iff in Eb.
                 destruct (H j cj dj Hj Hdj) as [Hle _]. split; [lra|]. intros _. lra.
           ++ apply list_lookup_singleton_Some in Hj as [Hj0 <-].
              rewrite Ed in Hdj. injection Hdj as <-. split; [lra|]. lia.
      * apply IH. destruct minDist as [|m]; [discriminate|].
        cbn [scanned below] in *. apply Qlt_bool_false in Eb.
        destruct H as [(c0 & Hc0 & Hd0) H]. split.
        -- exists c0. split; [|easy]. now apply lookup_app_l_Some.
        -- intros j cj dj Hj Hdj. apply lookup_app_Some in Hj as [Hj|[Hlen Hj]].
           ++ now apply (H j cj dj).
           ++ apply list_lookup_singleton_Some in Hj as [Hj0 <-].
              rewrite Ed in Hdj. injection Hdj as <-. split; [lra|].
              pose proof (lookup_lt_Some _ _ _ Hc0). lia.
    + apply IH. now apply scanned_snoc_NaN.
Qed.

Lemma nearestCentroid_scanned p centroids :
  exists minDist, scanned p centroids minDist (nearestCentroid p centroids).
Proof.
  destruct (scanCentroids_scanned p centroids [] Infinity 0%nat) as [m H].
  - split; [reflexivity | constructor].
  - now exists m.
Qed.

Lemma nearestCentroid_lt p centroids :
  centroids <> [] -> (nearestCentroid p centroids < length centroids)%nat.
Proof.
  intros Hne. destruct (nearestCentroid_scanned p centroids) as [[|m] H];
    cbn [scanned] in H.
  - destruct H as [-> _]. destruct centroids; [easy | simpl; lia].
  - destruct H as [(c & Hc & _) _]. now apply lookup_lt_Some in Hc.
Qed.

(** X6: the cluster index chosen for a pixel is the one of a centroid
    at the least distance: no centroid whose distance is a number is
    nearer, and every such centroid of a lower index is strictly farther,
    so that ties go to the lowest index. *)
Theorem nearestCentroid_nearest p cs j c d :
  cs !! j = Some c -> colorDistanceSq p c = Fin d ->
  exists c0 m,
    cs !! nearestCentroid p cs = Some c0 /\
    colorDistanceSq p c0 = Fin m /\
    m <= d /\
    ((j < nearestCentroid p cs)%nat -> m < d).
Proof.
  intros Hj Hd. destruct (nearestCentroid_scanned p cs) as [[|m] H]; cbn [scanned] in H.
  - destruct H as [_ H]. rewrite List.Forall_forall in H.
    apply list_elem_of_lookup_2, list_elem_of_In, H in Hj. congruence.
  - destruct H as [(c0 & E0 & Em) H]. exists c0, m.
    split; [exact E0|]. split; [exact Em|]. exact (H j c d Hj Hd).
Qed.

Lemma nearestCentroid_nearest_witness :
  [colorOf 0 0 0; colorOf 250 0 0; colorOf 255 10 0] !! 2%nat
  = Some (colorOf 255 10 0) /\
  colorDistanceSq (colorOf 255 0 0) (colorOf 255 10 0) = Fin 100 /\
  exists c0 m,
    [colorOf 0 0 0; colorOf 250 0 0; colorOf 255 10 0] !! 
      nearestCentroid (colorOf 255 0 0) [colorOf 0 0 0; colorOf 250 0 0; colorOf 255 10 0]
    = Some c0 /\
    colorDistanceSq (colorOf 255 0 0) c0 = Fin m /\
    m <= 100 /\
    ((2 < nearestCentroid (colorOf 255 0 0)
             [colorOf 0 0 0; colorOf 250 0 0; colorOf 255 10 0])%nat -> m < 100).
Proof.
  split; [reflexivity|]. split; [reflexivity|].
  apply (nearestCentroid_nearest (colorOf 255 0 0)
           [colorOf 0 0 0; colorOf 250 0 0; colorOf 255 10 0] 2 (colorOf 255 10 0) 100);
    reflexivity.
Defined.

(** ** Every opaque pixel is counted once *)

Lemma assignPixel_visited pixels cs acc i :
  skipped pixels i = false ->
  assignPixel pixels cs acc i
  = addPixel (pixelAt pixels i) (nearestCentroid (pixelAt pixels i) cs) acc.
Proof.
  unfold skipped, assignPixel. intros ->. now destruct acc.
Qed.

Lemma sumZ_incrAt_exact counts c m :
  (c < length counts)%nat -> (m + 1 < 2147483648)%Z ->
  Forall (fun x => 0 <= x <= m)%Z counts ->
  sumZ (incrAt counts c) = (sumZ counts + 1)%Z.
Proof.
  unfold incrAt. revert c. induction counts as [|x xs IH]; intros c Hc Hm Hall.
  - simpl in Hc. lia.
  - inversion Hall as [|? ? Hx Hxs]; subst. destruct c as [|c]; simpl.
    + rewrite wrap32_id by (unfold int32; lia). lia.
    + specialize (IH c ltac:(simpl in Hc; lia) Hm Hxs). unfold alter in IH. lia.
Qed.

(** With at least one centroid and counts that do not wrap, an E-step
    counts every pixel it visits exactly once. *)
Lemma eStep_sum_exact pixels cs ixs acc m :
  cs <> [] -> length (snd acc) = length cs ->
  (m + Z.of_nat (length ixs) < 2147483648)%Z ->
  Forall (fun x => 0 <= x <= m)%Z (snd acc) ->
  sumZ (snd (fold_left (assignPixel pixels cs) ixs acc))
  = (sumZ (snd acc) + visited pixels ixs)%Z.
Proof.
  intros Hcs. revert acc m. induction ixs as [|i ixs IH]; intros acc m Hlen Hm Hall.
  - unfold visited. simpl. lia.
  - cbn [fold_left length] in *. rewrite Nat2Z.inj_succ in Hm.
    rewrite visited_cons. destruct (skipped pixels i) eqn:Hs.
    + rewrite assignPixel_skipped by easy. rewrite (IH acc (m + 1)%Z); [lia|easy|lia|].
      eapply Forall_impl; [exact Hall|]. simpl. intros; lia.
    + rewrite assignPixel_visited by easy.
      rewrite (IH _ (m + 1)%Z).
      * cbn [addPixel snd]. rewrite (sumZ_incrAt_exact _ _ m); [lia| |lia|easy].
        rewrite Hlen. now apply nearestCentroid_lt.
      * cbn [addPixel snd]. now rewrite length_incrAt.
      * lia.
      * cbn [addPixel snd]. apply incrAt_range; [lia | easy].
Qed.

(** What [quantizeColors] returns on a buffer of fewer than 2^31 pixels,
    four bytes each, for [k >= 1]: no population below 1, and populations
    that add up to the number of opaque pixels. *)
Lemma quantizeColors_populations pixels k rnd :
  (length pixels mod 4 = 0)%nat ->
  (Z.of_nat (length pixels) <= 4 * 2147483647)%Z ->
  (1 <= k)%Z ->
  exists colors,
    quantizeColors pixels k rnd = Ok colors /\
    Forall (fun c => 1 <= population c)%Z colors /\
    sumZ (populations colors) = opaquePixels pixels.
Proof.
  intros Hmod Hl Hk.
  destruct (quantizeColors_Ok pixels k rnd ltac:(lia)) as (st & _ & Hs & Hc & ->).
  eexists. split; [reflexivity|].
  destruct (iter_shaped pixels st 4 Hs) as [Hs4 Hc4].
  destruct (iter_shaped pixels st maxIterations Hs) as [Hs' Hc'].
  fold (kMeans pixels st) in Hs', Hc'. unfold shaped in Hs', Hs4.
  destruct (survivors_spec (zip (centroids (kMeans pixels st))
                                (clusterCounts (kMeans pixels st))))
    as (_ & H2 & H3).
  rewrite snd_zip in H2, H3 by lia. rewrite <- materialize_survivors in H2, H3.
  pose proof (iteration_range pixels (Nat.iter 4 (iteration pixels) st) Hl) as Hr.
  rewrite <- kMeans_last in Hr. split.
  - rewrite (sort_perm _). eapply Forall_impl; [exact H2|].
    intros x (Hx & Hin & _). simpl. rewrite Forall_forall in Hr.
    specialize (Hr _ Hin). lia.
  - unfold populations. rewrite (sumZ_perm _ _ (Permutation_map _ (sort_perm _))).
    fold (populations (materialize (kMeans pixels st))). rewrite H3.
    rewrite kMeans_last, iteration_fold. cbn [clusterCounts snd].
    set (st4 := Nat.iter 4 (iteration pixels) st) in *.
    rewrite (eStep_sum_exact pixels (centroids st4) (pixelIndices pixels) _ 0).
    + cbn [snd]. unfold fill0. rewrite sumZ_zeros, visited_opaque by easy. lia.
    + intros E. rewrite E in Hc4. simpl in Hc4. lia.
    + cbn [snd]. now rewrite length_fill0.
    + rewrite pixelIndices_seq, length_seq, Nat2Z.inj_div, Nat2Z.inj_add.
      simpl (Z.of_nat 3). simpl (Z.of_nat 4).
      assert ((Z.of_nat (length pixels) + 3) / 4 < 2147483648)%Z; [|lia].
      apply Z.div_lt_upper_bound; lia.
    + cbn [snd]. unfold fill0. apply Forall_replicate. lia.
Qed.

(** X8: on a buffer of fewer than 2^31 whole pixels and for [k >= 1]
    the populations returned by [quantizeColors] add up to exactly the
    number of pixels whose alpha channel is at least 128: every opaque
    pixel is counted once. *)
Theorem quantizeColors_counts_opaque_pixels pixels k rnd :
  (length pixels mod 4 = 0)%nat ->
  (Z.of_nat (length pixels) <= 4 * 2147483647)%Z ->
  (1 <= k)%Z ->
  exists colors,
    quantizeColors pixels k rnd = Ok colors /\
    sumZ (populations colors) = opaquePixels pixels.
Proof.
  intros Hmod Hl Hk.
  destruct (quantizeColors_populations pixels k rnd Hmod Hl Hk) as (colors & E & _ & H).
  now exists colors.
Qed.

Lemma quantizeColors_counts_opaque_pixels_witness :
  (length [255; 0; 0; 255; 0; 0; 255; 128; 7; 7; 7; 127]%Z mod 4 = 0)%nat /\
  (Z.of_nat (length [255; 0; 0; 255; 0; 0; 255; 128; 7; 7; 7; 127]%Z)
   <= 4 * 2147483647)%Z /\
  (1 <= 2)%Z /\
  exists colors,
    quantizeColors [255; 0; 0; 255; 0; 0; 255; 128; 7; 7; 7; 127]%Z 2
                   (fun i => inject_Z (Z.of_nat i) / 2) = Ok colors /\
    sumZ (populations colors)
    = opaquePixels [255; 0; 0; 255; 0; 0; 255; 128; 7; 7; 7; 127]%Z.
Proof.
  split; [reflexivity|]. split; [simpl; lia|]. split; [lia|].
  apply (quantizeColors_counts_opaque_pixels
           [255; 0; 0; 255; 0; 0; 255; 128; 7; 7; 7; 127]%Z 2
           (fun i => inject_Z (Z.of_nat i) / 2)); [reflexivity | simpl; lia | lia].
Defined.

Lemma sumZ_positive xs : Forall (fun x => 1 <= x)%Z xs -> xs <> [] -> (0 < sumZ xs)%Z.
Proof.
  intros H Hne. destruct H as [|x xs Hx Hxs]; [easy|]. simpl.
  assert (0 <= sumZ xs)%Z; [|lia].
  clear -Hxs. induction Hxs; simpl; lia.
Qed.

Lemma quantizeColors_empty pixels k rnd :
  (length pixels mod 4 = 0)%nat ->
  (Z.of_nat (length pixels) <= 4 * 2147483647)%Z ->
  (1 <= k)%Z ->
  exists colors,
    quantizeColors pixels k rnd = Ok colors /\
    (colors = [] <-> opaquePixels pixels = 0%Z).
Proof.
  intros Hmod Hl Hk.
  destruct (quantizeColors_populations pixels k rnd Hmod Hl Hk) as (colors & E & Hp & H).
  exists colors. split; [exact E|]. rewrite <- H. split.
  - now intros ->.
  - intros H0. destruct colors as [|c colors]; [reflexivity|].
    assert (0 < sumZ (populations (c :: colors)))%Z; [|lia].
    apply sumZ_positive; [|easy].
    unfold populations. now apply Forall_fmap.
Qed.

(** X9: on a buffer of fewer than 2^31 whole pixels and for [k >= 1]
    [quantizeColors] returns the empty sequence exactly when no pixel has
    an alpha channel of at least 128. *)
Theorem quantizeColors_empty_iff_no_opaque_pixel pixels k rnd :
  (length pixels mod 4 = 0)%nat ->
  (Z.of_nat (length pixels) <= 4 * 2147483647)%Z ->
  (1 <= k)%Z ->
  exists colors,
    quantizeColors pixels k rnd = Ok colors /\
    (colors = [] <-> opaquePixels pixels = 0%Z).
Proof. apply quantizeColors_empty. Qed.

Lemma quantizeColors_empty_iff_no_opaque_pixel_witness :
  (length [255; 0; 0; 255; 0; 0; 255; 128; 7; 7; 7; 127]%Z mod 4 = 0)%nat /\
  (Z.of_nat (length [255; 0; 0; 255; 0; 0; 255; 128; 7; 7; 7; 127]%Z)
   <= 4 * 2147483647)%Z /\
  (1 <= 2)%Z /\
  exists colors,
    quantizeColors [255; 0; 0; 255; 0; 0; 255; 128; 7; 7; 7; 127]%Z 2
                   (fun i => inject_Z (Z.of_nat i) / 2) = Ok colors /\
    (colors = []
     <-> opaquePixels [255; 0; 0; 255; 0; 0; 255; 128; 7; 7; 7; 127]%Z = 0%Z).
Proof.
  split; [reflexivity|]. split; [simpl; lia|]. split; [lia|].
  apply (quantizeColors_empty_iff_no_opaque_pixel
           [255; 0; 0; 255; 0; 0; 255; 128; 7; 7; 7; 127]%Z 2
           (fun i => inject_Z (Z.of_nat i) / 2)); [reflexivity | simpl; lia | lia].
Defined.

(** ** The order of the pixels *)

Lemma assignPixel_shift a c d e rest cs acc i :
  assignPixel (a :: c :: d :: e :: rest) cs acc (S i) = assignPixel rest cs acc i.
Proof. reflexivity. Qed.

Lemma eStep_shift a c d e rest cs ixs acc :
  fold_left (assignPixel (a :: c :: d :: e :: rest) cs) (map S ixs) acc
  = fold_left (assignPixel rest cs) ixs acc.
Proof.
  revert acc. induction ixs as [|i ixs IH]; intros acc; [reflexivity|].
  cbn [map fold_left]. now rewrite assignPixel_shift, IH.
Qed.

Lemma assignPixel_head r g b a rest cs acc :
  assignPixel (r :: g :: b :: a :: rest) cs acc 0
  = if (a <? 128)%Z then acc else addColor cs acc (r, g, b).
Proof.
  unfold assignPixel. cbn [Nat.mul Nat.add readByte lookup list_lookup].
  change (Fin (inject_Z a) <? Fin 128)%num with (Qlt_bool (inject_Z a) (inject_Z 128)).
  rewrite Qlt_bool_inject. destruct (a <? 128)%Z; [reflexivity|]. now destruct acc.
Qed.

Lemma eStep_opaqueColors pixels cs acc :
  (length pixels mod 4 = 0)%nat ->
  fold_left (assignPixel pixels cs) (pixelIndices pixels) acc
  = fold_left (addColor cs) (opaqueColors pixels) acc.
Proof.
  revert acc. induction pixels as [| | | |r g b a rest IH] using list4_ind;
    intros acc Hl; try easy.
  rewrite pixelIndices_cons4. cbn [fold_left opaqueColors].
  rewrite eStep_shift, assignPixel_head, IH.
  - now destruct (a <? 128)%Z.
  - cbn [length] in Hl.
    replace (S (S (S (S (length rest))))) with (length rest + 1 * 4)%nat in Hl by lia.
    now rewrite Nat.Div0.mod_add in Hl.
Qed.

Lemma nadd_swap (x v w : num) : (x + v + w)%num = (x + w + v)%num.
Proof.
  destruct x as [[xn xd]|], v as [[vn vd]|], w as [[wn wd]|]; try reflexivity.
  cbn [nadd lift2]. f_equal. unfold Qplus. cbn [Qnum Qden]. f_equal.
  - rewrite !Pos2Z.inj_mul. ring.
  - now rewrite <- !Pos.mul_assoc, (Pos.mul_comm vd wd).
Qed.

Lemma addAt_swap l i v j w : addAt (addAt l j w) i v = addAt (addAt l i v) j w.
Proof.
  unfold addAt. destruct (decide (i = j)) as [->|Hne].
  - rewrite !list_alter_alter_eq. apply list_alter_ext; [|reflexivity].
    intros x _. cbn. apply nadd_swap.
  - now apply list_alter_alter_ne.
Qed.

Lemma incrAt_swap l i j : incrAt (incrAt l j) i = incrAt (incrAt l i) j.
Proof.
  unfold incrAt. destruct (decide (i = j)) as [->|Hne]; [reflexivity|].
  now apply list_alter_alter_ne.
Qed.

Lemma addPixel_swap p c p' c' acc :
  addPixel p c (addPixel p' c' acc) = addPixel p' c' (addPixel p c acc).
Proof.
  unfold addPixel. cbn [fst snd]. f_equal; [|apply incrAt_swap].
  rewrite (addAt_swap _ (c * 3) (r p) (c' * 3 + 2) (b p')).
  rewrite (addAt_swap _ (c * 3) (r p) (c' * 3 + 1) (g p')).
  rewrite (addAt_swap _ (c * 3) (r p) (c' * 3) (r p')).
  rewrite (addAt_swap _ (c * 3 + 1) (g p) (c' * 3 + 2) (b p')).
  rewrite (addAt_swap _ (c * 3 + 1) (g p) (c' * 3 + 1) (g p')).
  rewrite (addAt_swap _ (c * 3 + 1) (g p) (c' * 3) (r p')).
  rewrite (addAt_swap _ (c * 3 + 2) (b p) (c' * 3 + 2) (b p')).
  rewrite (addAt_swap _ (c * 3 + 2) (b p) (c' * 3 + 1) (g p')).
  rewrite (addAt_swap _ (c * 3 + 2) (b p) (c' * 3) (r p')).
  reflexivity.
Qed.

Lemma addColor_swap cs acc x y :
  addColor cs (addColor cs acc x) y = addColor cs (addColor cs acc y) x.
Proof. destruct x as [[? ?] ?], y as [[? ?] ?]. apply addPixel_swap. Qed.

Lemma eStep_permutation cs xs ys acc :
  xs ≡ₚ ys -> fold_left (addColor cs) xs acc = fold_left (addColor cs) ys acc.
Proof.
  intros H. revert acc. induction H as [|x xs ys _ IH|x y xs|xs ys zs _ IH1 _ IH2];
    intros acc; cbn [fold_left].
  - reflexivity.
  - apply IH.
  - now rewrite addColor_swap.
  - now rewrite IH1.
Qed.

Lemma iteration_opaqueColors p q st :
  (length p mod 4 = 0)%nat -> (length q mod 4 = 0)%nat ->
  opaqueColors p ≡ₚ opaqueColors q ->
  iteration p st = iteration q st.
Proof.
  intros Hp Hq H. rewrite !iteration_fold, !eStep_opaqueColors by assumption.
  now rewrite (eStep_permutation _ _ _ _ H).
Qed.

(** X10: [quantizeColors] depends on the buffer only through the
    sampled centroids and the colors of its opaque pixels, whatever their
    order: two buffers of whole pixels whose opaque pixels have the same
    colors up to a permutation, sampled to the same initial centroids,
    give the same result.  Transparent pixels, values of alpha on either
    side of 128 and the order of the pixels make no difference. *)
Theorem quantizeColors_opaque_colors p q k rnd rnd' :
  (length p mod 4 = 0)%nat -> (length q mod 4 = 0)%nat ->
  opaqueColors p ≡ₚ opaqueColors q ->
  initCentroids p k rnd = initCentroids q k rnd' ->
  quantizeColors p k rnd = quantizeColors q k rnd'.
Proof.
  intros Hp Hq H Hc.
  assert (E : forall n st, Nat.iter n (iteration p) st = Nat.iter n (iteration q) st).
  { induction n as [|n IH]; intros st; [reflexivity|].
    rewrite !Nat.iter_succ, IH. now apply iteration_opaqueColors. }
  unfold quantizeColors, initClusters. rewrite Hc.
  destruct (k * 3 <? 0)%Z; [reflexivity|]. destruct (k <? 0)%Z; [reflexivity|].
  unfold kMeans. now rewrite E.
Qed.

Lemma quantizeColors_opaque_colors_witness :
  (length [255; 0; 0; 255; 1; 2; 3; 0; 0; 0; 255; 200]%Z mod 4 = 0)%nat /\
  (length [0; 0; 255; 128; 255; 0; 0; 255]%Z mod 4 = 0)%nat /\
  opaqueColors [255; 0; 0; 255; 1; 2; 3; 0; 0; 0; 255; 200]%Z
  ≡ₚ opaqueColors [0; 0; 255; 128; 255; 0; 0; 255]%Z /\
  initCentroids [255; 0; 0; 255; 1; 2; 3; 0; 0; 0; 255; 200]%Z 2
                (fun i => if Nat.eqb i 0 then 0 else 2 # 3)
  = initCentroids [0; 0; 255; 128; 255; 0; 0; 255]%Z 2
                  (fun i => if Nat.eqb i 0 then 1 # 2 else 0) /\
  quantizeColors [255; 0; 0; 255; 1; 2; 3; 0; 0; 0; 255; 200]%Z 2
                 (fun i => if Nat.eqb i 0 then 0 else 2 # 3)
  = quantizeColors [0; 0; 255; 128; 255; 0; 0; 255]%Z 2
                   (fun i => if Nat.eqb i 0 then 1 # 2 else 0).
Proof.
  split; [reflexivity|]. split; [reflexivity|].
  split; [apply perm_swap|]. split; [reflexivity|].
  apply (quantizeColors_opaque_colors
           [255; 0; 0; 255; 1; 2; 3; 0; 0; 0; 255; 200]%Z
           [0; 0; 255; 128; 255; 0; 0; 255]%Z 2
           (fun i => if Nat.eqb i 0 then 0 else 2 # 3)
           (fun i => if Nat.eqb i 0 then 1 # 2 else 0));
    [reflexivity | reflexivity | apply perm_swap | reflexivity].
Defined.

(** ** The sampled centroids *)

(** X5: on a non-empty buffer of whole pixels, with a random source in
    [0, 1), the sampling yields [k] centroids and each of them is the color
    of a pixel of the buffer, opaque or not: the alpha channel is not
    read. *)
Theorem initCentroids_sampled pixels k rnd :
  (length pixels mod 4 = 0)%nat -> pixels <> [] ->
  (forall i, 0 <= rnd i < 1) ->
  length (initCentroids pixels k rnd) = Z.to_nat k /\
  Forall (fun c => exists i, (i * 4 + 3 < length pixels)%nat /\ c = pixelAt pixels i)
         (initCentroids pixels k rnd).
Proof.
  intros Hmod Hne Hrnd. unfold initCentroids. split; [now rewrite length_map, length_seq|].
  apply List.Forall_map, List.Forall_forall. intros i _.
  destruct (Hrnd i) as [H0 H1]. unfold sampleCentroid.
  set (n := (length pixels / 4)%nat).
  assert (Hlen : length pixels = (n * 4)%nat).
  { unfold n. pose proof (Nat.div_mod_eq (length pixels) 4). lia. }
  assert (Hn : (0 < n)%nat) by (destruct pixels; [easy | simpl in Hlen; lia]).
  assert (Epc : pixelCount pixels == inject_Z (Z.of_nat n)).
  { unfold pixelCount. rewrite Hlen, Nat2Z.inj_mul, inject_Z_mult.
    change (inject_Z (Z.of_nat 4)) with 4. field. }
  set (j := Qfloor (rnd i * pixelCount pixels)).
  assert (Hj : (0 <= j < Z.of_nat n)%Z).
  { unfold j. rewrite (Qfloor_comp _ _ (Qmult_comp _ _ (Qeq_refl (rnd i)) _ _ Epc)).
    assert (Hn' : 0 < inject_Z (Z.of_nat n)).
    { change 0 with (inject_Z 0). rewrite <- Zlt_Qlt. lia. }
    split.
    - change 0%Z with (Qfloor 0). apply Qfloor_resp_le. nra.
    - rewrite Zlt_Qlt. eapply Qle_lt_trans; [apply Qfloor_le|]. nra. }
  exists (Z.to_nat j). split; [lia|]. unfold readByteZ, pixelAt.
  destruct (Z.ltb_spec (j * 4) 0); [lia|].
  destruct (Z.ltb_spec (j * 4 + 1) 0); [lia|].
  destruct (Z.ltb_spec (j * 4 + 2) 0); [lia|].
  replace (Z.to_nat (j * 4)) with (Z.to_nat j * 4)%nat by lia.
  replace (Z.to_nat (j * 4 + 1)) with (Z.to_nat j * 4 + 1)%nat by lia.
  replace (Z.to_nat (j * 4 + 2)) with (Z.to_nat j * 4 + 2)%nat by lia.
  reflexivity.
Qed.

Lemma initCentroids_sampled_witness :
  (length [200; 30; 30; 255; 20; 20; 60; 0]%Z mod 4 = 0)%nat /\
  [200; 30; 30; 255; 20; 20; 60; 0]%Z <> [] /\
  (forall i : nat, 0 <= (fun _ => 1 # 2) i < 1) /\
  length (initCentroids [200; 30; 30; 255; 20; 20; 60; 0]%Z 3 (fun _ => 1 # 2))
  = Z.to_nat 3 /\
  Forall (fun c => exists i,
              (i * 4 + 3 < length [200; 30; 30; 255; 20; 20; 60; 0]%Z)%nat /\
              c = pixelAt [200; 30; 30; 255; 20; 20; 60; 0]%Z i)
         (initCentroids [200; 30; 30; 255; 20; 20; 60; 0]%Z 3 (fun _ => 1 # 2)).
Proof.
  split; [reflexivity|]. split; [discriminate|].
  split; [intros _; split; [discriminate | reflexivity]|].
  apply (initCentroids_sampled [200; 30; 30; 255; 20; 20; 60; 0]%Z 3 (fun _ => 1 # 2));
    [reflexivity | discriminate | intros _; split; [discriminate | reflexivity]].
Defined.

(** ** The fields of the colors returned *)

Lemma Qfloor_half z : Qfloor (inject_Z z + (1 # 2)) = z.
Proof.
  unfold Qfloor, Qplus, inject_Z. cbn [Qnum Qden].
  change (Z.pos (1 * 2)) with 2%Z. rewrite Z.mul_1_l.
  symmetry. apply Z.div_unique with (r := 1%Z); lia.
Qed.

Lemma Math_round_idempotent n : Math_round (Math_round n) = Math_round n.
Proof. destruct n as [a|]; [|reflexivity]. cbn [Math_round]. now rewrite Qfloor_half. Qed.

Lemma toHex_round n : toHex (Math_round n) = toHex n.
Proof. unfold toHex. now rewrite Math_round_idempotent. Qed.

Lemma toPaletteColor_fields c count x :
  toPaletteColor c count = Some x ->
  hex x = rgbToHex (rgb x) /\ hsl x = rgbToHsl c /\
  rgb x = mkRGB (Math_round (r c)) (Math_round (g c)) (Math_round (b c)) /\
  score x = population x /\
  isDark x = (l (hsl x) <? Fin 0.4)%num /\
  isLight x = (l (hsl x) >? Fin 0.7)%num.
Proof.
  unfold toPaletteColor. destruct (count =? 0)%Z; [discriminate|].
  intros [= <-]. cbn [hex rgb hsl score population isDark isLight].
  repeat split. unfold rgbToHex. cbn [r g b]. now rewrite !toHex_round.
Qed.

Lemma dark_light_exclusive x :
  ((x <? Fin 0.4)%num && (x >? Fin 0.7)%num)%bool = false.
Proof.
  destruct x as [q|]; [|reflexivity]. cbn [nlt ngt].
  destruct (Qlt_bool q 0.4) eqn:E1; [|reflexivity].
  destruct (Qlt_bool 0.7 q) eqn:E2; [|reflexivity].
  apply Qlt_bool_iff in E1, E2. lra.
Qed.

(** X11: in every color returned by [quantizeColors] the [hex] is the
    encoding of the rounded [rgb], the [score] is the [population], and
    [isDark] and [isLight] are never both set. *)
Theorem quantizeColors_fields pixels k rnd colors :
  quantizeColors pixels k rnd = Ok colors ->
  Forall (fun c => hex c = rgbToHex (rgb c) /\
                   score c = population c /\
                   (isDark c && isLight c)%bool = false) colors.
Proof.
  unfold quantizeColors. destruct (initClusters pixels k rnd) as [st|]; [|discriminate].
  intros [= <-]. rewrite (sort_perm _). unfold materialize.
  apply Forall_forall. intros x Hx. apply list_elem_of_omap in Hx as ([c n] & _ & Hx).
  destruct (toPaletteColor_fields _ _ _ Hx) as (H1 & _ & _ & H2 & -> & ->).
  split; [exact H1|]. split; [exact H2|]. apply dark_light_exclusive.
Qed.

Lemma quantizeColors_fields_witness :
  exists colors,
    quantizeColors [200; 30; 30; 255; 20; 20; 61; 255; 20; 20; 60; 255]%Z 1
                   (fun _ => 0) = Ok colors /\
    Forall (fun c => hex c = rgbToHex (rgb c) /\
                     score c = population c /\
                     (isDark c && isLight c)%bool = false) colors.
Proof.
  eexists.
  match goal with
  | |- ?A /\ _ => assert (E : A) by (vm_compute; reflexivity)
  end.
  split; [exact E|]. exact (quantizeColors_fields _ _ _ _ E).
Defined.

Lemma Qfloor_between (x : Q) (z : Z) :
  inject_Z z <= x -> x < inject_Z z + 1 -> Qfloor x = z.
Proof.
  intros H1 H2. pose proof (Qfloor_le x) as F1. pose proof (Qlt_floor x) as F2.
  rewrite inject_Z_plus in F2. change (inject_Z 1) with 1 in F2.
  assert (A : (Qfloor x < z + 1)%Z).
  { rewrite Zlt_Qlt, inject_Z_plus. change (inject_Z 1) with 1. lra. }
  assert (B : (z < Qfloor x + 1)%Z).
  { rewrite Zlt_Qlt, inject_Z_plus. change (inject_Z 1) with 1. lra. }
  lia.
Qed.

Lemma Qfloor_range (x : Q) (lo hi : Z) :
  inject_Z lo <= x -> x < inject_Z hi + 1 -> (lo <= Qfloor x <= hi)%Z.
Proof.
  intros H1 H2. pose proof (Qfloor_le x) as F1. pose proof (Qlt_floor x) as F2.
  rewrite inject_Z_plus in F2. change (inject_Z 1) with 1 in F2.
  assert (A : (Qfloor x < hi + 1)%Z).
  { rewrite Zlt_Qlt, inject_Z_plus. change (inject_Z 1) with 1. lra. }
  assert (B : (lo < Qfloor x + 1)%Z).
  { rewrite Zlt_Qlt, inject_Z_plus. change (inject_Z 1) with 1. lra. }
  lia.
Qed.

Lemma Math_round_channel x :
  channel x ->
  exists z, (0 <= z <= 255)%Z /\ Math_round x = fromZ z /\ toHex x = hexByte z.
Proof.
  intros (q & -> & Hq). exists (Qfloor (q + (1 # 2))).
  assert (Hz : (0 <= Qfloor (q + (1 # 2)) <= 255)%Z).
  { apply Qfloor_range.
    - change (inject_Z 0) with 0. lra.
    - change (inject_Z 255) with 255. lra. }
  split; [exact Hz|]. split; [reflexivity|].
  rewrite <- toHex_round. cbn [Math_round]. now apply toHex_byte.
Qed.

Lemma toPaletteColor_valid centroid n x :
  channel (r centroid) -> channel (g centroid) -> channel (b centroid) ->
  toPaletteColor centroid n = Some x -> validColor x.
Proof.
  intros Hr Hg Hb Ex.
  destruct (toPaletteColor_fields _ _ _ Ex) as (_ & Ehsl & Ergb & _).
  destruct (toPaletteColor_Some _ _ _ Ex) as (_ & _ & _ & Ehex & _).
  destruct (Math_round_channel _ Hr) as (zr & Br & Rr & Xr).
  destruct (Math_round_channel _ Hg) as (zg & Bg & Rg & Xg).
  destruct (Math_round_channel _ Hb) as (zb & Bb & Rb & Xb).
  exists zr, zg, zb. repeat (split; [assumption|]).
  split; [now rewrite Ergb, Rr, Rg, Rb|].
  split.
  - rewrite Ehex. destruct centroid as [cr cg cb]. rewrite rgbToHex_mk.
    cbn [r g b] in Xr, Xg, Xb. now rewrite Xr, Xg, Xb.
  - rewrite Ehsl. destruct centroid as [cr cg cb]. cbn [r g b] in Hr, Hg, Hb.
    destruct Hr as (qr & -> & Hr), Hg as (qg & -> & Hg), Hb as (qb & -> & Hb).
    rewrite (rgbToHsl_Fin qr qg qb Hr Hg Hb).
    pose proof (hslCode_spec qr qg qb Hr Hg Hb) as H.
    destruct (hslCode qr qg qb) as [[h0 s0] l0].
    exists h0, s0, l0. split; [reflexivity|]. tauto.
Qed.



(** ** [rgbToHex] and [rgbToHsl] *)

Lemma hexValue_hexDigit d : (0 <= d < 16)%Z -> hexValue (hexDigit d) = d.
Proof.
  intros Hd.
  assert (H : forallb (fun i => (hexValue (hexDigit (Z.of_nat i)) =? Z.of_nat i)%Z)
                      (seq 0 16) = true) by (vm_compute; reflexivity).
  pose proof (proj1 (forallb_forall _ _) H (Z.to_nat d)) as H'. cbv beta in H'.
  rewrite Z2Nat.id in H' by lia. apply Z.eqb_eq, H', in_seq. lia.
Qed.

Lemma hexByte_inj v w :
  (0 <= v <= 255)%Z -> (0 <= w <= 255)%Z -> hexByte v = hexByte w -> v = w.
Proof.
  intros Hv Hw. unfold hexByte. intros [= H1 H2].
  apply (f_equal hexValue) in H1, H2.
  rewrite !hexValue_hexDigit in H1, H2 by (Z.to_euclidean_division_equations; lia).
  Z.to_euclidean_division_equations; lia.
Qed.

(** X3: on a color of three bytes [rgbToHex] returns [#] followed by
    the two lowercase hexadecimal digits of each channel, seven characters
    in all, and two such colors with the same result are the same color. *)
Theorem rgbToHex_bytes r g b r' g' b' :
  (0 <= r <= 255)%Z -> (0 <= g <= 255)%Z -> (0 <= b <= 255)%Z ->
  (0 <= r' <= 255)%Z -> (0 <= g' <= 255)%Z -> (0 <= b' <= 255)%Z ->
  rgbToHex (colorOf r g b) = hexEncoding r g b /\
  String.length (rgbToHex (colorOf r g b)) = 7%nat /\
  (rgbToHex (colorOf r g b) = rgbToHex (colorOf r' g' b') ->
   r = r' /\ g = g' /\ b = b').
Proof.
  intros Hr Hg Hb Hr' Hg' Hb'.
  rewrite (rgbToHex_hasColor r g b), (rgbToHex_hasColor r' g' b')
    by (try apply hasColor_colorOf; assumption).
  split; [reflexivity|]. split; [reflexivity|].
  unfold hexEncoding.
  change (hexByte r ++ hexByte g ++ hexByte b)%string
    with (String (hexDigit (r / 16)) (String (hexDigit (r mod 16)) (String (hexDigit (g / 16))
           (String (hexDigit (g mod 16)) (hexByte b))))).
  change (hexByte r' ++ hexByte g' ++ hexByte b')%string
    with (String (hexDigit (r' / 16)) (String (hexDigit (r' mod 16)) (String (hexDigit (g' / 16))
           (String (hexDigit (g' mod 16)) (hexByte b'))))).
  intros [= H1 H2 H3 H4 H5].
  repeat split; apply hexByte_inj; try assumption; unfold hexByte; congruence.
Qed.

Lemma rgbToHex_bytes_witness :
  (0 <= 255 <= 255)%Z /\ (0 <= 128 <= 255)%Z /\ (0 <= 0 <= 255)%Z /\
  (0 <= 255 <= 255)%Z /\ (0 <= 128 <= 255)%Z /\ (0 <= 1 <= 255)%Z /\
  rgbToHex (colorOf 255 128 0) = hexEncoding 255 128 0 /\
  String.length (rgbToHex (colorOf 255 128 0)) = 7%nat /\
  (rgbToHex (colorOf 255 128 0) = rgbToHex (colorOf 255 128 1) ->
   255%Z = 255%Z /\ 128%Z = 128%Z /\ 0%Z = 1%Z).
Proof.
  repeat (split; [lia|]). apply (rgbToHex_bytes 255 128 0 255 128 1); lia.
Defined.

(** ** The roles chosen by population *)

Lemma visit_roles dominant st c :
  darkVibrantR (visit dominant st c) = visitRole darkTest (darkVibrantR st) c /\
  lightVibrantR (visit dominant st c) = visitRole lightTest (lightVibrantR st) c /\
  mutedR (visit dominant st c) = visitRole mutedTest (mutedR st) c.
Proof.
  unfold visit, visitRole, darkTest, lightTest, mutedTest.
  destruct (if (_ && _ && _)%bool then _ else _) as [bv ms]. cbn. easy.
Qed.

Lemma fold_visit_roles dominant cs st :
  darkVibrantR (fold_left (visit dominant) cs st)
  = fold_left (visitRole darkTest) cs (darkVibrantR st) /\
  lightVibrantR (fold_left (visit dominant) cs st)
  = fold_left (visitRole lightTest) cs (lightVibrantR st) /\
  mutedR (fold_left (visit dominant) cs st)
  = fold_left (visitRole mutedTest) cs (mutedR st).
Proof.
  revert st. induction cs as [|c cs IH]; intros st; cbn [fold_left]; [easy|].
  destruct (IH (visit dominant st c)) as (-> & -> & ->).
  destruct (visit_roles dominant st c) as (-> & -> & ->). easy.
Qed.

Lemma visitRole_mostPopulous test seen role c :
  mostPopulous test seen role ->
  mostPopulous test (seen ++ [c]) (visitRole test role c).
Proof.
  unfold visitRole. destruct (test c) eqn:Ec.
  - destruct role as [v|]; cbn [morePopulous mostPopulous].
    + intros (before & after & -> & Hv & Hb & Ha).
      destruct (Z.gtb_spec (population c) (population v)) as [Hgt|Hle].
      * exists (before ++ v :: after), []. split; [reflexivity|]. split; [exact Ec|].
        split; [|constructor]. apply Forall_app. split; [|constructor].
        -- eapply Forall_impl; [exact Hb|]. cbv beta. intros x Hx T.
           specialize (Hx T). lia.
        -- intros _. lia.
        -- eapply Forall_impl; [exact Ha|]. cbv beta. intros x Hx T.
           specialize (Hx T). lia.
      * exists before, (after ++ [c]). split; [now rewrite <- app_assoc|].
        split; [exact Hv|]. split; [exact Hb|].
        apply Forall_app. split; [exact Ha|]. constructor; [|constructor].
        intros _. lia.
    + intros Hn. exists seen, []. split; [reflexivity|]. split; [exact Ec|].
      split; [|constructor]. eapply Forall_impl; [exact Hn|]. cbv beta.
      intros x Hx T. congruence.
  - destruct role as [v|]; cbn [mostPopulous].
    + intros (before & after & -> & Hv & Hb & Ha).
      exists before, (after ++ [c]). split; [now rewrite <- app_assoc|].
      split; [exact Hv|]. split; [exact Hb|].
      apply Forall_app. split; [exact Ha|]. constructor; [|constructor].
      intros T. congruence.
    + intros Hn. apply Forall_app. split; [exact Hn|]. now constructor.
Qed.

Lemma fold_visitRole_mostPopulous test cs seen role :
  mostPopulous test seen role ->
  mostPopulous test (seen ++ cs) (fold_left (visitRole test) cs role).
Proof.
  revert seen role. induction cs as [|c cs IH]; intros seen role H; cbn [fold_left].
  - now rewrite app_nil_r.
  - replace (seen ++ c :: cs) with ((seen ++ [c]) ++ cs) by now rewrite <- app_assoc.
    apply IH. now apply visitRole_mostPopulous.
Qed.

Lemma classify_mostPopulous dominant rest :
  exists palette,
    classify (dominant :: rest) = Ok palette /\
    allColors palette = dominant :: rest /\
    mostPopulous darkTest (dominant :: rest) (darkVibrant palette) /\
    mostPopulous lightTest (dominant :: rest) (lightVibrant palette) /\
    mostPopulous mutedTest (dominant :: rest) (muted palette).
Proof.
  eexists. split; [reflexivity|]. cbn [allColors darkVibrant lightVibrant muted].
  split; [reflexivity|].
  destruct (fold_visit_roles dominant (dominant :: rest) noRoles) as (-> & -> & ->).
  repeat split;
    apply (fold_visitRole_mostPopulous _ (dominant :: rest) [] None); constructor.
Qed.

(** X13: on a non-empty sequence the role selection returns a palette
    whose dark vibrant, light vibrant and muted colors are each the first
    of the colors that pass the test of the role with the largest
    population, and [null] exactly when no color passes that test. *)
Theorem classify_roles_most_populous dominant rest :
  exists palette,
    classify (dominant :: rest) = Ok palette /\
    mostPopulous darkTest (dominant :: rest) (darkVibrant palette) /\
    mostPopulous lightTest (dominant :: rest) (lightVibrant palette) /\
    mostPopulous mutedTest (dominant :: rest) (muted palette).
Proof.
  destruct (classify_mostPopulous dominant rest) as (palette & E & _ & H).
  now exists palette.
Qed.

Lemma descending_app_inv before v after :
  descending (before ++ v :: after) ->
  Forall (fun x => (population x >= population v)%Z) before.
Proof.
  unfold descending. induction before as [|x before IH]; cbn [app]; intros H.
  - constructor.
  - apply StronglySorted_inv in H as [H1 H2]. constructor.
    + rewrite List.Forall_forall in H2. apply H2, in_elt.
    + now apply IH.
Qed.

Lemma find_skip {A} (test : A -> bool) before v after :
  Forall (fun x => test x = false) before -> test v = true ->
  find test (before ++ v :: after) = Some v.
Proof.
  induction 1 as [|x before Hx _ IH]; intros Hv; cbn [app find].
  - now rewrite Hv.
  - rewrite Hx. now apply IH.
Qed.

Lemma find_none {A} (test : A -> bool) xs :
  Forall (fun x => test x = false) xs -> find test xs = None.
Proof. induction 1 as [|x xs Hx _ IH]; cbn [find]; [easy|]. now rewrite Hx. Qed.

Lemma mostPopulous_find test colors role :
  descending colors -> mostPopulous test colors role -> role = find test colors.
Proof.
  intros Hd. destruct role as [v|]; cbn [mostPopulous].
  - intros (before & after & -> & Hv & Hb & _). symmetry. apply find_skip; [|exact Hv].
    pose proof (descending_app_inv _ _ _ Hd) as Hge.
    rewrite List.Forall_forall in Hge, Hb. apply List.Forall_forall. intros x Hx.
    destruct (test x) eqn:Ex; [|reflexivity].
    specialize (Hge x Hx). specialize (Hb x Hx Ex). lia.
  - intros H. symmetry. now apply find_none.
Qed.

Lemma descending_head d rest :
  descending (d :: rest) ->
  Forall (fun c => (population c <= population d)%Z) (d :: rest).
Proof.
  unfold descending. intros H. apply StronglySorted_inv in H as [_ H].
  constructor; [lia|]. eapply Forall_impl; [exact H|]. cbv beta. intros; lia.
Qed.

Lemma bestVibrant_member dominant cs st v :
  bestVibrant (fold_left (visit dominant) cs st) = Some v ->
  In v cs \/ bestVibrant st = Some v.
Proof.
  revert st. induction cs as [|c cs IH]; intros st; cbn [fold_left]; [now right|].
  intros H. destruct (IH _ H) as [Hin|Hst]; [left; now right|].
  unfold visit in Hst.
  destruct (_ && _ && _)%bool.
  - destruct (_ >? _)%num; cbn in Hst; [left; left; congruence | now right].
  - cbn in Hst. now right.
Qed.

(** X14: in a palette returned by [processImage], [allColors] is the
    sequence returned by [quantizeColors] with [k = 8], [dominant] is its
    first color and no color has a larger population, the vibrant color
    is one of [allColors], and the dark vibrant, light vibrant and muted
    colors are each the first color of [allColors] that passes the test
    of the role, [null] when there is none. *)
Theorem processImage_roles pixelData rnd palette :
  processImage pixelData rnd = Ok palette ->
  quantizeColors pixelData 8 rnd = Ok (allColors palette) /\
  head (allColors palette) = Some (dominant palette) /\
  Forall (fun c => (population c <= population (dominant palette))%Z)
         (allColors palette) /\
  (exists v, vibrant palette = Some v /\ In v (allColors palette)) /\
  darkVibrant palette = find darkTest (allColors palette) /\
  lightVibrant palette = find lightTest (allColors palette) /\
  muted palette = find mutedTest (allColors palette).
Proof.
  unfold processImage.
  destruct (quantizeColors pixelData 8 rnd) as [colors|e] eqn:E; [|discriminate].
  assert (Hd : descending colors).
  { unfold quantizeColors in E. destruct (initClusters pixelData 8 rnd); [|discriminate].
    injection E as <-. apply sort_descending. }
  destruct colors as [|d rest]; [discriminate|].
  destruct (classify_mostPopulous d rest) as (p & Ep & Hall & Hdark & Hlight & Hmuted).
  rewrite Ep. intros [= <-]. rewrite Hall.
  split; [reflexivity|].
  assert (Edom : dominant p = d) by (cbn in Ep; now injection Ep as <-).
  rewrite Edom. split; [reflexivity|]. split; [now apply descending_head|].
  split.
  - cbn in Ep. injection Ep as <-. cbn [vibrant]. eexists. split; [reflexivity|].
    destruct (bestVibrant (visit d noRoles d)) eqn:E0;
    destruct (bestVibrant (fold_left (visit d) rest (visit d noRoles d))) as [v|] eqn:Ev.
    + apply bestVibrant_member in Ev as [Hin|Hst]; [now right|].
      apply (bestVibrant_member d [d] noRoles) in Hst as [Hin|Hst]; [|discriminate].
      destruct Hin as [<-|[]]. now left.
    + unfold vibrantFallback. destruct (isVibrant d); [now left|].
      destruct rest as [|x rest]; cbn; [now left | right; now left].
    + apply bestVibrant_member in Ev as [Hin|Hst]; [now right|]. congruence.
    + unfold vibrantFallback. destruct (isVibrant d); [now left|].
      destruct rest as [|x rest]; cbn; [now left | right; now left].
  - split; [|split]; now apply mostPopulous_find.
Qed.

Lemma processImage_roles_witness :
  exists palette,
    processImage [200; 30; 30; 255; 20; 20; 60; 255; 20; 20; 60; 255]%Z
                 (fun i => inject_Z (Z.of_nat i) / 8) = Ok palette /\
    quantizeColors [200; 30; 30; 255; 20; 20; 60; 255; 20; 20; 60; 255]%Z 8
                   (fun i => inject_Z (Z.of_nat i) / 8) = Ok (allColors palette) /\
    head (allColors palette) = Some (dominant palette) /\
    Forall (fun c => (population c <= population (dominant palette))%Z)
           (allColors palette) /\
    (exists v, vibrant palette = Some v /\ In v (allColors palette)) /\
    darkVibrant palette = find darkTest (allColors palette) /\
    lightVibrant palette = find lightTest (allColors palette) /\
    muted palette = find mutedTest (allColors palette).
Proof.
  eexists.
  match goal with
  | |- ?A /\ _ => assert (E : A) by (vm_compute; reflexivity)
  end.
  split; [exact E|]. exact (processImage_roles _ _ _ E).
Defined.

(** X15: on a buffer of fewer than 2^31 whole pixels [processImage]
    ends with a [TypeError] when no pixel is opaque, and otherwise returns
    a palette whose dominant color has a population of at least 1. *)
Theorem processImage_outcome pixelData rnd :
  (length pixelData mod 4 = 0)%nat ->
  (Z.of_nat (length pixelData) <= 4 * 2147483647)%Z ->
  (opaquePixels pixelData = 0%Z -> processImage pixelData rnd = Throw TypeError) /\
  (opaquePixels pixelData <> 0%Z ->
   exists palette, processImage pixelData rnd = Ok palette /\
                   (1 <= population (dominant palette))%Z).
Proof.
  intros Hmod Hl.
  destruct (quantizeColors_populations pixelData 8 rnd Hmod Hl ltac:(lia))
    as (colors & E & Hp & _).
  destruct (quantizeColors_empty pixelData 8 rnd Hmod Hl ltac:(lia))
    as (colors' & E' & Hiff).
  rewrite E in E'. injection E' as <-.
  unfold processImage. rewrite E. split.
  - intros H0. apply Hiff in H0. now subst colors.
  - intros Hne. destruct colors as [|d rest]; [now destruct Hne; apply Hiff|].
    eexists. split; [reflexivity|]. cbn [dominant].
    now apply Forall_cons_1 in Hp as [Hd _].
Qed.

Lemma processImage_outcome_witness :
  (length [200; 30; 30; 255; 20; 20; 60; 0]%Z mod 4 = 0)%nat /\
  (Z.of_nat (length [200; 30; 30; 255; 20; 20; 60; 0]%Z) <= 4 * 2147483647)%Z /\
  (opaquePixels [200; 30; 30; 255; 20; 20; 60; 0]%Z = 0%Z ->
   processImage [200; 30; 30; 255; 20; 20; 60; 0]%Z (fun _ => 1 # 2) = Throw TypeError) /\
  (opaquePixels [200; 30; 30; 255; 20; 20; 60; 0]%Z <> 0%Z ->
   exists palette,
     processImage [200; 30; 30; 255; 20; 20; 60; 0]%Z (fun _ => 1 # 2) = Ok palette /\
     (1 <= population (dominant palette))%Z).
Proof.
  split; [reflexivity|]. split; [simpl; lia|].
  apply (processImage_outcome [200; 30; 30; 255; 20; 20; 60; 0]%Z (fun _ => 1 # 2));
    [reflexivity | simpl; lia].
Defined.

(** ** The size of the surface *)

(** The side [x * scale] of the surface, [y] being the other side of the
    image. *)
Lemma scaled_side (X Y s : Q) (x y : Z) :
  X == inject_Z x -> Y == inject_Z y -> (0 < x)%Z -> (0 < y)%Z ->
  0 < s -> s * X <= 128 -> s * Y <= 128 -> (s * X == 128 \/ s * Y == 128) ->
  let side := Qfloor (X * s + (1 # 2)) in
  (0 <= side <= 128)%Z /\
  ((y <= x)%Z -> side = 128%Z) /\
  ((256 * x < y)%Z -> side = 0%Z) /\
  ((y < 256 * x)%Z -> (1 <= side)%Z).
Proof.
  intros EX EY Hx Hy Hs HX HY Hone. cbv zeta.
  assert (PX : 0 < X) by (rewrite EX; change 0 with (inject_Z 0); now rewrite <- Zlt_Qlt).
  assert (PY : 0 < Y) by (rewrite EY; change 0 with (inject_Z 0); now rewrite <- Zlt_Qlt).
  assert (Pos : 0 < s * X) by nra.
  split; [|split; [|split]].
  - apply Qfloor_range.
    + change (inject_Z 0) with 0. lra.
    + change (inject_Z 128) with 128. lra.
  - intros Hle. assert (Y <= X).
    { rewrite EX, EY. now rewrite <- Zle_Qle. }
    apply Qfloor_between; change (inject_Z 128) with 128; nra.
  - intros Hlt. assert (256 * X < Y).
    { rewrite EX, EY. change 256 with (inject_Z 256).
      now rewrite <- inject_Z_mult, <- Zlt_Qlt. }
    apply Qfloor_between; change (inject_Z 0) with 0; nra.
  - intros Hlt. assert (Y < 256 * X).
    { rewrite EX, EY. change 256 with (inject_Z 256).
      now rewrite <- inject_Z_mult, <- Zlt_Qlt. }
    apply Qfloor_range with (hi := 128%Z).
    + change (inject_Z 1) with 1. destruct Hone; nra.
    + change (inject_Z 128) with 128. lra.
Qed.



(** ** Loading CanvasKit *)

Lemma poll_missing scriptDefined kitLoads svc fuel checks :
  (forall n, (checks < n <= checks + fuel)%nat -> scriptDefined n = false) ->
  poll scriptDefined kitLoads svc checks fuel
  = if (50 <? checks + fuel)%nat && (0 <? fuel)%nat
    then Some (svc, Rejected ScriptMissing) else None.
Proof.
  revert checks. induction fuel as [|fuel IH]; intros checks H.
  - cbn [poll]. now rewrite andb_false_r.
  - cbn [poll]. rewrite (H (S checks)) by lia.
    destruct (Nat.ltb_spec 50 (S checks)) as [Hc|Hc].
    + destruct (Nat.ltb_spec 50 (checks + S fuel)); [reflexivity | lia].
    + rewrite IH by (intros n Hn; apply H; lia).
      replace (S checks + fuel)%nat with (checks + S fuel)%nat by lia.
      destruct (Nat.ltb_spec 50 (checks + S fuel)) as [Hf|Hf]; cbn [andb].
      * destruct fuel; [lia | reflexivity].
      * reflexivity.
Qed.

Lemma poll_found scriptDefined kitLoads svc fuel checks n :
  (checks < n)%nat -> (n <= 51)%nat -> (n <= checks + fuel)%nat ->
  (forall i, (checks < i < n)%nat -> scriptDefined i = false) ->
  scriptDefined n = true ->
  poll scriptDefined kitLoads svc checks fuel = Some (initCanvasKit kitLoads svc).
Proof.
  revert checks. induction fuel as [|fuel IH]; intros checks H1 H2 H3 Hf Hn; [lia|].
  cbn [poll]. destruct (Nat.eq_dec n (S checks)) as [->|Hne].
  - now rewrite Hn.
  - rewrite (Hf (S checks)) by lia.
    destruct (Nat.ltb_spec 50 (S checks)); [lia|].
    apply IH; try lia; [intros i Hi; apply Hf; lia | exact Hn].
Qed.

(** X17: when the script of CanvasKit is not there at the call of [init]
    on a new service nor at any of the first 51 firings of the interval,
    the promise is still pending after 50 firings and is rejected at the
    51st, and the service is left not loaded. *)
Theorem init_gives_up_at_check_51 scriptDefined kitLoads :
  (forall n, (n <= 51)%nat -> scriptDefined n = false) ->
  init scriptDefined kitLoads 50 newService = None /\
  forall fuel, (51 <= fuel)%nat ->
    init scriptDefined kitLoads fuel newService
    = Some (mkSkiaService false (Some (Rejected ScriptMissing)), Rejected ScriptMissing).
Proof.
  intros H. unfold init, newService. cbn [isLoaded loadPromise].
  rewrite (H 0%nat) by lia. split.
  - rewrite poll_missing by (intros n Hn; apply H; lia). reflexivity.
  - intros fuel Hf.
    assert (E : poll scriptDefined kitLoads (mkSkiaService false None) 0 fuel
                = Some (mkSkiaService false None, Rejected ScriptMissing)).
    { destruct fuel as [|fuel]; [lia|]. revert Hf. generalize (S fuel). clear fuel.
      intros fuel Hf.
      assert (G : forall fuel checks, (checks + fuel >= 51)%nat -> (checks <= 50)%nat ->
                  poll scriptDefined kitLoads (mkSkiaService false None) checks fuel
                  = Some (mkSkiaService false None, Rejected ScriptMissing)).
      { clear fuel Hf. induction fuel as [|fuel IH]; intros checks Hc1 Hc2; [lia|].
        cbn [poll]. rewrite (H (S checks)) by lia.
        destruct (Nat.ltb_spec 50 (S checks)); [reflexivity|]. apply IH; lia. }
      apply G; lia. }
    now rewrite E.
Qed.

Lemma init_gives_up_at_check_51_witness :
  (forall n, (n <= 51)%nat -> (fun _ : nat => false) n = false) /\
  init (fun _ => false) true 50 newService = None /\
  forall fuel, (51 <= fuel)%nat ->
    init (fun _ => false) true fuel newService
    = Some (mkSkiaService false (Some (Rejected ScriptMissing)), Rejected ScriptMissing).
Proof.
  split; [reflexivity|].
  apply (init_gives_up_at_check_51 (fun _ => false) true). reflexivity.
Defined.

(** X18: when the script of CanvasKit is first there at the call or at
    a firing number [n <= 51] of the interval, [init] on a new service
    calls [CanvasKitInit] then: the service is loaded and the promise
    resolved if that call succeeds, and the promise is rejected with its
    failure otherwise. *)
Theorem init_loads_late_script scriptDefined kitLoads fuel n :
  (n <= 51)%nat -> (n <= fuel)%nat ->
  (forall i, (i < n)%nat -> scriptDefined i = false) ->
  scriptDefined n = true ->
  init scriptDefined kitLoads fuel newService
  = Some (if kitLoads then (mkSkiaService true (Some Resolved), Resolved)
          else (mkSkiaService false (Some (Rejected KitFailure)), Rejected KitFailure)).
Proof.
  intros H1 H2 Hf Hn. unfold init, newService. cbn [isLoaded loadPromise].
  destruct n as [|n].
  - rewrite Hn. unfold initCanvasKit. now destruct kitLoads.
  - rewrite (Hf 0%nat) by lia.
    rewrite (poll_found scriptDefined kitLoads _ fuel 0 (S n)); try lia; try assumption.
    + unfold initCanvasKit. now destruct kitLoads.
    + intros i Hi. apply Hf. lia.
Qed.

Lemma init_loads_late_script_witness :
  (3 <= 51)%nat /\ (3 <= 10)%nat /\
  (forall i, (i < 3)%nat -> Nat.leb 3 i = false) /\
  Nat.leb 3 3 = true /\
  init (Nat.leb 3) true 10 newService
  = Some (mkSkiaService true (Some Resolved), Resolved).
Proof.
  split; [lia|]. split; [lia|].
  split; [intros i Hi; apply Nat.leb_gt; exact Hi|]. split; [reflexivity|].
  apply (init_loads_late_script (Nat.leb 3) true 10 3);
    [lia | lia | intros i Hi; apply Nat.leb_gt; exact Hi | reflexivity].
Defined.

Lemma poll_cases scriptDefined kitLoads svc checks fuel r :
  poll scriptDefined kitLoads svc checks fuel = Some r ->
  r = initCanvasKit kitLoads svc \/ r = (svc, Rejected ScriptMissing).
Proof.
  revert checks. induction fuel as [|fuel IH]; intros checks; cbn [poll]; [discriminate|].
  destruct (scriptDefined (S checks)); [intros [= <-]; now left|].
  destruct (50 <? S checks)%nat; [intros [= <-]; now right|]. apply IH.
Qed.

Lemma initCanvasKit_loaded kitLoads svc :
  isLoaded svc = false ->
  isLoaded (fst (initCanvasKit kitLoads svc)) = true ->
  snd (initCanvasKit kitLoads svc) = Resolved.
Proof. unfold initCanvasKit. destruct kitLoads; cbn [fst snd]; congruence. Qed.

(** X19: once a call of [init] has settled, every later call returns
    the same outcome and leaves the service as it is, whatever has become
    of the script since: a failed load is never tried again. *)
Theorem init_outcome_is_kept scriptDefined kitLoads fuel svc svc' p :
  init scriptDefined kitLoads fuel svc = Some (svc', p) ->
  forall scriptDefined' kitLoads' fuel',
    init scriptDefined' kitLoads' fuel' svc' = Some (svc', p).
Proof.
  unfold init. destruct (isLoaded svc) eqn:El.
  - intros [= <- <-] sd' kl' fuel'. now rewrite El.
  - destruct (loadPromise svc) as [p0|] eqn:Ep.
    + intros [= <- <-] sd' kl' fuel'. now rewrite El, Ep.
    + intros H sd' kl' fuel'.
      destruct (if scriptDefined 0%nat then _ else _) as [[svc0 p0]|] eqn:Eo;
        [|discriminate].
      injection H as <- <-. cbn [isLoaded loadPromise].
      destruct (isLoaded svc0) eqn:E0; [|reflexivity].
      assert (Hr : (svc0, p0) = initCanvasKit kitLoads svc
                   \/ (svc0, p0) = (svc, Rejected ScriptMissing)).
      { destruct (scriptDefined 0%nat); [left; congruence|].
        now apply poll_cases in Eo. }
      destruct Hr as [Hr|Hr].
      * pose proof (initCanvasKit_loaded kitLoads svc El) as Hl.
        rewrite <- Hr in Hl. cbn [fst snd] in Hl. now rewrite (Hl E0).
      * injection Hr as -> ->. congruence.
Qed.

Lemma init_outcome_is_kept_witness :
  init (fun _ => false) true 60 newService
  = Some (mkSkiaService false (Some (Rejected ScriptMissing)), Rejected ScriptMissing) /\
  forall scriptDefined' kitLoads' fuel',
    init scriptDefined' kitLoads' fuel'
         (mkSkiaService false (Some (Rejected ScriptMissing)))
    = Some (mkSkiaService false (Some (Rejected ScriptMissing)), Rejected ScriptMissing).
Proof.
  split; [reflexivity|].
  apply (init_outcome_is_kept (fun _ => false) true 60 newService). reflexivity.
Defined.

(** ** Doubles *)

Section Doubles.
Local Open Scope Z_scope.

(** *** Order and class of a double *)

Ltac cmp_cases :=
  repeat match goal with
  | |- context [Z.compare ?a ?b] => destruct (Z.compare_spec a b)
  | |- context [Pos.compare_cont Eq ?a ?b] =>
      change (Pos.compare_cont Eq a b) with (Pos.compare a b);
      destruct (Pos.compare_spec a b)
  | H : context [Z.compare ?a ?b] |- _ => destruct (Z.compare_spec a b)
  | H : context [Pos.compare_cont Eq ?a ?b] |- _ =>
      change (Pos.compare_cont Eq a b) with (Pos.compare a b) in H;
      destruct (Pos.compare_spec a b)
  end.

Ltac sf_order :=
  intros;
  repeat match goal with
  | x : spec_float |- _ => destruct x
  end;
  repeat match goal with
  | s : bool |- _ => destruct s
  end;
  unfold SFltb, SFleb, SFeqb, SFcompare in *; cbn [CompOpp] in *;
  try easy; cmp_cases; cbn [CompOpp] in *; subst;
  try easy; try lia.

Lemma SFltb_trans a b c : SFltb a b = true -> SFltb b c = true -> SFltb a c = true.
Proof. sf_order. Qed.

Lemma SFltb_leb_trans a b c : SFltb a b = true -> SFleb b c = true -> SFltb a c = true.
Proof. sf_order. Qed.

Lemma SFltb_leb a b : SFltb a b = true -> SFleb a b = true.
Proof. sf_order. Qed.

Lemma SFltb_not_leb a b : SFltb a b = true -> SFleb b a = false.
Proof. sf_order. Qed.

Lemma SFleb_total a b :
  a <> S754_nan -> b <> S754_nan -> SFleb b a = false -> SFltb a b = true.
Proof. sf_order. Qed.

Lemma SFltb_total a b :
  a <> S754_nan -> b <> S754_nan -> SFltb b a = false -> SFleb a b = true.
Proof. sf_order. Qed.

(** * The class of a result *)

Lemma shr_1_nonneg mrs : 0 <= shr_m mrs -> 0 <= shr_m (shr_1 mrs).
Proof. destruct mrs as [[|[p|p|]|p] r s]; cbn; lia. Qed.

Lemma iter_pos_invariant {A} (P : A -> Prop) (f : A -> A) :
  (forall x, P x -> P (f x)) -> forall n x, P x -> P (SpecFloat.iter_pos f n x).
Proof.
  intros Hf. induction n as [n IH|n IH|]; intros x Hx; cbn.
  - apply IH, IH, Hf, Hx.
  - apply IH, IH, Hx.
  - apply Hf, Hx.
Qed.

Lemma shr_nonneg mrs e n : 0 <= shr_m mrs -> 0 <= shr_m (fst (shr mrs e n)).
Proof.
  intros H. destruct n as [|p|p]; cbn; try exact H.
  apply (iter_pos_invariant (fun x => 0 <= shr_m x)); [apply shr_1_nonneg | exact H].
Qed.

Lemma shr_fexp_nonneg prec emax m e l :
  0 <= m -> 0 <= shr_m (fst (shr_fexp prec emax m e l)).
Proof.
  intros H. unfold shr_fexp. apply shr_nonneg.
  destruct l as [|[| |]]; exact H.
Qed.

Lemma round_nearest_even_nonneg m l : 0 <= m -> 0 <= round_nearest_even m l.
Proof.
  intros H. destruct l as [|[| |]]; cbn; try lia. destruct (Z.even m); lia.
Qed.

Lemma binary_round_aux_signedAs prec emax sx mx ex lx :
  0 <= mx -> signedAs sx (binary_round_aux prec emax sx mx ex lx).
Proof.
  intros H. unfold binary_round_aux.
  pose proof (shr_fexp_nonneg prec emax mx ex lx H) as H1.
  destruct (shr_fexp prec emax mx ex lx) as [mrs' e']. cbn [fst] in H1.
  pose proof (shr_fexp_nonneg prec emax _ e' loc_Exact
                (round_nearest_even_nonneg _ (loc_of_shr_record mrs') H1)) as H2.
  destruct (shr_fexp prec emax _ e' loc_Exact) as [mrs'' e'']. cbn [fst] in H2.
  destruct (shr_m mrs'') as [|m|m]; [reflexivity | | lia].
  destruct (e'' <=? emax - prec); reflexivity.
Qed.

Lemma binary_round_signedAs prec emax sx mx ex :
  signedAs sx (binary_round prec emax sx mx ex).
Proof.
  unfold binary_round. destruct (shl_align _ _ _) as [mz ez].
  now apply binary_round_aux_signedAs.
Qed.

Lemma binary_normalize_nonneg prec emax m e :
  0 <= m -> signedAs false (binary_normalize prec emax m e false).
Proof.
  intros H. destruct m as [|m|m]; cbn; [reflexivity | | lia].
  apply binary_round_signedAs.
Qed.

Lemma binary_normalize_not_nan prec emax m e sz :
  binary_normalize prec emax m e sz <> S754_nan.
Proof.
  destruct m as [|m|m]; cbn; [discriminate | |];
    match goal with
    | |- binary_round _ _ ?s ?m ?e <> _ =>
        pose proof (binary_round_signedAs prec emax s m e) as H;
        destruct (binary_round prec emax s m e); easy
    end.
Qed.

Lemma SFdiv_positive prec emax x y :
  positive64 x -> positive64 y -> signedAs false (SFdiv prec emax x y).
Proof.
  destruct x as [| | |[|] mx ex], y as [| | |[|] my ey]; try easy. intros _ _.
  cbn [SFdiv xorb]. unfold SFdiv_core_binary.
  set (m' := match _ - _ with Z0 => _ | Zpos _ => _ | Zneg _ => _ end).
  assert (Hm : 0 <= m').
  { unfold m'. destruct (_ - _); [lia | | lia]. apply Z.shiftl_nonneg. lia. }
  pose proof (Z_div_mod m' (Zpos my) ltac:(lia)) as Hd.
  destruct (Z.div_eucl m' (Z.pos my)) as [q r].
  apply binary_round_aux_signedAs. nia.
Qed.

Lemma SFmul_signedAs prec emax x y :
  signedAs false x -> positive64 y -> signedAs false (SFmul prec emax x y).
Proof.
  destruct x as [[|]|[|]| |[|] mx ex], y as [| | |[|] my ey]; try easy. intros _ _.
  cbn [SFmul xorb]. now apply binary_round_aux_signedAs.
Qed.

Lemma SFmul_positive_signedAs prec emax x y :
  positive64 x -> signedAs false y -> signedAs false (SFmul prec emax x y).
Proof.
  destruct x as [| | |[|] mx ex], y as [[|]|[|]| |[|] my ey]; try easy. intros _ _.
  cbn [SFmul xorb]. now apply binary_round_aux_signedAs.
Qed.

Lemma SFadd_signedAs prec emax x y :
  positive64 x -> signedAs false y -> signedAs false (SFadd prec emax x y).
Proof.
  destruct x as [| | |[|] mx ex], y as [[|]|[|]| |[|] my ey]; try easy. intros _ _.
  cbn [SFadd cond_Zopp]. apply binary_normalize_nonneg. lia.
Qed.

Lemma SFltb_negative_signedAs m e x :
  signedAs false x -> SFltb (S754_finite true m e) x = true.
Proof. destruct x as [[|]|[|]| |[|] mx ex]; easy. Qed.

Lemma SFleb_ltb_trans a b c : SFleb a b = true -> SFltb b c = true -> SFltb a c = true.
Proof. sf_order. Qed.

Lemma SFltb_above c x :
  positive64 c -> SFltb c x = true -> positive64 x \/ x = S754_infinity false.
Proof. destruct c as [| | |[|] ? ?], x as [[|]|[|]| |[|] ? ?]; try easy; auto. Qed.

Lemma SFleb_above c x :
  positive64 c -> SFleb c x = true -> positive64 x \/ x = S754_infinity false.
Proof. destruct c as [| | |[|] ? ?], x as [[|]|[|]| |[|] ? ?]; try easy; auto. Qed.

Lemma SFltb_infinity c : positive64 c -> SFltb c (S754_infinity false) = true.
Proof. destruct c as [| | |[|] ? ?]; easy. Qed.

Lemma SFeqb_refl_positive x : positive64 x -> SFeqb x x = true.
Proof.
  destruct x as [| | |[|] m e]; try easy. intros _. unfold SFeqb, SFcompare.
  rewrite Z.compare_refl. change (Pos.compare_cont Eq m m) with (Pos.compare m m).
  now rewrite Pos.compare_refl.
Qed.

Lemma SFeqb_positive_zero x s : positive64 x -> SFeqb x (S754_zero s) = false.
Proof. destruct x as [| | |[|] m e]; easy. Qed.

Lemma SFltb_not_eqb a b : SFltb a b = true -> SFeqb b a = false.
Proof. sf_order. Qed.

Local Open Scope float_scope.

(** *** The vibrant role *)

Lemma fltb_trans a b c : (a <? b) = true -> (b <? c) = true -> (a <? c) = true.
Proof. rewrite !FloatAxioms.ltb_spec. apply SFltb_trans. Qed.

Lemma fleb_ltb_trans a b c : (a <=? b) = true -> (b <? c) = true -> (a <? c) = true.
Proof. rewrite !FloatAxioms.ltb_spec, FloatAxioms.leb_spec. apply SFleb_ltb_trans. Qed.

Lemma fltb_total a b : number a -> number b -> (b <? a) = false -> (a <=? b) = true.
Proof. rewrite FloatAxioms.ltb_spec, FloatAxioms.leb_spec. apply SFltb_total. Qed.

Lemma signedAs_number x : signedAs false (Prim2SF x) -> number x.
Proof. unfold number. destruct (Prim2SF x); easy. Qed.

Lemma positive64_one : positive64 (Prim2SF 1).
Proof. vm_compute. exact I. Qed.

Lemma positive64_half : positive64 (Prim2SF 0.5).
Proof. vm_compute. exact I. Qed.

Lemma positive64_03 : positive64 (Prim2SF 0.3).
Proof. vm_compute. exact I. Qed.

Lemma Prim2SF_infinity : Prim2SF infinity = S754_infinity false.
Proof. vm_compute. reflexivity. Qed.

Lemma Prim2SF_zero : Prim2SF 0 = S754_zero false.
Proof. vm_compute. reflexivity. Qed.

Lemma Prim2SF_minus_one : Prim2SF (-1) = S754_finite true 4503599627370496 (-52).
Proof. vm_compute. reflexivity. Qed.

(** A number from 1 on that is not [Infinity] is positive and finite. *)
Lemma population_positive64 x :
  (1 <=? x) = true -> (x <? infinity) = true -> positive64 (Prim2SF x).
Proof.
  rewrite FloatAxioms.leb_spec, FloatAxioms.ltb_spec, Prim2SF_infinity. intros H1 H2.
  destruct (SFleb_above _ _ positive64_one H1) as [H|H]; [exact H|].
  rewrite H in H2. discriminate.
Qed.

(** A saturation above 0.3 and not above 1 is positive and finite. *)
Lemma saturation_positive64 x :
  (0.3 <? x) = true -> (1 <? x) = false -> positive64 (Prim2SF x).
Proof.
  rewrite !FloatAxioms.ltb_spec. intros H1 H2.
  destruct (SFltb_above _ _ positive64_03 H1) as [H|H]; [exact H|].
  rewrite H, (SFltb_infinity _ positive64_one) in H2. discriminate.
Qed.

Lemma orElse_positive64 x y : positive64 (Prim2SF x) -> Binary64.orElse x y = x.
Proof.
  intros H. unfold Binary64.orElse, is_nan.
  now rewrite !FloatAxioms.eqb_spec, (SFeqb_refl_positive _ H), Prim2SF_zero,
    (SFeqb_positive_zero _ false H).
Qed.

(** The score of a color of the data model that passes the test is a
    number, and not a negative one. *)
Lemma vibrantScore_signedAs dominant c :
  Binary64.modelColor dominant -> Binary64.modelColor c -> (0.3 <? Binary64.s (Binary64.hsl c)) = true ->
  signedAs false (Prim2SF (Binary64.vibrantScore dominant c)).
Proof.
  intros (Hd1 & Hd2 & _) (Hc1 & Hc2 & Hc3) Hs.
  pose proof (population_positive64 _ Hd1 Hd2) as Pd.
  pose proof (population_positive64 _ Hc1 Hc2) as Pc.
  pose proof (saturation_positive64 _ Hs Hc3) as Ps.
  unfold Binary64.vibrantScore, Binary64.popRatio. rewrite (orElse_positive64 _ _ Pd).
  rewrite mul_spec. apply SFmul_positive_signedAs; [exact Ps|].
  rewrite add_spec. apply SFadd_signedAs; [exact positive64_one|].
  rewrite mul_spec. apply SFmul_signedAs; [|exact positive64_half].
  rewrite div_spec. now apply SFdiv_positive.
Qed.

Lemma vibrantScore_above_minus_one dominant c :
  Binary64.modelColor dominant -> Binary64.modelColor c -> (0.3 <? Binary64.s (Binary64.hsl c)) = true ->
  (-1 <? Binary64.vibrantScore dominant c) = true.
Proof.
  intros Hd Hc Hs. rewrite FloatAxioms.ltb_spec, Prim2SF_minus_one.
  apply SFltb_negative_signedAs. now apply vibrantScore_signedAs.
Qed.

(** On a color of the data model the test of the callback is the
    eligibility of the specification. *)
Lemma vibrantTest_eligible c :
  Binary64.modelColor c -> (Binary64.vibrantTest c = true <-> Binary64.vibrantEligible c).
Proof.
  intros (_ & _ & Hs). unfold Binary64.vibrantTest, Binary64.vibrantEligible.
  rewrite !andb_true_iff. split.
  - intros [[H1 H2] H3]. repeat split; try assumption.
    apply fltb_total; [| |exact Hs].
    + apply signedAs_number. pose proof (saturation_positive64 _ H1 Hs) as P.
      destruct (Prim2SF (Binary64.s (Binary64.hsl c))) as [| | |[|] ? ?]; easy.
    + apply signedAs_number. pose proof positive64_one as P.
      destruct (Prim2SF 1) as [| | |[|] ? ?]; easy.
  - intros (H1 & _ & H2 & H3). easy.
Qed.

Lemma visit_vibrant64 dominant st c :
  (Binary64.bestVibrant (Binary64.visit dominant st c), Binary64.maxVibrantScore (Binary64.visit dominant st c))
  = Binary64.visitVibrant dominant (Binary64.bestVibrant st, Binary64.maxVibrantScore st) c.
Proof.
  unfold Binary64.visit, Binary64.visitVibrant, Binary64.vibrantTest. cbn [snd].
  destruct (_ && _ && _)%bool; [|reflexivity].
  destruct (_ <? _); reflexivity.
Qed.

Lemma fold_visit_vibrant64 dominant cs st :
  (Binary64.bestVibrant (fold_left (Binary64.visit dominant) cs st),
   Binary64.maxVibrantScore (fold_left (Binary64.visit dominant) cs st))
  = fold_left (Binary64.visitVibrant dominant) cs (Binary64.bestVibrant st, Binary64.maxVibrantScore st).
Proof.
  revert st. induction cs as [|c cs IH]; intros st; cbn [fold_left]; [reflexivity|].
  now rewrite IH, visit_vibrant64.
Qed.

Section Vibrant64.
Variable dominant : Binary64.PaletteColor.
Hypothesis Hdominant : Binary64.modelColor dominant.

Lemma score_number c :
  Binary64.modelColor c -> Binary64.vibrantEligible c -> number (Binary64.vibrantScore dominant c).
Proof.
  intros Hc (Hs & _). apply signedAs_number. now apply vibrantScore_signedAs.
Qed.

Lemma visitVibrant_inv seen st c :
  Forall Binary64.modelColor seen -> Binary64.modelColor c ->
  Binary64.vibrantInv dominant seen st ->
  Binary64.vibrantInv dominant (seen ++ [c]) (Binary64.visitVibrant dominant st c).
Proof.
  intros Hseen Hc Hinv. unfold Binary64.visitVibrant.
  destruct (Binary64.vibrantTest c) eqn:Et.
  - pose proof (proj1 (vibrantTest_eligible c Hc) Et) as He.
    destruct (snd st <? Binary64.vibrantScore dominant c) eqn:Egt.
    + (* the score of [c] is above the maximum so far *)
      unfold Binary64.vibrantInv. cbv zeta. cbn [fst snd]. split; [reflexivity|].
      exists seen, []. split; [reflexivity|]. split; [exact He|].
      split; [|constructor].
      unfold Binary64.vibrantInv in Hinv. cbv zeta in Hinv.
      destruct (fst st) as [v|].
      * destruct Hinv as (Em & before & after & -> & Hv & Hb & Ha).
        rewrite Em in Egt. apply Forall_app. split; [|constructor].
        -- eapply Forall_impl; [exact Hb|]. cbv beta. intros x Hx Ex.
           exact (fltb_trans _ _ _ (Hx Ex) Egt).
        -- intros _. exact Egt.
        -- eapply Forall_impl; [exact Ha|]. cbv beta. intros x Hx Ex.
           exact (fleb_ltb_trans _ _ _ (Hx Ex) Egt).
      * destruct Hinv as [_ Hn]. eapply Forall_impl; [exact Hn|]. cbv beta.
        intros x Hx Ex. now destruct Hx.
    + (* it is not *)
      unfold Binary64.vibrantInv in *. cbv zeta in *. destruct (fst st) as [v|].
      * destruct Hinv as (Em & before & after & -> & Hv & Hb & Ha).
        split; [exact Em|]. exists before, (after ++ [c]).
        split; [now rewrite <- app_assoc|]. split; [exact Hv|]. split; [exact Hb|].
        apply Forall_app. split; [exact Ha|]. constructor; [|constructor].
        intros _. rewrite Em in Egt.
        apply Forall_app in Hseen as [_ Hv']. apply Forall_cons_1 in Hv' as [Hv' _].
        apply fltb_total; [now apply score_number | now apply score_number | exact Egt].
      * destruct Hinv as [Em _]. rewrite Em in Egt.
        rewrite (vibrantScore_above_minus_one dominant c Hdominant Hc (proj1 He)) in Egt.
        discriminate.
  - assert (Hne : ~ Binary64.vibrantEligible c).
    { intros He. apply (vibrantTest_eligible c Hc) in He. congruence. }
    unfold Binary64.vibrantInv in *. cbv zeta in *. destruct (fst st) as [v|].
    + destruct Hinv as (Em & before & after & -> & Hv & Hb & Ha).
      split; [exact Em|]. exists before, (after ++ [c]).
      split; [now rewrite <- app_assoc|]. split; [exact Hv|]. split; [exact Hb|].
      apply Forall_app. split; [exact Ha|]. constructor; [|constructor].
      intros He. now destruct Hne.
    + destruct Hinv as [Em Hn]. split; [exact Em|].
      apply Forall_app. split; [exact Hn|]. now constructor.
Qed.

Lemma fold_visitVibrant_inv cs seen st :
  Forall Binary64.modelColor (seen ++ cs) ->
  Binary64.vibrantInv dominant seen st ->
  Binary64.vibrantInv dominant (seen ++ cs) (fold_left (Binary64.visitVibrant dominant) cs st).
Proof.
  revert seen st. induction cs as [|c cs IH]; intros seen st Hall Hinv; cbn [fold_left].
  - now rewrite app_nil_r.
  - replace (seen ++ c :: cs) with ((seen ++ [c]) ++ cs) in * by now rewrite <- app_assoc.
    apply IH; [exact Hall|]. apply Forall_app in Hall as [Hall _].
    apply Forall_app in Hall as [Hs Hc]. apply Forall_cons_1 in Hc as [Hc _].
    now apply visitVibrant_inv.
Qed.
End Vibrant64.

Lemma vibrantFallback_second64 d rest :
  Binary64.vibrantFallback (d :: rest) d
  = if Binary64.isVibrant d then d
    else match rest with
         | second :: _ => second
         | [] => d
         end.
Proof. unfold Binary64.vibrantFallback. destruct (Binary64.isVibrant d), rest; reflexivity. Qed.


Lemma exampleTie_model :
  Forall Binary64.modelColor [Binary64.exampleFirst; Binary64.exampleSecond].
Proof. repeat constructor; vm_compute; reflexivity. Qed.


(** Two eligible colors whose saturations differ and whose scores are the
    same double: the first one seen is kept. *)
Example vibrant_tie_keeps_first :
  Binary64.s (Binary64.hsl Binary64.exampleFirst) = 0.4285714285714285 /\
  Binary64.s (Binary64.hsl Binary64.exampleSecond) = 0.42857142857142855 /\
  Binary64.vibrantScore Binary64.exampleFirst Binary64.exampleFirst
  = Binary64.vibrantScore Binary64.exampleFirst Binary64.exampleSecond /\
  exists palette,
    Binary64.classify [Binary64.exampleFirst; Binary64.exampleSecond] = Ok palette /\
    Binary64.vibrant palette = Some Binary64.exampleFirst.
Proof.
  repeat split; try (vm_compute; reflexivity).
  eexists. split; vm_compute; reflexivity.
Qed.

(** *** [rgbToHsl] on bytes *)

Lemma rgbToHsl_bytes :
  (let bytes := Binary64.byteNumbers in
   forallb (fun r => forallb (fun g => forallb (fun b => Binary64.hslCheck r g b)
                                        bytes) bytes) bytes) = true.
Proof. vm_cast_no_check (eq_refl true). Qed.

Lemma byteNumbers_spec (f : float * float -> bool) :
  forallb f Binary64.byteNumbers = true ->
  forall k, (0 <= k <= 255)%Z -> f (Binary64.ofZ k, Binary64.ofZ k / 255) = true.
Proof.
  intros H k Hk. apply (proj1 (forallb_forall f Binary64.byteNumbers) H).
  unfold Binary64.byteNumbers, Binary64.byteValues.
  apply (in_map (fun k => (Binary64.ofZ k, Binary64.ofZ k / 255))).
  replace k with (Z.of_nat (Z.to_nat k)) by lia. apply in_map, in_seq. lia.
Qed.

Lemma hslCheck_bytes r g b :
  (0 <= r <= 255)%Z -> (0 <= g <= 255)%Z -> (0 <= b <= 255)%Z ->
  Binary64.hslCheck (Binary64.ofZ r, Binary64.ofZ r / 255) (Binary64.ofZ g, Binary64.ofZ g / 255)
             (Binary64.ofZ b, Binary64.ofZ b / 255) = true.
Proof.
  intros Hr Hg Hb. pose proof rgbToHsl_bytes as H. cbv zeta in H.
  pose proof (byteNumbers_spec _ H r Hr) as H1. cbv beta in H1.
  pose proof (byteNumbers_spec _ H1 g Hg) as H2. cbv beta in H2.
  exact (byteNumbers_spec _ H2 b Hb).
Qed.

(** The order of bytes is the order of the doubles they are. *)
Lemma ofZ_bytes_order :
  forallb (fun a => forallb (fun c =>
     Bool.eqb (Binary64.ofZ a <=? Binary64.ofZ c) (a <=? c)%Z
     && Bool.eqb (Binary64.ofZ a <? Binary64.ofZ c) (a <? c)%Z) Binary64.byteValues) Binary64.byteValues = true.
Proof. vm_compute. reflexivity. Qed.

Lemma byteValues_spec (f : Z -> bool) :
  forallb f Binary64.byteValues = true -> forall k, (0 <= k <= 255)%Z -> f k = true.
Proof.
  intros H k Hk. apply (proj1 (forallb_forall f Binary64.byteValues) H).
  unfold Binary64.byteValues.
  replace k with (Z.of_nat (Z.to_nat k)) by lia. apply in_map, in_seq. lia.
Qed.

Lemma ofZ_leb a c :
  (0 <= a <= 255)%Z -> (0 <= c <= 255)%Z -> (Binary64.ofZ a <=? Binary64.ofZ c) = (a <=? c)%Z.
Proof.
  intros Ha Hc. pose proof (byteValues_spec _ ofZ_bytes_order a Ha) as H. cbv beta in H.
  pose proof (byteValues_spec _ H c Hc) as H'. cbv beta in H'.
  apply andb_prop in H' as [H' _]. now apply eqb_prop in H'.
Qed.

Lemma ofZ_ltb a c :
  (0 <= a <= 255)%Z -> (0 <= c <= 255)%Z -> (Binary64.ofZ a <? Binary64.ofZ c) = (a <? c)%Z.
Proof.
  intros Ha Hc. pose proof (byteValues_spec _ ofZ_bytes_order a Ha) as H. cbv beta in H.
  pose proof (byteValues_spec _ H c Hc) as H'. cbv beta in H'.
  apply andb_prop in H' as [_ H']. now apply eqb_prop in H'.
Qed.

Lemma zero_degrees : 0 * 360 = 0.
Proof. vm_compute. reflexivity. Qed.

Lemma fltb_not_eqb a c : (a <? c) = true -> (c =? a) = false.
Proof. rewrite FloatAxioms.ltb_spec, FloatAxioms.eqb_spec. apply SFltb_not_eqb. Qed.

Lemma fltb_leb a c : (a <? c) = true -> (a <=? c) = true.
Proof. rewrite FloatAxioms.ltb_spec, FloatAxioms.leb_spec. apply SFltb_leb. Qed.

Lemma rgbToHsl_unfold c :
  let r := Binary64.r c / 255 in
  let g := Binary64.g c / 255 in
  let b := Binary64.b c / 255 in
  let max := Binary64.Math_max r g b in
  let min := Binary64.Math_min r g b in
  let l := (max + min) / 2 in
  Binary64.rgbToHsl c =
  if max =? min then Binary64.mkHSL (0 * 360) 0 l
  else Binary64.mkHSL (Binary64.hueCode r g b max min)
               (if 0.5 <? l then (max - min) / (2 - max - min)
                else (max - min) / (max + min)) l.
Proof. cbv zeta. unfold Binary64.rgbToHsl, Binary64.hueCode. now destruct (_ =? _). Qed.

Lemma hslSpec_unfold c :
  let r := Binary64.r c / 255 in
  let g := Binary64.g c / 255 in
  let b := Binary64.b c / 255 in
  let max := Binary64.Math_max r g b in
  let min := Binary64.Math_min r g b in
  let l := (max + min) / 2 in
  Binary64.hslSpec c =
  if max =? min then Binary64.mkHSL 0 0 l
  else Binary64.mkHSL (Binary64.hueSpec r g b max min)
               (if 0.5 <? l then (max - min) / (2 - max - min)
                else (max - min) / (max + min)) l.
Proof. reflexivity. Qed.

(** What [hslCheck] establishes of [rgbToHsl] on a color of bytes. *)
Lemma rgbToHsl_checked r g b :
  (0 <= r <= 255)%Z -> (0 <= g <= 255)%Z -> (0 <= b <= 255)%Z ->
  let c := Binary64.colorOf r g b in
  let x := Binary64.rgbToHsl c in
  ((0 <=? Binary64.h x) = true /\ (Binary64.h x <? 360) = true /\
   (0 <=? Binary64.s x) = true /\ (Binary64.s x <=? 1) = true /\
   (0 <=? Binary64.l x) = true /\ (Binary64.l x <=? 1) = true /\
   (((Binary64.h x =? 0) && (Binary64.s x =? 0))%bool = true
    <-> (Binary64.maxChannel c =? Binary64.minChannel c) = true) /\
   x = Binary64.hslSpec c) /\
  (((g <=? r)%Z && (b <=? r)%Z)%bool = true ->
   ((Binary64.h x <=? 60) || (300 <=? Binary64.h x))%bool = true) /\
  (((r <? g)%Z && (b <=? g)%Z)%bool = true ->
   ((60 <=? Binary64.h x) && (Binary64.h x <=? 180))%bool = true) /\
  (((r <? b)%Z && (g <? b)%Z)%bool = true ->
   ((180 <=? Binary64.h x) && (Binary64.h x <=? 300))%bool = true).
Proof.
  intros Hr Hg Hb. cbv zeta.
  pose proof (hslCheck_bytes r g b Hr Hg Hb) as H. unfold Binary64.hslCheck in H.
  rewrite !ofZ_leb, !ofZ_ltb in H by assumption.
  rewrite rgbToHsl_unfold, hslSpec_unfold. cbv zeta.
  unfold Binary64.maxChannel, Binary64.minChannel, Binary64.colorOf. cbn [Binary64.r Binary64.g Binary64.b] in *.
  set (R := Binary64.ofZ r / 255) in *. set (G := Binary64.ofZ g / 255) in *.
  set (Bl := Binary64.ofZ b / 255) in *.
  set (M := Binary64.Math_max R G Bl) in *. set (m := Binary64.Math_min R G Bl) in *.
  apply andb_prop in H as [[H1 H2]%andb_prop H].
  destruct (M =? m) eqn:E.
  - cbn [Binary64.h Binary64.s Binary64.l]. rewrite zero_degrees.
    apply andb_prop in H as [Hg0 Hb0]. apply negb_true_iff in Hg0, Hb0.
    split; [repeat split; try assumption; try reflexivity|].
    rewrite Hg0, Hb0. cbn [andb].
    split; [intros _; reflexivity | split; intros Hx; discriminate Hx].
  - cbn [Binary64.h Binary64.s Binary64.l].
    repeat match type of H with
           | (_ && _)%bool = true => apply andb_prop in H as [H ?]
           end.
    match goal with
    | Heq : Leibniz.eqb _ _ = true |- _ => apply Leibniz.eqb_spec in Heq; rename Heq into Ehue
    end.
    split; [|split; [|split]].
    + repeat split; try assumption.
      * now apply fltb_leb.
      * intros [_ Hs0]%andb_prop.
        match goal with
        | Hpos : (0 <? _) = true |- _ => apply fltb_not_eqb in Hpos; congruence
        end.
      * discriminate.
      * now rewrite <- Ehue.
    + intros Hc. match goal with
      | Hs : (if ((g <=? r)%Z && (b <=? r)%Z)%bool then _ else _) = true |- _ =>
          now rewrite Hc in Hs
      end.
    + intros Hc. match goal with
      | Hs : (if ((r <? g)%Z && (b <=? g)%Z)%bool then _ else _) = true |- _ =>
          now rewrite Hc in Hs
      end.
    + intros Hc. match goal with
      | Hs : (if ((r <? b)%Z && (g <? b)%Z)%bool then _ else _) = true |- _ =>
          now rewrite Hc in Hs
      end.
Qed.






End Doubles.

(** ** Two scenarios of the specification *)

(** A solid red image of 100 pixels, [k = 8]. *)
Example solid_red_palette :
  exists palette,
    processImage (solid 100 255 0 0) (fun i => inject_Z (Z.of_nat i) / 8) = Ok palette /\
    allColors palette = [dominant palette] /\
    population (dominant palette) = 100%Z /\
    hex (dominant palette) = "#ff0000"%string /\
    isVibrant (dominant palette) = true /\
    vibrant palette = Some (dominant palette) /\
    muted palette = None /\ darkVibrant palette = None /\ lightVibrant palette = None.
Proof. eexists. split; [vm_compute; reflexivity|]. repeat split. Qed.

(** Seven pixels of a saturated blue and three of a light, faintly blue
    white, [k = 2], one centroid sampled from each color. *)
Example blue_and_white_palette :
  exists palette white,
    processImage (solid 7 0 0 255 ++ solid 3 240 240 255)
                 (fun i => inject_Z (Z.of_nat i) * (8 # 10)) = Ok palette /\
    map hex (allColors palette) = ["#0000ff"; "#f0f0ff"]%string /\
    map population (allColors palette) = [7; 3]%Z /\
    hex (dominant palette) = "#0000ff"%string /\
    vibrant palette = Some (dominant palette) /\
    lightVibrant palette = Some white /\ hex white = "#f0f0ff"%string.
Proof. eexists. eexists. split; [vm_compute; reflexivity|]. repeat split. Qed.
